(** * Left-leaning red-black trees of algorithms-ts: sorted set and sorted map

    A shallow embedding of [src/data-structures/sorted-set] and
    [src/data-structures/sorted-map], and the verification of the
    properties their specification states.

    Nodes are mutated in place by the TypeScript code.  Every node is owned
    by exactly one parent link (the code never stores a node twice), so a
    tree is modelled as a value and every mutating helper returns the tree it
    leaves behind.  Exceptions are modelled by the result type [res]. *)

From Stdlib Require Import String ZArith List Bool Lia Setoid Morphisms.
Import ListNotations.
Local Open Scope Z_scope.

(** ** Exceptions *)

(** [NoSuchElementError] is the class of [@/common/errors]; [AssertionError]
    is what [ok] of [node:assert/strict] throws; [TypeError] is what the
    runtime throws when a property of [null] is read.  [OutOfFuel] belongs to
    the model only: the deleting functions recurse into a node they have just
    rebuilt, so they are defined by recursion on a counter that the entry
    points set to more than the number of nodes. *)
Inductive error : Type :=
| NoSuchElementError (message : String.string)
| AssertionError
| TypeError
| OutOfFuel.

Inductive res (A : Type) : Type :=
| Ok (a : A)
| Throw (e : error).
Arguments Ok {A} a.
Arguments Throw {A} e.

Definition bind {A B : Type} (m : res A) (k : A -> res B) : res B :=
  match m with
  | Ok a => k a
  | Throw e => Throw e
  end.

Notation "x <- m ;; k" := (bind m (fun x => k))
  (at level 61, m at next level, right associativity).
Notation "m ;;; k" := (bind m (fun _ => k))
  (at level 61, right associativity).

(** [ok(value)] of [node:assert/strict]. *)
Definition ok (value : bool) : res unit :=
  if value then Ok tt else Throw AssertionError.

(** [CompareFn<T>]: negative, zero or positive. *)
Definition CompareFn (T : Type) : Type := T -> T -> Z.

(** [RED = true, BLACK = false] ([node.ts]). *)
Definition RED : bool := true.
Definition BLACK : bool := false.

(** Outcome of a method call on a container of type [S]: it returns [a] and
    leaves the container [this]; or it throws before it has touched the tree,
    which leaves the container [this]; or an exception escapes from a helper
    that was mutating nodes in place, and the tree it leaves is not modelled. *)
Inductive outcome (S A : Type) : Type :=
| Returns (a : A) (this : S)
| Throws (e : error) (this : S)
| Aborts (e : error).
Arguments Returns {S A} a this.
Arguments Throws {S A} e this.
Arguments Aborts {S A} e.

(** A generator whose body is [for (const x of array) yield x], as
    [*[Symbol.iterator]()] of both containers is.  The body has not started
    to run before the first call of [next]; it then evaluates [array] and
    from then on walks the array it was given. *)
Inductive Generator (A : Type) : Type :=
| Suspended
| Yielding (rest : list A)
| Completed.
Arguments Suspended {A}.
Arguments Yielding {A} rest.
Arguments Completed {A}.

(** One call of [generator.next()]: the element yielded, if any, and the
    generator afterwards.  [array] is what the expression after [of]
    evaluates to at the time of the call; it is read only when the generator
    has not started. *)
Definition resume {A} (g : Generator A) (array : list A)
  : option A * Generator A :=
  match g with
  | Suspended =>
      match array with
      | [] => (None, Completed)
      | x :: rest => (Some x, Yielding rest)
      end
  | Yielding [] => (None, Completed)
  | Yielding (x :: rest) => (Some x, Yielding rest)
  | Completed => (None, Completed)
  end.

(** ** The sorted set *)

Module SortedSet.

(** [Node<T> | null] of [sorted-set/node.ts]. *)
Inductive Node (T : Type) : Type :=
| null
| mkNode (value : T) (left right : Node T) (color : bool) (size : Z).
Arguments null {T}.
Arguments mkNode {T} value left right color size.

(** Truthiness of a [Node<T> | null]. *)
Definition isNode {T} (node : Node T) : bool :=
  match node with
  | null => false
  | mkNode _ _ _ _ _ => true
  end.

(** [node.left] and [node.right].  The source reads them only behind a test
    that the node is not [null]. *)
Definition left {T} (node : Node T) : Node T :=
  match node with
  | null => null
  | mkNode _ l _ _ _ => l
  end.

Definition right {T} (node : Node T) : Node T :=
  match node with
  | null => null
  | mkNode _ _ r _ _ => r
  end.

(** [size(root)] of [node.ts]. *)
Definition size {T} (root : Node T) : Z :=
  match root with
  | null => 0
  | mkNode _ _ _ _ s => s
  end.

(** [isRed(node)] of [node.ts]. *)
Definition isRed {T} (node : Node T) : bool :=
  match node with
  | null => false
  | mkNode _ _ _ c _ => Bool.eqb c RED
  end.

(** *** [sorted-set/BST.ts] *)

(** [has]: the loop descends one link per iteration. *)
Fixpoint has {T} (root : Node T) (compareFn : CompareFn T) (value : T) : bool :=
  match root with
  | null => false
  | mkNode v l r _ _ =>
      let cmp := compareFn value v in
      if cmp <? 0 then has l compareFn value
      else if cmp >? 0 then has r compareFn value
      else true
  end.

(** [min(root)]; its parameter has type [Node<T>]. *)
Fixpoint min {T} (root : Node T) : res (Node T) :=
  match root with
  | null => Throw TypeError
  | mkNode _ l _ _ _ => if isNode l then min l else Ok root
  end.

Fixpoint max {T} (root : Node T) : res (Node T) :=
  match root with
  | null => Throw TypeError
  | mkNode _ _ r _ _ => if isNode r then max r else Ok root
  end.

(** [a ?? b] on nodes. *)
Definition orElse {T} (a b : Node T) : Node T :=
  if isNode a then a else b.

Fixpoint floor {T} (root : Node T) (compareFn : CompareFn T) (value : T)
  : Node T :=
  match root with
  | null => null
  | mkNode v l r _ _ =>
      let cmp := compareFn value v in
      if cmp =? 0 then root
      else if cmp <? 0 then floor l compareFn value
      else orElse (floor r compareFn value) root
  end.

Fixpoint ceiling {T} (root : Node T) (compareFn : CompareFn T) (value : T)
  : Node T :=
  match root with
  | null => null
  | mkNode v l r _ _ =>
      let cmp := compareFn value v in
      if cmp =? 0 then root
      else if cmp >? 0 then ceiling r compareFn value
      else orElse (ceiling l compareFn value) root
  end.

(** [dfs] of [createSnapshot]: the array is threaded through the calls. *)
Fixpoint dfs {T} (node : Node T) (snapshot : list T) : list T :=
  match node with
  | null => snapshot
  | mkNode v l r _ _ => dfs r (dfs l snapshot ++ [v])
  end.

Definition createSnapshot {T} (root : Node T) : list T :=
  if isNode root then dfs root [] else [].

(** *** [sorted-set/redBlackBST.ts] *)

Definition rotateLeft {T} (root : Node T) : res (Node T) :=
  match root with
  | null => Throw TypeError
  | mkNode v l r c s =>
      ok (isNode r && isRed r) ;;;
      match r with
      | null => Throw TypeError
      | mkNode rv rl rr _ _ =>
          (* root.right = newRoot.left; newRoot.left = root;
             newRoot.color = root.color; root.color = RED;
             newRoot.size = root.size;
             root.size = size(root.left) + size(root.right) + 1 *)
          Ok (mkNode rv (mkNode v l rl RED (size l + size rl + 1)) rr c s)
      end
  end.

Definition rotateRight {T} (root : Node T) : res (Node T) :=
  match root with
  | null => Throw TypeError
  | mkNode v l r c s =>
      ok (isNode l && isRed l) ;;;
      match l with
      | null => Throw TypeError
      | mkNode lv ll lr _ _ =>
          Ok (mkNode lv ll (mkNode v lr r RED (size lr + size r + 1)) c s)
      end
  end.

(** [flipColors(node)] returns nothing and changes three colors in place;
    here it returns the node it changed. *)
Definition flipColors {T} (node : Node T) : res (Node T) :=
  match node with
  | null => Throw TypeError
  | mkNode v l r c s =>
      ok (isNode l && isNode r) ;;;
      ok (Bool.eqb (isRed l) (isRed r)) ;;;
      ok (negb (Bool.eqb (isRed node) (isRed l))) ;;;
      match l, r with
      | mkNode lv ll lr lc ls, mkNode rv rl rr rc rs =>
          Ok (mkNode v (mkNode lv ll lr (negb lc) ls)
                (mkNode rv rl rr (negb rc) rs) (negb c) s)
      | _, _ => Throw TypeError
      end
  end.

Definition moveRedLeft {T} (node : Node T) : res (Node T) :=
  ok (isRed node) ;;;
  ok (isNode (left node) && negb (isRed (left node))
      && negb (isRed (left (left node)))) ;;;
  ok (isNode (right node)) ;;;
  node <- flipColors node ;;
  match node with
  | null => Throw TypeError
  | mkNode v l r c s =>
      if isRed (left r) then
        r' <- rotateRight r ;;
        node <- rotateLeft (mkNode v l r' c s) ;;
        flipColors node
      else Ok node
  end.

Definition moveRedRight {T} (node : Node T) : res (Node T) :=
  ok (isRed node) ;;;
  ok (isNode (right node) && negb (isRed (right node))
      && negb (isRed (left (right node)))) ;;;
  ok (isNode (left node)) ;;;
  node <- flipColors node ;;
  if isRed (left (left node)) then
    node <- rotateRight node ;;
    flipColors node
  else Ok node.

Definition balance {T} (root : Node T) : res (Node T) :=
  match root with
  | null => Throw TypeError
  | mkNode _ l r _ _ =>
      root <- (if isRed r && negb (isRed l) then rotateLeft root
               else Ok root) ;;
      root <- (if isNode (left root) && isRed (left root)
                  && isRed (left (left root))
               then rotateRight root else Ok root) ;;
      if isRed (left root) && isRed (right root) then flipColors root
      else Ok root
  end.

Fixpoint insert {T} (root : Node T) (compareFn : CompareFn T) (value : T)
  : res (Node T) :=
  match root with
  | null => Ok (mkNode value null null RED 1)
  | mkNode v l r c s =>
      let cmp := compareFn value v in
      if cmp <? 0 then
        l' <- insert l compareFn value ;; balance (mkNode v l' r c s)
      else if cmp >? 0 then
        r' <- insert r compareFn value ;; balance (mkNode v l r' c s)
      else balance root
  end.

(** Number of nodes; the recursion counter of the deleting functions starts
    above it. *)
Fixpoint count {T} (root : Node T) : nat :=
  match root with
  | null => O
  | mkNode _ l r _ _ => S (count l + count r)
  end.

Fixpoint deleteMin_fuel {T} (fuel : nat) (root : Node T) : res (Node T) :=
  match fuel with
  | O => Throw OutOfFuel
  | S fuel =>
      match root with
      | null => Throw TypeError
      | mkNode _ l _ _ _ =>
          ok (isRed root || isRed l) ;;;
          if negb (isNode l) then Ok null
          else
            root <- (if negb (isRed l) && negb (isRed (left l))
                     then moveRedLeft root else Ok root) ;;
            match root with
            | null => Throw TypeError
            | mkNode v l r c s =>
                l' <- deleteMin_fuel fuel l ;; balance (mkNode v l' r c s)
            end
      end
  end.

Definition deleteMin {T} (root : Node T) : res (Node T) :=
  deleteMin_fuel (S (count root)) root.

Fixpoint deleteMax_fuel {T} (fuel : nat) (root : Node T) : res (Node T) :=
  match fuel with
  | O => Throw OutOfFuel
  | S fuel =>
      match root with
      | null => Throw TypeError
      | mkNode _ l r _ _ =>
          ok (isRed root || isRed r || isRed l) ;;;
          root <- (if isRed l then rotateRight root else Ok root) ;;
          if negb (isNode (right root)) then Ok null
          else
            root <- (if negb (isRed (right root))
                        && negb (isRed (left (right root)))
                     then moveRedRight root else Ok root) ;;
            match root with
            | null => Throw TypeError
            | mkNode v l r c s =>
                r' <- deleteMax_fuel fuel r ;; balance (mkNode v l r' c s)
            end
      end
  end.

Definition deleteMax {T} (root : Node T) : res (Node T) :=
  deleteMax_fuel (S (count root)) root.

Fixpoint remove_fuel {T} (fuel : nat) (root : Node T) (compareFn : CompareFn T)
  (value : T) : res (Node T) :=
  match fuel with
  | O => Throw OutOfFuel
  | S fuel =>
      match root with
      | null => Throw TypeError
      | mkNode v l _ _ _ =>
          if compareFn value v <? 0 then
            ok (isNode l) ;;;
            root <- (if negb (isRed l) && negb (isRed (left l))
                     then moveRedLeft root else Ok root) ;;
            match root with
            | null => Throw TypeError
            | mkNode v l r c s =>
                l' <- remove_fuel fuel l compareFn value ;;
                balance (mkNode v l' r c s)
            end
          else
            root <- (if isRed l then rotateRight root else Ok root) ;;
            match root with
            | null => Throw TypeError
            | mkNode v _ r _ _ =>
                if (compareFn value v =? 0) && negb (isNode r) then Ok null
                else
                  ok (isNode r) ;;;
                  root <- (if negb (isRed r) && negb (isRed (left r))
                           then moveRedRight root else Ok root) ;;
                  match root with
                  | null => Throw TypeError
                  | mkNode v l r c s =>
                      if compareFn value v =? 0 then
                        minNode <- min r ;;
                        match minNode with
                        | null => Throw TypeError
                        | mkNode mv _ _ _ _ =>
                            (* root.value = minNode.value *)
                            r' <- deleteMin r ;;
                            balance (mkNode mv l r' c s)
                        end
                      else
                        r' <- remove_fuel fuel r compareFn value ;;
                        balance (mkNode v l r' c s)
                  end
            end
      end
  end.

Definition remove {T} (root : Node T) (compareFn : CompareFn T) (value : T)
  : res (Node T) :=
  remove_fuel (S (count root)) root compareFn value.

(** *** The class [SortedSet] *)

Record SortedSet (T : Type) : Type := mkSortedSet {
  _root : Node T;
  _compareFn : CompareFn T
}.
Arguments mkSortedSet {T} _root _compareFn.
Arguments _root {T} s.
Arguments _compareFn {T} s.

(** [node.color = c]. *)
Definition setColor {T} (node : Node T) (c : bool) : res (Node T) :=
  match node with
  | null => Throw TypeError
  | mkNode v l r _ s => Ok (mkNode v l r c s)
  end.

(** [node.value]. *)
Definition getValue {T} (node : Node T) : res T :=
  match node with
  | null => Throw TypeError
  | mkNode v _ _ _ _ => Ok v
  end.

Definition new {T} (compareFn : CompareFn T) : SortedSet T :=
  mkSortedSet null compareFn.

Definition setRoot {T} (this : SortedSet T) (root : Node T) : SortedSet T :=
  mkSortedSet root (_compareFn this).

(** A helper's result turned into the outcome of the method that called it
    after it had started to mutate the tree. *)
Definition finish {T A} (this : SortedSet T) (m : res (A * Node T))
  : outcome (SortedSet T) A :=
  match m with
  | Ok (a, root) => Returns a (setRoot this root)
  | Throw e => Aborts e
  end.

Definition sizeOf {T} (this : SortedSet T) : Z := size (_root this).

Definition isEmpty {T} (this : SortedSet T) : bool := negb (isNode (_root this)).

Definition clear {T} (this : SortedSet T) : SortedSet T := setRoot this null.

Definition contains {T} (this : SortedSet T) (value : T) : bool :=
  has (_root this) (_compareFn this) value.

Definition add {T} (this : SortedSet T) (value : T)
  : outcome (SortedSet T) unit :=
  finish this
    (root <- insert (_root this) (_compareFn this) value ;;
     root <- setColor root BLACK ;;
     Ok (tt, root)).

(** The part shared by [delete], [deleteMin] and [deleteMax]: color the root
    red when both its children are black, run the helper, color the new root
    black unless the set has become empty. *)
Definition deleting {T} (root : Node T) (helper : Node T -> res (Node T))
  : res (Node T) :=
  match root with
  | null => Throw TypeError
  | mkNode v l r c s =>
      let root := if negb (isRed l) && negb (isRed r)
                  then mkNode v l r RED s else root in
      root <- helper root ;;
      if isNode root then setColor root BLACK else Ok root
  end.

Definition delete {T} (this : SortedSet T) (value : T)
  : outcome (SortedSet T) bool :=
  if negb (contains this value) then Returns false this
  else
    finish this
      (root <- deleting (_root this)
                 (fun root => remove root (_compareFn this) value) ;;
       Ok (true, root)).

Definition emptyMessage : String.string := "Sorted set is empty"%string.

Definition minOf {T} (this : SortedSet T) : outcome (SortedSet T) T :=
  if isEmpty this then Throws (NoSuchElementError emptyMessage) this
  else
    match node <- min (_root this) ;; getValue node with
    | Ok v => Returns v this
    | Throw e => Throws e this
    end.

Definition maxOf {T} (this : SortedSet T) : outcome (SortedSet T) T :=
  if isEmpty this then Throws (NoSuchElementError emptyMessage) this
  else
    match node <- max (_root this) ;; getValue node with
    | Ok v => Returns v this
    | Throw e => Throws e this
    end.

Definition deleteMinOf {T} (this : SortedSet T) : outcome (SortedSet T) unit :=
  if isEmpty this then Throws (NoSuchElementError emptyMessage) this
  else finish this (root <- deleting (_root this) deleteMin ;; Ok (tt, root)).

Definition deleteMaxOf {T} (this : SortedSet T) : outcome (SortedSet T) unit :=
  if isEmpty this then Throws (NoSuchElementError emptyMessage) this
  else finish this (root <- deleting (_root this) deleteMax ;; Ok (tt, root)).

Definition floorOf {T} (this : SortedSet T) (value : T)
  : outcome (SortedSet T) T :=
  if isEmpty this then Throws (NoSuchElementError emptyMessage) this
  else
    match floor (_root this) (_compareFn this) value with
    | null => Throws (NoSuchElementError "Value is too small"%string) this
    | mkNode v _ _ _ _ => Returns v this
    end.

Definition ceilingOf {T} (this : SortedSet T) (value : T)
  : outcome (SortedSet T) T :=
  if isEmpty this then Throws (NoSuchElementError emptyMessage) this
  else
    match ceiling (_root this) (_compareFn this) value with
    | null => Throws (NoSuchElementError "Value is too small"%string) this
    | mkNode v _ _ _ _ => Returns v this
    end.

(** [*[Symbol.iterator]()]: [generator.next()], called while the set is in
    state [this]. *)
Definition next {T} (g : Generator T) (this : SortedSet T)
  : option T * Generator T :=
  resume g (createSnapshot (_root this)).

(** The values the generator yields when it is run to its end at once, as
    [[...set]] does. *)
Definition iterate {T} (this : SortedSet T) : list T :=
  createSnapshot (_root this).

End SortedSet.


(** ** The sorted map *)

Module SortedMap.

(** [Node<K, V> | null] of [node.ts].  A value of the map is a [V] or
    [undefined] (the type [V] of the source may contain [undefined]); it is an
    [option V] here, with [None] for [undefined]. *)
Inductive Node (K V : Type) : Type :=
| null
| mkNode (key : K) (value : option V) (left right : Node K V) (color : bool)
    (size : Z).
Arguments null {K V}.
Arguments mkNode {K V} key value left right color size.

Definition undefined {V} : option V := None.

Definition isNode {K V} (node : Node K V) : bool :=
  match node with
  | null => false
  | mkNode _ _ _ _ _ _ => true
  end.

Definition left {K V} (node : Node K V) : Node K V :=
  match node with
  | null => null
  | mkNode _ _ l _ _ _ => l
  end.

Definition right {K V} (node : Node K V) : Node K V :=
  match node with
  | null => null
  | mkNode _ _ _ r _ _ => r
  end.

Definition size {K V} (root : Node K V) : Z :=
  match root with
  | null => 0
  | mkNode _ _ _ _ _ s => s
  end.

Definition isRed {K V} (node : Node K V) : bool :=
  match node with
  | null => false
  | mkNode _ _ _ _ c _ => Bool.eqb c RED
  end.

(** *** [sorted-map/BST.ts] *)

Fixpoint has {K V} (root : Node K V) (compareFn : CompareFn K) (key : K)
  : bool :=
  match root with
  | null => false
  | mkNode k _ l r _ _ =>
      let cmp := compareFn key k in
      if cmp <? 0 then has l compareFn key
      else if cmp >? 0 then has r compareFn key
      else true
  end.

(** [get] throws [new NoSuchElementError()], without a message. *)
Fixpoint get {K V} (root : Node K V) (compareFn : CompareFn K) (key : K)
  : res (option V) :=
  match root with
  | null => Throw (NoSuchElementError String.EmptyString)
  | mkNode k v l r _ _ =>
      let cmp := compareFn key k in
      if cmp <? 0 then get l compareFn key
      else if cmp >? 0 then get r compareFn key
      else Ok v
  end.

Fixpoint min {K V} (root : Node K V) : res (Node K V) :=
  match root with
  | null => Throw TypeError
  | mkNode _ _ l _ _ _ => if isNode l then min l else Ok root
  end.

Fixpoint max {K V} (root : Node K V) : res (Node K V) :=
  match root with
  | null => Throw TypeError
  | mkNode _ _ _ r _ _ => if isNode r then max r else Ok root
  end.

Definition orElse {K V} (a b : Node K V) : Node K V :=
  if isNode a then a else b.

Fixpoint floor {K V} (root : Node K V) (compareFn : CompareFn K) (key : K)
  : Node K V :=
  match root with
  | null => null
  | mkNode k _ l r _ _ =>
      let cmp := compareFn key k in
      if cmp =? 0 then root
      else if cmp <? 0 then floor l compareFn key
      else orElse (floor r compareFn key) root
  end.

Fixpoint ceiling {K V} (root : Node K V) (compareFn : CompareFn K) (key : K)
  : Node K V :=
  match root with
  | null => null
  | mkNode k _ l r _ _ =>
      let cmp := compareFn key k in
      if cmp =? 0 then root
      else if cmp >? 0 then ceiling r compareFn key
      else orElse (ceiling l compareFn key) root
  end.

Fixpoint dfs {K V} (node : Node K V) (snapshot : list (K * option V))
  : list (K * option V) :=
  match node with
  | null => snapshot
  | mkNode k v l r _ _ => dfs r (dfs l snapshot ++ [(k, v)])
  end.

Definition createSnapshot {K V} (root : Node K V) : list (K * option V) :=
  if isNode root then dfs root [] else [].

(** *** [sorted-map/redBlackBST.ts]

    This file of the repository is not among the sources; its functions are
    modelled from section 4 of the specification. *)

(** Modelled from the spec: [rotateLeft] of [sorted-map/redBlackBST.ts].
    Precondition [root.right] is RED; promotes [root.right] to local root,
    reattaches [root] as its new left child, transfers color, recomputes
    sizes. *)
Definition rotateLeft {K V} (root : Node K V) : res (Node K V) :=
  match root with
  | null => Throw TypeError
  | mkNode k v l r c s =>
      ok (isNode r && isRed r) ;;;
      match r with
      | null => Throw TypeError
      | mkNode rk rv rl rr _ _ =>
          Ok (mkNode rk rv (mkNode k v l rl RED (size l + size rl + 1)) rr c s)
      end
  end.

(** Modelled from the spec: [rotateRight] of [sorted-map/redBlackBST.ts].
    Precondition [root.left] is RED; mirror of [rotateLeft]. *)
Definition rotateRight {K V} (root : Node K V) : res (Node K V) :=
  match root with
  | null => Throw TypeError
  | mkNode k v l r c s =>
      ok (isNode l && isRed l) ;;;
      match l with
      | null => Throw TypeError
      | mkNode lk lv ll lr _ _ =>
          Ok (mkNode lk lv ll (mkNode k v lr r RED (size lr + size r + 1)) c s)
      end
  end.

(** Modelled from the spec: [flipColors] of [sorted-map/redBlackBST.ts].
    Precondition: the node has both children present with equal color,
    opposite to the node's own color; toggles the color of the node and of
    both children. *)
Definition flipColors {K V} (node : Node K V) : res (Node K V) :=
  match node with
  | null => Throw TypeError
  | mkNode k v l r c s =>
      ok (isNode l && isNode r) ;;;
      ok (Bool.eqb (isRed l) (isRed r)) ;;;
      ok (negb (Bool.eqb (isRed node) (isRed l))) ;;;
      match l, r with
      | mkNode lk lv ll lr lc ls, mkNode rk rv rl rr rc rs =>
          Ok (mkNode k v (mkNode lk lv ll lr (negb lc) ls)
                (mkNode rk rv rl rr (negb rc) rs) (negb c) s)
      | _, _ => Throw TypeError
      end
  end.

(** Modelled from the spec: [moveRedLeft] of [sorted-map/redBlackBST.ts].
    Precondition: the node is RED, [node.left] and [node.left.left] are both
    BLACK.  Flip colors and, if [node.right.left] is red, rotate [node.right]
    right, rotate the node left and flip colors again. *)
Definition moveRedLeft {K V} (node : Node K V) : res (Node K V) :=
  ok (isRed node) ;;;
  ok (isNode (left node) && negb (isRed (left node))
      && negb (isRed (left (left node)))) ;;;
  ok (isNode (right node)) ;;;
  node <- flipColors node ;;
  match node with
  | null => Throw TypeError
  | mkNode k v l r c s =>
      if isRed (left r) then
        r' <- rotateRight r ;;
        node <- rotateLeft (mkNode k v l r' c s) ;;
        flipColors node
      else Ok node
  end.

(** Modelled from the spec: [moveRedRight] of [sorted-map/redBlackBST.ts].
    Precondition: the node is RED, [node.right] and [node.right.left] are
    both BLACK; the symmetric borrow from the left side. *)
Definition moveRedRight {K V} (node : Node K V) : res (Node K V) :=
  ok (isRed node) ;;;
  ok (isNode (right node) && negb (isRed (right node))
      && negb (isRed (left (right node)))) ;;;
  ok (isNode (left node)) ;;;
  node <- flipColors node ;;
  if isRed (left (left node)) then
    node <- rotateRight node ;;
    flipColors node
  else Ok node.

(** [root.size = size(root.left) + size(root.right) + 1]. *)
Definition recomputeSize {K V} (root : Node K V) : res (Node K V) :=
  match root with
  | null => Throw TypeError
  | mkNode k v l r c _ => Ok (mkNode k v l r c (size l + size r + 1))
  end.

(** Modelled from the spec: [balance] of [sorted-map/redBlackBST.ts].
    (a) if [right] is red and [left] is not, rotateLeft; (b) if, after (a),
    [left] and [left.left] are both red, rotateRight; (c) if both children
    are now red, flipColors.  Recomputes size. *)
Definition balance {K V} (root : Node K V) : res (Node K V) :=
  match root with
  | null => Throw TypeError
  | mkNode _ _ l r _ _ =>
      root <- (if isRed r && negb (isRed l) then rotateLeft root
               else Ok root) ;;
      root <- (if isNode (left root) && isRed (left root)
                  && isRed (left (left root))
               then rotateRight root else Ok root) ;;
      root <- (if isRed (left root) && isRed (right root)
               then flipColors root else Ok root) ;;
      recomputeSize root
  end.

(** Modelled from the spec: [insert] of [sorted-map/redBlackBST.ts].  If the
    root is absent, create a new RED leaf of size 1; otherwise compare and
    recurse left or right, or overwrite [value] on equality; apply [balance]
    on the way back up. *)
Fixpoint insert {K V} (root : Node K V) (compareFn : CompareFn K) (key : K)
  (value : option V) : res (Node K V) :=
  match root with
  | null => Ok (mkNode key value null null RED 1)
  | mkNode k v l r c s =>
      let cmp := compareFn key k in
      if cmp <? 0 then
        l' <- insert l compareFn key value ;; balance (mkNode k v l' r c s)
      else if cmp >? 0 then
        r' <- insert r compareFn key value ;; balance (mkNode k v l r' c s)
      else balance (mkNode k value l r c s)
  end.

Fixpoint count {K V} (root : Node K V) : nat :=
  match root with
  | null => O
  | mkNode _ _ l r _ _ => S (count l + count r)
  end.

(** Modelled from the spec: [deleteMin] of [sorted-map/redBlackBST.ts].
    Asserted precondition: the root is RED or [root.left] is RED.  If
    [root.left] is absent, return absent; if [root.left] and
    [root.left.left] are both black, [moveRedLeft] first; recurse into the
    left child, then [balance]. *)
Fixpoint deleteMin_fuel {K V} (fuel : nat) (root : Node K V)
  : res (Node K V) :=
  match fuel with
  | O => Throw OutOfFuel
  | S fuel =>
      match root with
      | null => Throw TypeError
      | mkNode _ _ l _ _ _ =>
          ok (isRed root || isRed l) ;;;
          if negb (isNode l) then Ok null
          else
            root <- (if negb (isRed l) && negb (isRed (left l))
                     then moveRedLeft root else Ok root) ;;
            match root with
            | null => Throw TypeError
            | mkNode k v l r c s =>
                l' <- deleteMin_fuel fuel l ;; balance (mkNode k v l' r c s)
            end
      end
  end.

Definition deleteMin {K V} (root : Node K V) : res (Node K V) :=
  deleteMin_fuel (S (count root)) root.

(** Modelled from the spec: [deleteMax] of [sorted-map/redBlackBST.ts].
    Symmetric to [deleteMin], but rotates right first if [root.left] is red;
    the assertion is the one of the sorted set's [deleteMax]. *)
Fixpoint deleteMax_fuel {K V} (fuel : nat) (root : Node K V)
  : res (Node K V) :=
  match fuel with
  | O => Throw OutOfFuel
  | S fuel =>
      match root with
      | null => Throw TypeError
      | mkNode _ _ l r _ _ =>
          ok (isRed root || isRed r || isRed l) ;;;
          root <- (if isRed l then rotateRight root else Ok root) ;;
          if negb (isNode (right root)) then Ok null
          else
            root <- (if negb (isRed (right root))
                        && negb (isRed (left (right root)))
                     then moveRedRight root else Ok root) ;;
            match root with
            | null => Throw TypeError
            | mkNode k v l r c s =>
                r' <- deleteMax_fuel fuel r ;; balance (mkNode k v l r' c s)
            end
      end
  end.

Definition deleteMax {K V} (root : Node K V) : res (Node K V) :=
  deleteMax_fuel (S (count root)) root.

(** Modelled from the spec: [remove] of [sorted-map/redBlackBST.ts].  If the
    key is less than the root's key, descend left with the
    [moveRedLeft]-before-recursion pattern of [deleteMin].  Otherwise: if
    [root.left] is red, rotateRight first; if the key equals the root's key
    and [root.right] is absent, return absent; otherwise [moveRedRight] if
    [root.right] and [root.right.left] are both black; if the key still
    equals the root's key, replace the root's key and value with those of
    the minimum of [root.right] and [deleteMin] that right subtree, else
    descend right.  Always [balance] on unwind. *)
Fixpoint remove_fuel {K V} (fuel : nat) (root : Node K V)
  (compareFn : CompareFn K) (key : K) : res (Node K V) :=
  match fuel with
  | O => Throw OutOfFuel
  | S fuel =>
      match root with
      | null => Throw TypeError
      | mkNode k _ l _ _ _ =>
          if compareFn key k <? 0 then
            ok (isNode l) ;;;
            root <- (if negb (isRed l) && negb (isRed (left l))
                     then moveRedLeft root else Ok root) ;;
            match root with
            | null => Throw TypeError
            | mkNode k v l r c s =>
                l' <- remove_fuel fuel l compareFn key ;;
                balance (mkNode k v l' r c s)
            end
          else
            root <- (if isRed l then rotateRight root else Ok root) ;;
            match root with
            | null => Throw TypeError
            | mkNode k _ _ r _ _ =>
                if (compareFn key k =? 0) && negb (isNode r) then Ok null
                else
                  ok (isNode r) ;;;
                  root <- (if negb (isRed r) && negb (isRed (left r))
                           then moveRedRight root else Ok root) ;;
                  match root with
                  | null => Throw TypeError
                  | mkNode k v l r c s =>
                      if compareFn key k =? 0 then
                        minNode <- min r ;;
                        match minNode with
                        | null => Throw TypeError
                        | mkNode mk mv _ _ _ _ =>
                            r' <- deleteMin r ;;
                            balance (mkNode mk mv l r' c s)
                        end
                      else
                        r' <- remove_fuel fuel r compareFn key ;;
                        balance (mkNode k v l r' c s)
                  end
            end
      end
  end.

Definition remove {K V} (root : Node K V) (compareFn : CompareFn K) (key : K)
  : res (Node K V) :=
  remove_fuel (S (count root)) root compareFn key.

(** *** The class [SortedMap] ([sorted-map/index.ts]) *)

Record SortedMap (K V : Type) : Type := mkSortedMap {
  _root : Node K V;
  _compareFn : CompareFn K
}.
Arguments mkSortedMap {K V} _root _compareFn.
Arguments _root {K V} s.
Arguments _compareFn {K V} s.

Definition setColor {K V} (node : Node K V) (c : bool) : res (Node K V) :=
  match node with
  | null => Throw TypeError
  | mkNode k v l r _ s => Ok (mkNode k v l r c s)
  end.

Definition getKey {K V} (node : Node K V) : res K :=
  match node with
  | null => Throw TypeError
  | mkNode k _ _ _ _ _ => Ok k
  end.

Definition new {K V} (compareFn : CompareFn K) : SortedMap K V :=
  mkSortedMap null compareFn.

Definition setRoot {K V} (this : SortedMap K V) (root : Node K V)
  : SortedMap K V :=
  mkSortedMap root (_compareFn this).

Definition finish {K V A} (this : SortedMap K V) (m : res (A * Node K V))
  : outcome (SortedMap K V) A :=
  match m with
  | Ok (a, root) => Returns a (setRoot this root)
  | Throw e => Aborts e
  end.

Definition sizeOf {K V} (this : SortedMap K V) : Z := size (_root this).

Definition isEmpty {K V} (this : SortedMap K V) : bool :=
  negb (isNode (_root this)).

Definition clear {K V} (this : SortedMap K V) : SortedMap K V :=
  setRoot this null.

(** [get(key)]: whatever the lookup throws is caught and [undefined] is
    returned. *)
Definition lookup {K V} (this : SortedMap K V) (key : K) : option V :=
  match get (_root this) (_compareFn this) key with
  | Ok v => v
  | Throw _ => undefined
  end.

Definition contains {K V} (this : SortedMap K V) (key : K) : bool :=
  has (_root this) (_compareFn this) key.

Definition set {K V} (this : SortedMap K V) (key : K) (value : option V)
  : outcome (SortedMap K V) unit :=
  finish this
    (root <- insert (_root this) (_compareFn this) key value ;;
     root <- setColor root BLACK ;;
     Ok (tt, root)).

Definition deleting {K V} (root : Node K V)
  (helper : Node K V -> res (Node K V)) : res (Node K V) :=
  match root with
  | null => Throw TypeError
  | mkNode k v l r c s =>
      let root := if negb (isRed l) && negb (isRed r)
                  then mkNode k v l r RED s else root in
      root <- helper root ;;
      if isNode root then setColor root BLACK else Ok root
  end.

Definition delete {K V} (this : SortedMap K V) (key : K)
  : outcome (SortedMap K V) bool :=
  if negb (contains this key) then Returns false this
  else
    finish this
      (root <- deleting (_root this)
                 (fun root => remove root (_compareFn this) key) ;;
       Ok (true, root)).

Definition emptyMessage : String.string := "Sorted map is empty"%string.

Definition minOf {K V} (this : SortedMap K V) : outcome (SortedMap K V) K :=
  if isEmpty this then Throws (NoSuchElementError emptyMessage) this
  else
    match node <- min (_root this) ;; getKey node with
    | Ok k => Returns k this
    | Throw e => Throws e this
    end.

Definition maxOf {K V} (this : SortedMap K V) : outcome (SortedMap K V) K :=
  if isEmpty this then Throws (NoSuchElementError emptyMessage) this
  else
    match node <- max (_root this) ;; getKey node with
    | Ok k => Returns k this
    | Throw e => Throws e this
    end.

Definition deleteMinOf {K V} (this : SortedMap K V)
  : outcome (SortedMap K V) unit :=
  if isEmpty this then Throws (NoSuchElementError emptyMessage) this
  else finish this (root <- deleting (_root this) deleteMin ;; Ok (tt, root)).

Definition deleteMaxOf {K V} (this : SortedMap K V)
  : outcome (SortedMap K V) unit :=
  if isEmpty this then Throws (NoSuchElementError emptyMessage) this
  else finish this (root <- deleting (_root this) deleteMax ;; Ok (tt, root)).

(** Both [floor] and [ceiling] throw with the message 'Key is too small'. *)
Definition floorOf {K V} (this : SortedMap K V) (key : K)
  : outcome (SortedMap K V) K :=
  if isEmpty this then Throws (NoSuchElementError emptyMessage) this
  else
    match floor (_root this) (_compareFn this) key with
    | null => Throws (NoSuchElementError "Key is too small"%string) this
    | mkNode k _ _ _ _ _ => Returns k this
    end.

Definition ceilingOf {K V} (this : SortedMap K V) (key : K)
  : outcome (SortedMap K V) K :=
  if isEmpty this then Throws (NoSuchElementError emptyMessage) this
  else
    match ceiling (_root this) (_compareFn this) key with
    | null => Throws (NoSuchElementError "Key is too small"%string) this
    | mkNode k _ _ _ _ _ => Returns k this
    end.

(** [*[Symbol.iterator]()]: [generator.next()], called while the map is in
    state [this]. *)
Definition next {K V} (g : Generator (K * option V)) (this : SortedMap K V)
  : option (K * option V) * Generator (K * option V) :=
  resume g (createSnapshot (_root this)).

End SortedMap.


(** * Specification vocabulary *)

(** ** The comparator contract *)

(** A comparator is lawful when it is a total preorder read through its sign:
    swapping the arguments flips the sign, and "not greater" is transitive.
    Keys that compare to zero are the same key for the containers. *)
Record lawful {T : Type} (compareFn : CompareFn T) : Prop := mkLawful {
  cmp_flip : forall a b, Z.sgn (compareFn b a) = - Z.sgn (compareFn a b);
  cmp_le_trans : forall a b c,
    compareFn a b <= 0 -> compareFn b c <= 0 -> compareFn a c <= 0
}.

(** The comparator [(a, b) => a - b] of the test suites. *)
Definition numCompare : CompareFn Z := fun a b => a - b.

(** ** Sorted lists, and the list view of insertion and deletion *)

Section Lists.
Context {T : Type} (compareFn : CompareFn T).

Definition lt (a b : T) : Prop := compareFn a b < 0.

Fixpoint sorted (l : list T) : Prop :=
  match l with
  | [] => True
  | a :: l' => Forall (lt a) l' /\ sorted l'
  end.

(** Some element of the list compares equal to [x]. *)
Definition present (x : T) (l : list T) : Prop :=
  Exists (fun y => compareFn x y = 0) l.

(** Insertion of [x] in a sorted list; an element equal to [x] is kept. *)
Fixpoint ins_list (x : T) (l : list T) : list T :=
  match l with
  | [] => [x]
  | a :: l' =>
      if compareFn x a <? 0 then x :: a :: l'
      else if compareFn x a >? 0 then a :: ins_list x l'
      else a :: l'
  end.

(** Removal of the first element that compares equal to [x]. *)
Fixpoint del_list (x : T) (l : list T) : list T :=
  match l with
  | [] => []
  | a :: l' => if compareFn x a =? 0 then l' else a :: del_list x l'
  end.

(** [m] is in the list and no element of the list is smaller. *)
Definition least (m : T) (l : list T) : Prop :=
  In m l /\ forall y, In y l -> compareFn m y <= 0.

(** [m] is in the list and no element of the list is greater. *)
Definition greatest (m : T) (l : list T) : Prop :=
  In m l /\ forall y, In y l -> compareFn y m <= 0.

(** [m] is the greatest element of the list that is not greater than [x]. *)
Definition isFloor (x m : T) (l : list T) : Prop :=
  In m l /\ compareFn m x <= 0 /\
  forall y, In y l -> compareFn y x <= 0 -> compareFn y m <= 0.

(** [m] is the least element of the list that is not less than [x]. *)
Definition isCeiling (x m : T) (l : list T) : Prop :=
  In m l /\ compareFn m x >= 0 /\
  forall y, In y l -> compareFn y x >= 0 -> compareFn m y <= 0.

End Lists.

(** ** Order statistics

    What [min()], [max()], [floor(x)] and [ceiling(x)] answer on a container
    [this] that stores the elements [stored]; [floor] and [ceiling] throw
    [NoSuchElementError] with the message [none] when no stored element
    qualifies. *)
Definition orderStatistics {S A} (compareFn : CompareFn A) (stored : list A)
    (this : S) (minOf maxOf floorOf ceilingOf : outcome S A) (x : A)
    (none : String.string) : Prop :=
  (exists m, minOf = Returns m this /\ least compareFn m stored) /\
  (exists m, maxOf = Returns m this /\ greatest compareFn m stored) /\
  ((exists m, floorOf = Returns m this /\ isFloor compareFn x m stored) \/
   (floorOf = Throws (NoSuchElementError none) this /\
    forall y, In y stored -> compareFn y x > 0)) /\
  ((exists m, ceilingOf = Returns m this /\ isCeiling compareFn x m stored) \/
   (ceilingOf = Throws (NoSuchElementError none) this /\
    forall y, In y stored -> compareFn y x < 0)) /\
  (forall y, In y stored -> compareFn x y = 0 ->
     floorOf = Returns y this /\ ceilingOf = Returns y this).

(** ** Iteration

    What successive calls of [next] yield, the i-th call being made while
    the container is in the i-th state of [states]: the container may have
    been changed in any way between two calls. *)
Fixpoint drain {S A} (next : Generator A -> S -> option A * Generator A)
    (g : Generator A) (states : list S) : list A :=
  match states with
  | [] => []
  | this :: states =>
      match next g this with
      | (Some x, g') => x :: drain next g' states
      | (None, _) => []
      end
  end.

(** ** Invariants of the sorted set's tree *)

Module SetSpec.
Import SortedSet.

Section Defs.
Context {T : Type} (compareFn : CompareFn T).

(** The in-order sequence of the values of a tree. *)
Fixpoint elements (t : Node T) : list T :=
  match t with
  | null => []
  | mkNode v l r _ _ => elements l ++ v :: elements r
  end.

(** Invariant 1: all values in [left] compare less than the node's value,
    all values in [right] compare greater. *)
Fixpoint bstOrder (t : Node T) : Prop :=
  match t with
  | null => True
  | mkNode v l r _ _ =>
      Forall (fun x => compareFn x v < 0) (elements l) /\
      Forall (fun x => compareFn x v > 0) (elements r) /\
      bstOrder l /\ bstOrder r
  end.

(** Invariant 2: a node's right child is never red. *)
Fixpoint noRedRight (t : Node T) : Prop :=
  match t with
  | null => True
  | mkNode _ l r _ _ => isRed r = false /\ noRedRight l /\ noRedRight r
  end.

(** Invariant 3: a red node's left child is never red. *)
Fixpoint noRedRed (t : Node T) : Prop :=
  match t with
  | null => True
  | mkNode _ l r c _ =>
      (c = RED -> isRed l = false) /\ noRedRed l /\ noRedRed r
  end.

(** The number of black nodes on each path from the root to an absent child,
    one entry per absent position, left to right. *)
Fixpoint blackDepths (t : Node T) : list nat :=
  match t with
  | null => [O]
  | mkNode _ l r c _ =>
      map (fun d => if c then d else S d) (blackDepths l ++ blackDepths r)
  end.

(** Invariant 4: every such path has the same number of black nodes. *)
Definition blackBalanced (t : Node T) : Prop :=
  exists n, Forall (fun d => d = n) (blackDepths t).

(** Invariant 5: the root is black, or absent. *)
Definition rootBlack (t : Node T) : Prop := isRed t = false.

(** Invariant 6: the size field of every node counts its subtree. *)
Fixpoint sizesOk (t : Node T) : Prop :=
  match t with
  | null => True
  | mkNode _ l r _ s => s = 1 + size l + size r /\ sizesOk l /\ sizesOk r
  end.

(** Invariants 1 to 5 together. *)
Record wellFormed (t : Node T) : Prop := mkWellFormed {
  wf_bst : bstOrder t;
  wf_noRedRight : noRedRight t;
  wf_noRedRed : noRedRed t;
  wf_balanced : blackBalanced t;
  wf_rootBlack : rootBlack t
}.

(** Invariants 2, 3 and 4 of a subtree in one inductive predicate, indexed
    by the black height. *)
Inductive llrb : Node T -> nat -> Prop :=
| llrb_null : llrb null O
| llrb_red v l r s n :
    isRed l = false -> isRed r = false -> llrb l n -> llrb r n ->
    llrb (mkNode v l r RED s) n
| llrb_black v l r s n :
    isRed r = false -> llrb l n -> llrb r n ->
    llrb (mkNode v l r BLACK s) (S n).

(** What [insert] may return for a red subtree: the root is red and its left
    child may be red too. *)
Inductive almost : Node T -> nat -> Prop :=
| almost_red v l r s n :
    isRed r = false -> llrb l n -> llrb r n -> almost (mkNode v l r RED s) n.

(** What the deleting functions accept: a red subtree, a black one whose
    left child is red, or a black one whose right child is red (the latter
    is built by [moveRedRight] and violates invariant 2 until it is
    rebalanced). *)
Inductive deletable : Node T -> nat -> Prop :=
| deletable_red t n : llrb t n -> isRed t = true -> deletable t n
| deletable_left v l r s n :
    isRed l = true -> llrb (mkNode v l r BLACK s) n ->
    deletable (mkNode v l r BLACK s) n
| deletable_right v l r s n :
    isRed l = false -> isRed r = true -> llrb l n -> llrb r n ->
    deletable (mkNode v l r BLACK s) (S n).

(** When [remove] reaches a black node whose right child is red (built by
    [moveRedRight]), the value it looks for is not less than the node's. *)
Definition goes_right (x : T) (t : Node T) : Prop :=
  match t with
  | null => True
  | mkNode v _ r _ _ => isRed r = true -> (compareFn x v <? 0) = false
  end.

End Defs.

(** ** States of a sorted set and calls on it *)

(** The in-order sequence of the values of the set. *)
Definition values {T} (this : SortedSet T) : list T := elements (_root this).

(** The state between two public calls: invariants 1 to 5 of the tree. *)
Definition valid {T} (this : SortedSet T) : Prop :=
  wellFormed (_compareFn this) (_root this).

(** The public methods of the class; [Iterate] runs the iterator to its
    end. *)
Inductive method (T : Type) : Type :=
| Add (value : T)
| Delete (value : T)
| DeleteMin
| DeleteMax
| Clear
| Has (value : T)
| Size
| IsEmpty
| Min
| Max
| Floor (value : T)
| Ceiling (value : T)
| Iterate.
Arguments Add {T} value.
Arguments Delete {T} value.
Arguments DeleteMin {T}.
Arguments DeleteMax {T}.
Arguments Clear {T}.
Arguments Has {T} value.
Arguments Size {T}.
Arguments IsEmpty {T}.
Arguments Min {T}.
Arguments Max {T}.
Arguments Floor {T} value.
Arguments Ceiling {T} value.
Arguments Iterate {T}.

(** What a call returns. *)
Inductive result (T : Type) : Type :=
| RVoid
| RBool (b : bool)
| RNumber (n : Z)
| RValue (v : T)
| RValues (l : list T).
Arguments RVoid {T}.
Arguments RBool {T} b.
Arguments RNumber {T} n.
Arguments RValue {T} v.
Arguments RValues {T} l.

Definition returning {S A B} (f : A -> B) (o : outcome S A) : outcome S B :=
  match o with
  | Returns a this => Returns (f a) this
  | Throws e this => Throws e this
  | Aborts e => Aborts e
  end.

Definition call {T} (this : SortedSet T) (m : method T)
  : outcome (SortedSet T) (result T) :=
  match m with
  | Add value => returning (fun _ => RVoid) (add this value)
  | Delete value => returning RBool (delete this value)
  | DeleteMin => returning (fun _ => RVoid) (deleteMinOf this)
  | DeleteMax => returning (fun _ => RVoid) (deleteMaxOf this)
  | Clear => Returns RVoid (clear this)
  | Has value => Returns (RBool (contains this value)) this
  | Size => Returns (RNumber (sizeOf this)) this
  | IsEmpty => Returns (RBool (isEmpty this)) this
  | Min => returning RValue (minOf this)
  | Max => returning RValue (maxOf this)
  | Floor value => returning RValue (floorOf this value)
  | Ceiling value => returning RValue (ceilingOf this value)
  | Iterate => Returns (RValues (iterate this)) this
  end.

(** The outcomes of a sequence of calls, each made on the set the previous
    one left.  A call that throws [NoSuchElementError] leaves the set as it
    was and the sequence goes on; the sequence stops when an exception
    escapes a helper in the middle of a mutation. *)
Fixpoint outcomes {T} (this : SortedSet T) (calls : list (method T))
  : list (outcome (SortedSet T) (result T)) :=
  match calls with
  | [] => []
  | m :: calls =>
      let o := call this m in
      o :: match o with
           | Returns _ this' => outcomes this' calls
           | Throws _ this' => outcomes this' calls
           | Aborts _ => []
           end
  end.

(** The set after a sequence of calls; [None] when the sequence stopped. *)
Fixpoint run {T} (this : SortedSet T) (calls : list (method T))
  : option (SortedSet T) :=
  match calls with
  | [] => Some this
  | m :: calls =>
      match call this m with
      | Returns _ this' => run this' calls
      | Throws _ this' => run this' calls
      | Aborts _ => None
      end
  end.

(** A set is reachable when a sequence of public calls builds it from the
    empty set. *)
Definition reachable {T} (compareFn : CompareFn T) (this : SortedSet T) : Prop :=
  exists calls, run (new compareFn) calls = Some this.

(** A call went well when it returned, or threw the [NoSuchElementError] of
    the public contract: no assertion of a helper failed, no property of
    [null] was read. *)
Definition wentWell {T} (o : outcome (SortedSet T) (result T)) : Prop :=
  match o with
  | Returns _ _ => True
  | Throws (NoSuchElementError _) _ => True
  | _ => False
  end.

(** The set after [add(2)] and [add(1)] on a new set of numbers. *)
Definition twoValues : SortedSet Z :=
  mkSortedSet (mkNode 2 (mkNode 1 null null RED 1) null BLACK 1) numCompare.

End SetSpec.


(** ** Invariants of the sorted map's tree *)

Module MapSpec.
Import SortedMap.

Section Defs.
Context {K V : Type} (compareFn : CompareFn K).

(** The in-order sequence of the entries of a tree. *)
Fixpoint entries (t : Node K V) : list (K * option V) :=
  match t with
  | null => []
  | mkNode k v l r _ _ => entries l ++ (k, v) :: entries r
  end.

Definition keys (t : Node K V) : list K := map fst (entries t).

(** Invariant 1 on the keys of a map. *)
Fixpoint bstOrder (t : Node K V) : Prop :=
  match t with
  | null => True
  | mkNode k _ l r _ _ =>
      Forall (fun x => compareFn x k < 0) (keys l) /\
      Forall (fun x => compareFn x k > 0) (keys r) /\
      bstOrder l /\ bstOrder r
  end.

(** Invariant 6. *)
Fixpoint sizesOk (t : Node K V) : Prop :=
  match t with
  | null => True
  | mkNode _ _ l r _ s => s = 1 + size l + size r /\ sizesOk l /\ sizesOk r
  end.

(** Entries are ordered by their keys. *)
Definition entryCompare : CompareFn (K * option V) :=
  fun a b => compareFn (fst a) (fst b).

(** The tree of a map read as a tree of the sorted set whose values are the
    entries; [g] says which set value stands for the entry of a node. *)
Fixpoint embed {E : Type} (g : K -> option V -> E) (t : Node K V)
  : SortedSet.Node E :=
  match t with
  | null => SortedSet.null
  | mkNode k v l r c s => SortedSet.mkNode (g k v) (embed g l) (embed g r) c s
  end.

Definition toSet (t : Node K V) : SortedSet.Node (K * option V) :=
  embed pair t.

(** A map tree and a set tree with the same structure, colors and values;
    the size fields may differ. *)
Inductive sim {E : Type} (g : K -> option V -> E)
  : Node K V -> SortedSet.Node E -> Prop :=
| sim_null : sim g null SortedSet.null
| sim_node k v l r c s l' r' s' :
    sim g l l' -> sim g r r' ->
    sim g (mkNode k v l r c s) (SortedSet.mkNode (g k v) l' r' c s').

Inductive simRes {E : Type} (g : K -> option V -> E)
  : res (Node K V) -> res (SortedSet.Node E) -> Prop :=
| simRes_Ok m s : sim g m s -> simRes g (Ok m) (Ok s)
| simRes_Throw e : simRes g (Throw e) (Throw e).

(** Invariants 1 to 6 of the tree of a map: those of the sorted set on the
    tree of entries, and the size fields. *)
Definition wellFormed (t : Node K V) : Prop :=
  SetSpec.wellFormed entryCompare (toSet t) /\ sizesOk t.


(** *** The list view of a map *)


(** The value bound to [key] in a list of entries, if any. *)
Fixpoint assoc (key : K) (l : list (K * option V)) : option (option V) :=
  match l with
  | [] => None
  | (k, v) :: l' => if compareFn key k =? 0 then Some v else assoc key l'
  end.

End Defs.

(** ** States of a sorted map and calls on it *)

Definition valid {K V} (this : SortedMap K V) : Prop :=
  wellFormed (_compareFn this) (_root this).

(** The calls of the map semantics property. *)
Inductive update (K V : Type) : Type :=
| Set_ (key : K) (value : option V)
| Delete (key : K).
Arguments Set_ {K V} key value.
Arguments Delete {K V} key.

Definition apply {K V} (this : SortedMap K V) (u : update K V)
  : outcome (SortedMap K V) unit :=
  match u with
  | Set_ key value => set this key value
  | Delete key =>
      match delete this key with
      | Returns _ this' => Returns tt this'
      | Throws e this' => Throws e this'
      | Aborts e => Aborts e
      end
  end.

(** The map after a sequence of [set] and [delete] calls; [None] if an
    exception escaped. *)
Fixpoint run {K V} (this : SortedMap K V) (calls : list (update K V))
  : option (SortedMap K V) :=
  match calls with
  | [] => Some this
  | u :: calls =>
      match apply this u with
      | Returns _ this' => run this' calls
      | _ => None
      end
  end.

(** *** What the specification says of such a sequence

    The value of the most recent [set(k, .)] that no later [delete(k)]
    removed, read off the sequence of calls from its end; and the keys set
    and not deleted since, each counted once. *)
Section Reference.
Context {K V : Type} (compareFn : CompareFn K).




End Reference.


(** A map of two entries, as [set(2, 20); set(1, 10)] leaves it. *)
Definition twoEntries : SortedMap Z Z :=
  mkSortedMap
    (mkNode 2 (Some 20) (mkNode 1 (Some 10) null null RED 1) null BLACK 2)
    numCompare.

End MapSpec.


(** ** The sorted set seen as a sorted list *)

Module SetModel.
Import SortedSet SetSpec.

(** What a call of a public method does to the in-order sequence of the
    set: [add] inserts at the place the order gives unless an equal value is
    there, [delete] removes the value that compares equal, [deleteMin] and
    [deleteMax] drop the first and the last value (and change nothing when
    there is none), [clear] drops them all; the other methods only read. *)
Definition replay {T} (compareFn : CompareFn T) (l : list T) (m : method T)
  : list T :=
  match m with
  | Add value => ins_list compareFn value l
  | Delete value => del_list compareFn value l
  | DeleteMin => tl l
  | DeleteMax => removelast l
  | Clear => []
  | _ => l
  end.

(** The number of links on the longest path from the root to an absent
    child: the number of nodes a search may visit. *)
Fixpoint height {T} (t : Node T) : nat :=
  match t with
  | null => O
  | mkNode _ l r _ _ => S (Nat.max (height l) (height r))
  end.

(** The size field of a node is the sum of those of its children, plus
    one. *)
Definition sizeOk {T} (t : Node T) : Prop :=
  size t = size (left t) + size (right t) + 1.

(** What a caller collects who calls [min()] and then [deleteMin()], at most
    [n] times, until one of them throws; and the same with [max()] and
    [deleteMax()]. *)
Fixpoint takeMins {T} (n : nat) (this : SortedSet T) : list T :=
  match n with
  | O => []
  | S n =>
      match minOf this, deleteMinOf this with
      | Returns m _, Returns _ this' => m :: takeMins n this'
      | _, _ => []
      end
  end.

Fixpoint takeMaxs {T} (n : nat) (this : SortedSet T) : list T :=
  match n with
  | O => []
  | S n =>
      match maxOf this, deleteMaxOf this with
      | Returns m _, Returns _ this' => m :: takeMaxs n this'
      | _, _ => []
      end
  end.

End SetModel.


(** * Lemmas on comparators and sorted lists *)

Lemma numCompare_lawful : lawful numCompare.
Proof.
  split; unfold numCompare; intros.
  - replace (b - a) with (- (a - b)) by lia. apply Z.sgn_opp.
  - lia.
Qed.

Section ComparatorFacts.
Context {T : Type} (compareFn : CompareFn T) (Hlaw : lawful compareFn).

Lemma cmp_gt_lt a b : compareFn a b > 0 <-> compareFn b a < 0.
Proof.
  pose proof (cmp_flip _ Hlaw a b).
  destruct (compareFn a b), (compareFn b a); simpl in *; lia.
Qed.

Lemma cmp_eq_sym a b : compareFn a b = 0 -> compareFn b a = 0.
Proof.
  pose proof (cmp_flip _ Hlaw a b).
  destruct (compareFn a b), (compareFn b a); simpl in *; lia.
Qed.

Lemma cmp_refl a : compareFn a a = 0.
Proof.
  pose proof (cmp_flip _ Hlaw a a).
  destruct (compareFn a a); simpl in *; lia.
Qed.

Lemma cmp_le_antisym a b :
  compareFn a b <= 0 -> compareFn b a <= 0 -> compareFn a b = 0.
Proof.
  pose proof (cmp_flip _ Hlaw a b).
  destruct (compareFn a b), (compareFn b a); simpl in *; lia.
Qed.

Lemma cmp_eq_trans a b c :
  compareFn a b = 0 -> compareFn b c = 0 -> compareFn a c = 0.
Proof.
  intros Hab Hbc. pose proof (cmp_eq_sym _ _ Hab). pose proof (cmp_eq_sym _ _ Hbc).
  apply cmp_le_antisym.
  - apply (cmp_le_trans _ Hlaw a b c); lia.
  - apply (cmp_le_trans _ Hlaw c b a); lia.
Qed.

Lemma cmp_le_total a b : compareFn a b <= 0 \/ compareFn b a < 0.
Proof. pose proof (cmp_gt_lt a b). lia. Qed.

Lemma lt_trans a b c : compareFn a b < 0 -> compareFn b c < 0 -> compareFn a c < 0.
Proof.
  intros Hab Hbc.
  destruct (cmp_le_total c a) as [Hca|]; [|assumption].
  assert (compareFn c b <= 0) by (apply (cmp_le_trans _ Hlaw c a b); lia).
  pose proof (cmp_gt_lt c b). lia.
Qed.

Lemma le_lt_trans a b c : compareFn a b <= 0 -> compareFn b c < 0 -> compareFn a c < 0.
Proof.
  intros Hab Hbc.
  destruct (cmp_le_total c a) as [Hca|]; [|assumption].
  assert (compareFn c b <= 0) by (apply (cmp_le_trans _ Hlaw c a b); lia).
  pose proof (cmp_gt_lt c b). lia.
Qed.

Lemma lt_le_trans a b c : compareFn a b < 0 -> compareFn b c <= 0 -> compareFn a c < 0.
Proof.
  intros Hab Hbc.
  destruct (cmp_le_total c a) as [Hca|]; [|assumption].
  assert (compareFn b a <= 0) by (apply (cmp_le_trans _ Hlaw b c a); lia).
  pose proof (cmp_gt_lt b a). lia.
Qed.

(** [x >= a] for the code is "not [compareFn x a < 0]". *)
Lemma ge_lt_trans x a b : ~ compareFn x a < 0 -> compareFn b a < 0 -> compareFn x b > 0.
Proof.
  intros Hxa Hba. apply cmp_gt_lt.
  apply lt_le_trans with a; [assumption|].
  destruct (cmp_le_total a x); [assumption|].
  pose proof (cmp_gt_lt x a). lia.
Qed.

Lemma Forall_lt_trans a b l :
  compareFn a b <= 0 -> Forall (lt compareFn b) l -> Forall (lt compareFn a) l.
Proof.
  intros Hab H. eapply Forall_impl; [|exact H].
  intros c Hc. unfold lt in *. now apply le_lt_trans with b.
Qed.

Lemma sorted_app l1 l2 :
  sorted compareFn (l1 ++ l2) <->
  sorted compareFn l1 /\ sorted compareFn l2 /\
  Forall (fun a => Forall (lt compareFn a) l2) l1.
Proof.
  induction l1 as [|a l1 IH]; simpl.
  - intuition.
  - rewrite Forall_app, IH. split.
    + intros [[H1 H2] (H3 & H4 & H5)]. repeat split; auto.
    + intros [[H1 H2] [H3 H4]]. inversion H4; subst. repeat split; auto.
Qed.

(** The shape of an in-order list at a node: [l1 ++ a :: l2]. *)
Lemma sorted_mid l1 a l2 :
  sorted compareFn (l1 ++ a :: l2) <->
  sorted compareFn l1 /\ sorted compareFn l2 /\
  Forall (fun x => lt compareFn x a) l1 /\ Forall (lt compareFn a) l2.
Proof.
  rewrite sorted_app. simpl. split.
  - intros (H1 & (H2 & H3) & H4). repeat split; auto.
    eapply Forall_impl; [|exact H4]. intros x Hx. now inversion Hx.
  - intros (H1 & H2 & H3 & H4). repeat split; auto.
    eapply Forall_impl; [|exact H3]. intros x Hx. constructor; [exact Hx|].
    apply Forall_lt_trans with a; [unfold lt in Hx; lia|assumption].
Qed.

Lemma present_app x l1 l2 :
  present compareFn x (l1 ++ l2) <-> present compareFn x l1 \/ present compareFn x l2.
Proof. unfold present. apply Exists_app. Qed.

Lemma present_cons x a l :
  present compareFn x (a :: l) <-> compareFn x a = 0 \/ present compareFn x l.
Proof. unfold present. apply Exists_cons. Qed.

Lemma present_nil x : ~ present compareFn x [].
Proof. unfold present. intros H. inversion H. Qed.

Lemma present_nil_iff x : present compareFn x [] <-> False.
Proof. split; [apply present_nil|tauto]. Qed.

Lemma not_present_above x l :
  Forall (lt compareFn x) l -> ~ present compareFn x l.
Proof.
  unfold present, lt. intros H E. rewrite Exists_exists in E.
  destruct E as (y & Hy & E). rewrite Forall_forall in H.
  specialize (H y Hy). lia.
Qed.

Lemma not_present_below x a l :
  Forall (fun y => lt compareFn y a) l -> ~ compareFn x a < 0 ->
  ~ present compareFn x l.
Proof.
  unfold present, lt. intros H Hxa E. rewrite Exists_exists in E.
  destruct E as (y & Hy & E). rewrite Forall_forall in H.
  specialize (H y Hy). pose proof (ge_lt_trans x a y Hxa H). lia.
Qed.

(** *** Insertion *)

Lemma ins_list_above x l :
  Forall (lt compareFn x) l -> ins_list compareFn x l = x :: l.
Proof.
  destruct l as [|a l]; simpl; [reflexivity|].
  intros H. inversion H; subst. unfold lt in *.
  destruct (Z.ltb_spec (compareFn x a) 0); [reflexivity|lia].
Qed.

Lemma ins_list_mid x l1 a l2 :
  sorted compareFn (l1 ++ a :: l2) ->
  ins_list compareFn x (l1 ++ a :: l2) =
  if compareFn x a <? 0 then ins_list compareFn x l1 ++ a :: l2
  else if compareFn x a >? 0 then l1 ++ a :: ins_list compareFn x l2
  else l1 ++ a :: l2.
Proof.
  induction l1 as [|b l1 IH]; intros Hs.
  - simpl. destruct (compareFn x a <? 0); [reflexivity|].
    destruct (compareFn x a >? 0); reflexivity.
  - simpl in Hs. destruct Hs as [Hb Hs]. specialize (IH Hs).
    rewrite Forall_app in Hb. destruct Hb as [_ Hb].
    inversion Hb as [|? ? Hba _]; subst. unfold lt in Hba.
    cbn [app ins_list]. rewrite IH. clear IH.
    destruct (Z.ltb_spec (compareFn x a) 0) as [Hxa|Hxa].
    + destruct (compareFn x b <? 0); [reflexivity|].
      destruct (compareFn x b >? 0); reflexivity.
    + pose proof (ge_lt_trans x a b ltac:(lia) Hba) as Hxb.
      destruct (Z.ltb_spec (compareFn x b) 0); [lia|].
      destruct (Z.gtb_spec (compareFn x b) 0); [|lia].
      destruct (compareFn x a >? 0); reflexivity.
Qed.

Lemma Forall_ins_list (P : T -> Prop) x l :
  P x -> Forall P l -> Forall P (ins_list compareFn x l).
Proof.
  intros Hx. induction l as [|a l IH]; simpl; intros H.
  - constructor; auto.
  - inversion H; subst.
    destruct (compareFn x a <? 0); [constructor; auto|].
    destruct (compareFn x a >? 0); constructor; auto.
Qed.

Lemma sorted_ins_list x l :
  sorted compareFn l -> sorted compareFn (ins_list compareFn x l).
Proof.
  induction l as [|a l IH]; simpl; [auto|].
  intros [Ha Hs].
  destruct (Z.ltb_spec (compareFn x a) 0) as [Hxa|Hxa].
  - simpl. repeat split; auto. constructor; [exact Hxa|].
    apply Forall_lt_trans with a; [lia|assumption].
  - destruct (Z.gtb_spec (compareFn x a) 0) as [Hgt|Hle].
    + simpl. split; auto. apply Forall_ins_list; auto.
      unfold lt. apply cmp_gt_lt. lia.
    + simpl. auto.
Qed.

Lemma present_ins_list x y l :
  present compareFn y (ins_list compareFn x l) <->
  compareFn y x = 0 \/ present compareFn y l.
Proof.
  induction l as [|a l IH]; simpl.
  - rewrite present_cons. reflexivity.
  - destruct (Z.ltb_spec (compareFn x a) 0) as [Hxa|Hxa].
    + rewrite present_cons. reflexivity.
    + destruct (Z.gtb_spec (compareFn x a) 0) as [Hgt|Hle].
      * rewrite !present_cons, IH. tauto.
      * assert (Hz : compareFn x a = 0) by lia.
        rewrite present_cons. split; [tauto|].
        intros [H|H]; [|exact H]. left.
        now apply cmp_eq_trans with x.
Qed.

(** *** Deletion *)

Lemma del_list_absent x l :
  ~ present compareFn x l -> del_list compareFn x l = l.
Proof.
  induction l as [|a l IH]; simpl; [reflexivity|].
  rewrite present_cons. intros H.
  destruct (Z.eqb_spec (compareFn x a) 0); [tauto|].
  f_equal. apply IH. tauto.
Qed.

Lemma del_list_mid x l1 a l2 :
  sorted compareFn (l1 ++ a :: l2) ->
  del_list compareFn x (l1 ++ a :: l2) =
  if compareFn x a <? 0 then del_list compareFn x l1 ++ a :: l2
  else if compareFn x a =? 0 then l1 ++ l2
  else l1 ++ a :: del_list compareFn x l2.
Proof.
  intros Hs. apply sorted_mid in Hs. destruct Hs as (H1 & H2 & H3 & H4).
  induction l1 as [|b l1 IH].
  - simpl. destruct (Z.ltb_spec (compareFn x a) 0) as [Hxa|Hxa].
    + destruct (Z.eqb_spec (compareFn x a) 0); [lia|].
      f_equal. apply del_list_absent. apply not_present_above.
      apply Forall_lt_trans with a; [lia|assumption].
    + reflexivity.
  - simpl in H1. destruct H1 as [Hb H1]. inversion H3; subst.
    specialize (IH H1 H6). cbn [app del_list]. rewrite IH. clear IH.
    destruct (Z.ltb_spec (compareFn x a) 0) as [Hxa|Hxa].
    + destruct (compareFn x b =? 0); reflexivity.
    + pose proof (ge_lt_trans x a b ltac:(lia) H5) as Hxb.
      destruct (Z.eqb_spec (compareFn x b) 0); [lia|].
      destruct (compareFn x a =? 0); reflexivity.
Qed.

Lemma Forall_del_list (P : T -> Prop) x l :
  Forall P l -> Forall P (del_list compareFn x l).
Proof.
  induction l as [|a l IH]; simpl; intros H; [constructor|].
  inversion H; subst. destruct (compareFn x a =? 0); [assumption|].
  constructor; auto.
Qed.

Lemma sorted_del_list x l :
  sorted compareFn l -> sorted compareFn (del_list compareFn x l).
Proof.
  induction l as [|a l IH]; simpl; [auto|].
  intros [Ha Hs]. destruct (compareFn x a =? 0); [assumption|].
  simpl. split; auto using Forall_del_list.
Qed.

Lemma present_compat x y l :
  compareFn x y = 0 -> present compareFn x l -> present compareFn y l.
Proof.
  unfold present. intros Hxy H. rewrite Exists_exists in *.
  destruct H as (z & Hz & E). exists z. split; [assumption|].
  apply cmp_eq_trans with x; [now apply cmp_eq_sym|assumption].
Qed.

Lemma present_del_list x y l :
  sorted compareFn l ->
  present compareFn y (del_list compareFn x l) <->
  compareFn y x <> 0 /\ present compareFn y l.
Proof.
  induction l as [|a l IH]; simpl.
  - intros _. split; [intros H; now apply present_nil in H|].
    intros [_ H]. exact H.
  - intros [Ha Hs]. specialize (IH Hs).
    destruct (Z.eqb_spec (compareFn x a) 0) as [Hxa|Hxa].
    + rewrite present_cons. split.
      * intros H. split; [|tauto]. intros Hyx.
        apply (not_present_above a l Ha).
        apply present_compat with y; [|assumption].
        now apply cmp_eq_trans with x.
      * intros [Hyx [H|H]]; [|exact H]. exfalso. apply Hyx.
        apply cmp_eq_trans with a; [assumption|now apply cmp_eq_sym].
    + rewrite !present_cons, IH. split; [|tauto].
      intros [H|H]; [|tauto]. split; [|tauto]. intros Hyx. apply Hxa.
      apply cmp_eq_trans with y; [now apply cmp_eq_sym|assumption].
Qed.

Lemma sorted_tl l : sorted compareFn l -> sorted compareFn (tl l).
Proof. destruct l; simpl; tauto. Qed.

Lemma sorted_removelast l : sorted compareFn l -> sorted compareFn (removelast l).
Proof.
  induction l as [|a l IH]; [auto|].
  intros [Ha Hs]. destruct l as [|b l]; [simpl; auto|].
  change (removelast (a :: b :: l)) with (a :: removelast (b :: l)).
  split; [|auto].
  clear - Ha. revert Ha. generalize (b :: l) as m.
  induction m as [|c m IH]; intros H; [constructor|].
  inversion H; subst. destruct m; [constructor|].
  change (removelast (c :: t :: m)) with (c :: removelast (t :: m)).
  constructor; auto.
Qed.

End ComparatorFacts.


(** * The sorted set: trees *)

Module SetFacts.
Import SortedSet SetSpec.

Lemma isRed_mkNode {T} (v : T) l r c s : isRed (mkNode v l r c s) = c.
Proof. destruct c; reflexivity. Qed.

Lemma isRed_null {T} : isRed (@null T) = false.
Proof. reflexivity. Qed.

#[global] Arguments isRed : simpl never.

Lemma bind_Ok {A B} (a : A) (k : A -> res B) : bind (Ok a) k = k a.
Proof. reflexivity. Qed.

Create Rewrite HintDb node.
#[global] Hint Rewrite @isRed_mkNode @isRed_null @bind_Ok
  Bool.andb_false_r Bool.andb_true_r Bool.orb_false_r Bool.orb_true_r
  Bool.andb_false_l Bool.andb_true_l Bool.orb_false_l Bool.orb_true_l : node.

(** Normal form of helper calls on partly known trees. *)
Ltac step :=
  unfold RED, BLACK in *;
  repeat (cbn [bind ok isNode left right andb orb negb size Bool.eqb
               rotateLeft rotateRight flipColors setColor] in *;
          autorewrite with node in * ).

Section Shape.
Context {T : Type}.
Implicit Types (t l r : Node T) (n : nat).

Ltac inv H := inversion H; subst; clear H; unfold RED, BLACK in *.

(** Inversion of every shape hypothesis on a node whose constructor is known. *)
Ltac shapes :=
  unfold RED, BLACK in *;
  repeat match goal with
  | H : llrb null _ |- _ => inv H
  | H : llrb (mkNode _ _ _ _ _) _ |- _ => inv H
  | H : almost _ _ |- _ => inv H
  | H : isRed null = true |- _ => discriminate H
  | H : isRed (mkNode _ _ _ _ _) = _ |- _ =>
      rewrite isRed_mkNode in H; try discriminate H; subst
  | H : true = false |- _ => discriminate H
  | H : false = true |- _ => discriminate H
  end.

Lemma llrb_color_cases t n : llrb t n -> isRed t = true \/ isRed t = false.
Proof. destruct (isRed t); auto. Qed.

Lemma llrb_unique t n m : llrb t n -> llrb t m -> n = m.
Proof.
  intros H. revert m. induction H; intros m Hm; inv Hm; auto.
Qed.

(** A black-rooted tree of black height 0 is empty. *)
Lemma llrb_zero_black t : llrb t O -> isRed t = false -> t = null.
Proof. intros H Hc. inv H; [reflexivity|]. shapes. Qed.

Lemma llrb_succ_node t n : llrb t (S n) -> isNode t = true.
Proof. intros H. inv H; reflexivity. Qed.

Ltac colors :=
  repeat match goal with
  | H : isRed ?x = _ |- context [isRed ?x] => rewrite H
  end.

(** Case analysis on a subtree whose color the code reads. *)
Ltac split_color :=
  match goal with
  | |- context [isRed ?x] => is_var x; destruct x as [|? ? ? [] ?]
  | |- context [isNode ?x] => is_var x; destruct x as [|? ? ? ? ?]
  | |- context [match ?x with null => _ | mkNode _ _ _ _ _ => _ end] =>
      is_var x; destruct x as [|? ? ? ? ?]
  end.

Ltac run_code := repeat first [progress shapes | progress step | progress colors].

Ltac shape_goal :=
  repeat match goal with
  | |- exists _, Ok _ = Ok _ /\ _ => eexists; split; [reflexivity|]
  | |- _ /\ _ => split
  | |- llrb _ _ => constructor
  | |- almost _ _ => constructor
  | |- isRed _ = _ => rewrite ?isRed_mkNode, ?isRed_null; try reflexivity; try assumption
  | |- _ -> _ => intro
  end; try eassumption; try discriminate; try reflexivity.

Lemma balance_llrb v l r c s n :
  llrb (mkNode v l r c s) n -> balance (mkNode v l r c s) = Ok (mkNode v l r c s).
Proof.
  intros H. unfold balance. run_code; repeat (split_color; run_code); reflexivity.
Qed.

Lemma balance_almost t n : almost t n -> balance t = Ok t.
Proof.
  intros H. inv H.
  unfold balance. run_code. repeat (split_color; run_code); reflexivity.
Qed.

(** Black root, both children well shaped, of any color. *)
Lemma balance_black v l r s n :
  llrb l n -> llrb r n ->
  exists t', balance (mkNode v l r BLACK s) = Ok t' /\ llrb t' (S n) /\
    (isRed l = false -> isRed t' = false).
Proof.
  intros Hl Hr. unfold balance. run_code.
  repeat (split_color; run_code); shape_goal.
Qed.

(** Black root, left child returned by an insertion below a red node. *)
Lemma balance_black_almost v l r s n :
  almost l n -> llrb r n -> isRed r = false ->
  exists t', balance (mkNode v l r BLACK s) = Ok t' /\ llrb t' (S n).
Proof.
  intros Hl Hr Hc. unfold balance. run_code.
  repeat (split_color; run_code); shape_goal.
Qed.

(** Red root whose right child was replaced. *)
Lemma balance_red_right v l r s n :
  llrb l n -> isRed l = false -> llrb r n ->
  exists t', balance (mkNode v l r RED s) = Ok t' /\ almost t' n.
Proof.
  intros Hl Hc Hr. unfold balance. run_code.
  repeat (split_color; run_code); shape_goal.
Qed.

Lemma llrb_red_almost t n : llrb t n -> isRed t = true -> almost t n.
Proof. intros H Hc. inv H; shapes. now constructor. Qed.

(** *** In-order sequences *)

Ltac norm_app := repeat (rewrite <- !app_assoc || rewrite <- !app_comm_cons).

Ltac same_elements :=
  let E := fresh in
  intros E; first [discriminate E | inversion E; subst; clear E];
  cbn [elements]; norm_app; reflexivity.

Lemma rotateLeft_elements t t' : rotateLeft t = Ok t' -> elements t' = elements t.
Proof.
  unfold rotateLeft. run_code. repeat (split_color; run_code); same_elements.
Qed.

Lemma rotateRight_elements t t' : rotateRight t = Ok t' -> elements t' = elements t.
Proof.
  unfold rotateRight. run_code. repeat (split_color; run_code); same_elements.
Qed.

Lemma flipColors_elements t t' : flipColors t = Ok t' -> elements t' = elements t.
Proof.
  unfold flipColors. run_code. repeat (split_color; run_code); same_elements.
Qed.

Lemma bind_inv {A B} (m : res A) (k : A -> res B) b :
  bind m k = Ok b -> exists a, m = Ok a /\ k a = Ok b.
Proof. destruct m; simpl; [eauto|discriminate]. Qed.

Lemma if_Ok_inv {A} (c : bool) (m : res A) (a b : A) :
  (if c then m else Ok a) = Ok b -> (c = true /\ m = Ok b) \/ (c = false /\ a = b).
Proof. destruct c; intros H; [left; auto|right; inversion H; auto]. Qed.

Lemma balance_elements t t' : balance t = Ok t' -> elements t' = elements t.
Proof.
  destruct t as [|v l r c s]; [discriminate|]. unfold balance.
  intros H.
  apply bind_inv in H. destruct H as (t1 & H1 & H).
  apply bind_inv in H. destruct H as (t2 & H2 & H3).
  assert (E1 : elements t1 = elements (mkNode v l r c s)).
  { destruct (isRed r && negb (isRed l)); [now apply rotateLeft_elements|].
    now inversion H1. }
  assert (E2 : elements t2 = elements t1).
  { destruct (isNode (left t1) && isRed (left t1) && isRed (left (left t1)));
      [now apply rotateRight_elements|]. now inversion H2. }
  rewrite <- E1, <- E2.
  destruct (isRed (left t2) && isRed (right t2)); [now apply flipColors_elements|].
  now inversion H3.
Qed.

Lemma moveRedLeft_elements t t' : moveRedLeft t = Ok t' -> elements t' = elements t.
Proof.
  unfold moveRedLeft. intros H.
  do 3 (apply bind_inv in H; destruct H as (? & _ & H)).
  apply bind_inv in H. destruct H as (t1 & H1 & H).
  apply flipColors_elements in H1. rewrite <- H1.
  destruct t1 as [|v l r c s]; [discriminate|].
  destruct (isRed (left r)); [|now inversion H].
  apply bind_inv in H. destruct H as (r' & H2 & H).
  apply bind_inv in H. destruct H as (t2 & H3 & H).
  apply rotateRight_elements in H2. apply rotateLeft_elements in H3.
  apply flipColors_elements in H. rewrite H, H3. cbn [elements]. now rewrite H2.
Qed.

Lemma moveRedRight_elements t t' : moveRedRight t = Ok t' -> elements t' = elements t.
Proof.
  unfold moveRedRight. intros H.
  do 3 (apply bind_inv in H; destruct H as (? & _ & H)).
  apply bind_inv in H. destruct H as (t1 & H1 & H).
  apply flipColors_elements in H1. rewrite <- H1.
  destruct (isRed (left (left t1))); [|now inversion H].
  apply bind_inv in H. destruct H as (t2 & H2 & H).
  apply rotateRight_elements in H2. apply flipColors_elements in H.
  now rewrite H, H2.
Qed.

Lemma count_elements t : count t = length (elements t).
Proof.
  induction t as [|v l IHl r IHr c s]; [reflexivity|].
  cbn [count elements]. rewrite length_app. cbn [length]. lia.
Qed.

Lemma dfs_elements t acc : dfs t acc = acc ++ elements t.
Proof.
  revert acc. induction t as [|v l IHl r IHr c s]; intros acc; cbn [dfs elements].
  - now rewrite app_nil_r.
  - rewrite IHr, IHl. rewrite <- !app_assoc. reflexivity.
Qed.

Lemma createSnapshot_elements t : createSnapshot t = elements t.
Proof.
  unfold createSnapshot. destruct t; [reflexivity|]. cbn [isNode].
  now rewrite dfs_elements.
Qed.

(** *** Insertion *)

Section Insert.
Context (compareFn : CompareFn T) (Hlaw : lawful compareFn).

Lemma insert_shape x t n :
  llrb t n ->
  exists t', insert t compareFn x = Ok t' /\
    (if isRed t then almost t' n else llrb t' n) /\ isNode t' = true.
Proof.
  intros H. induction H as [|v l r s n Hl Hr H1 IH1 H2 IH2|v l r s n Hr H1 IH1 H2 IH2].
  - cbn. rewrite isRed_null. eexists. split; [reflexivity|]. split; [|reflexivity].
    constructor; auto using isRed_null; constructor.
  - cbn [insert]. rewrite isRed_mkNode. unfold RED in *.
    destruct (compareFn x v <? 0); [|destruct (compareFn x v >? 0)].
    + destruct IH1 as (l' & E & Hs & _). rewrite E, Hl in *. step.
      assert (Ha : almost (mkNode v l' r true s) n) by (constructor; assumption).
      rewrite (balance_almost _ _ Ha). eauto.
    + destruct IH2 as (r' & E & Hs & _). rewrite E, Hr in *. step.
      destruct (balance_red_right v l r' s n) as (t' & Eb & Ht'); auto.
      unfold RED in *. rewrite Eb. exists t'. split; [reflexivity|].
      split; [assumption|]. now inv Ht'.
    + assert (Ha : llrb (mkNode v l r true s) n) by (constructor; assumption).
      rewrite (balance_llrb _ _ _ _ _ _ Ha). eexists. split; [reflexivity|].
      split; [|reflexivity]. now constructor.
  - cbn [insert]. rewrite isRed_mkNode. unfold BLACK in *.
    destruct (compareFn x v <? 0); [|destruct (compareFn x v >? 0)].
    + destruct IH1 as (l' & E & Hs & _). rewrite E. step.
      destruct (isRed l) eqn:Hl.
      * destruct (balance_black_almost v l' r s n) as (t' & Eb & Ht'); auto.
        unfold BLACK in *. rewrite Eb. exists t'. split; [reflexivity|].
        split; [assumption|]. now inv Ht'.
      * destruct (balance_black v l' r s n) as (t' & Eb & Ht' & _); auto.
        unfold BLACK in *. rewrite Eb. exists t'. split; [reflexivity|].
        split; [assumption|]. now inv Ht'.
    + destruct IH2 as (r' & E & Hs & _). rewrite E, Hr in *. step.
      destruct (balance_black v l r' s n) as (t' & Eb & Ht' & _); auto.
      unfold BLACK in *. rewrite Eb. exists t'. split; [reflexivity|].
      split; [assumption|]. now inv Ht'.
    + assert (Ha : llrb (mkNode v l r false s) (S n)) by (constructor; assumption).
      rewrite (balance_llrb _ _ _ _ _ _ Ha). eexists. split; [reflexivity|].
      split; [assumption|reflexivity].
Qed.

Lemma insert_elements x t t' :
  sorted compareFn (elements t) -> insert t compareFn x = Ok t' ->
  elements t' = ins_list compareFn x (elements t).
Proof.
  revert t'. induction t as [|v l IHl r IHr c s]; intros t' Hs H.
  - inversion H; subst. reflexivity.
  - cbn [insert elements] in *. rewrite (ins_list_mid _ Hlaw) by assumption.
    apply (sorted_mid _ Hlaw) in Hs. destruct Hs as (Hsl & Hsr & _ & _).
    destruct (compareFn x v <? 0); [|destruct (compareFn x v >? 0)].
    + apply bind_inv in H. destruct H as (l' & E & H).
      apply balance_elements in H. rewrite H. cbn [elements].
      now rewrite (IHl l').
    + apply bind_inv in H. destruct H as (r' & E & H).
      apply balance_elements in H. rewrite H. cbn [elements].
      now rewrite (IHr r').
    + apply balance_elements in H. now rewrite H.
Qed.

(** [has] agrees with the in-order sequence of a search tree. *)
Lemma has_present x t :
  sorted compareFn (elements t) ->
  has t compareFn x = true <-> present compareFn x (elements t).
Proof.
  induction t as [|v l IHl r IHr c s]; intros Hs.
  - cbn. split; [discriminate|]. intros H. now apply present_nil in H.
  - cbn [has elements] in *. apply (sorted_mid _ Hlaw) in Hs.
    destruct Hs as (Hsl & Hsr & Hl & Hr).
    rewrite present_app, present_cons.
    destruct (Z.ltb_spec (compareFn x v) 0) as [Hlt|Hge].
    + rewrite (IHl Hsl). split; [tauto|]. intros [H|[H|H]]; [assumption|lia|].
      exfalso. apply (not_present_above compareFn x (elements r)); [|assumption].
      apply (Forall_lt_trans _ Hlaw) with v; [lia|assumption].
    + destruct (Z.gtb_spec (compareFn x v) 0) as [Hgt|Hle].
      * rewrite (IHr Hsr). split; [tauto|]. intros [H|[H|H]]; [|lia|assumption].
        exfalso.
        apply (not_present_below _ Hlaw x v (elements l)); [assumption|lia|assumption].
      * split; [intros _; right; left; lia|reflexivity].
Qed.

End Insert.

(** *** Deleting the minimum *)

Lemma tl_mid (A : list T) x R S : tl (A ++ x :: R) ++ S = tl (A ++ x :: R ++ S).
Proof. destruct A; cbn; [reflexivity|]. now rewrite <- app_assoc. Qed.

Ltac norm_tl :=
  cbn [elements app];
  repeat (rewrite tl_mid || rewrite <- app_assoc || rewrite <- app_comm_cons);
  cbn [app].

Ltac count_lt := cbn [count] in *; lia.

(** [balance] on a tree that is already well shaped returns it. *)
Ltac balanced_same :=
  match goal with
  | |- context [balance (mkNode ?v ?l ?r ?c ?s)] =>
      let Hb := fresh "Hb" in
      eassert (Hb : llrb (mkNode v l r c s) _);
      [solve [shape_goal]
      |rewrite (balance_llrb _ _ _ _ _ _ Hb);
       eexists; split; [reflexivity|split; [exact Hb|]]]
  end.

(** [balance] on a black node whose children are well shaped. *)
Ltac balanced_black :=
  match goal with
  | |- context [balance (mkNode ?v ?l ?r false ?s)] =>
      let H1 := fresh "H1" in
      let H2 := fresh "H2" in
      let t' := fresh "t'" in
      let Eb := fresh "Eb" in
      let Ht' := fresh "Ht'" in
      let Hct' := fresh "Hct'" in
      let Hel := fresh "Hel" in
      eassert (H1 : llrb l _) by shape_goal;
      eassert (H2 : llrb r _) by shape_goal;
      destruct (balance_black v l r s _ H1 H2) as (t' & Eb & Ht' & Hct');
      unfold RED, BLACK in *; rewrite ?isRed_mkNode in *;
      rewrite Eb; pose proof (balance_elements _ _ Eb) as Hel;
      exists t'; split; [reflexivity|split; [exact Ht'|]]
  end.

Ltac rebalance := once (first [balanced_same | balanced_black]).

(** The last two parts of the specification of a deleting function: the
    color of the result, and its in-order sequence. *)
Ltac close_delete :=
  split;
  [intros; first [easy | solve [auto]]
  |repeat (cbn [elements];
           match goal with H : elements _ = _ |- _ => rewrite H end);
   norm_tl; reflexivity].

(** The induction hypothesis at the subtree [x] the code recurses into. *)
Ltac recurse IH fuel x :=
  let Hx := fresh "Hx" in
  let Hcnt := fresh "Hcnt" in
  let Hrec := fresh "Hrec" in
  eassert (Hx : llrb x _) by shape_goal;
  assert (Hcnt : (count x < fuel)%nat) by count_lt;
  pose proof (IH x _ Hcnt Hx) as Hrec; clear Hcnt;
  match type of Hrec with
  | ?P -> _ =>
      let Hp := fresh "Hp" in
      assert (Hp : P);
      [|specialize (Hrec Hp); clear Hp;
        destruct Hrec as (?l' & ?E & ?Hl' & ?Hc' & ?He'); revert l' E Hl' Hc' He']
  end.

Lemma deleteMin_fuel_spec fuel : forall t n,
  (count t < fuel)%nat -> llrb t n ->
  isRed t = true \/ isRed (left t) = true ->
  exists t', deleteMin_fuel fuel t = Ok t' /\ llrb t' n /\
    (isRed t = false -> isRed t' = false) /\
    elements t' = tl (elements t).
Proof.
  induction fuel as [|fuel IH]; intros t n Hfuel Ht Hpre; [lia|].
  destruct t as [|v l r c s]; [destruct Hpre; discriminate|].
  cbn [deleteMin_fuel]. cbn [left] in Hpre.
  destruct l as [|lv la lb [] ls].
  - (* the root is the minimum *)
    destruct Hpre; shapes. run_code.
    match goal with H : llrb r O |- _ => apply llrb_zero_black in H; [subst r|assumption] end.
    exists null. repeat split; constructor.
  - (* red left child *)
    destruct c; [shapes|]. run_code.
    recurse IH fuel (mkNode lv la lb true ls);
      [left; reflexivity|intros l' E Hl' _ He].
    rewrite E. step. rebalance. close_delete.
  - (* black left child *)
    destruct c; [|destruct Hpre; shapes]. run_code.
    destruct (isRed la) eqn:Hla; run_code.
    + recurse IH fuel (mkNode lv la lb false ls);
        [right; exact Hla|intros l' E Hl' Hc' He].
      rewrite E. step. specialize (Hc' eq_refl). rebalance. close_delete.
    + unfold moveRedLeft. run_code. repeat (split_color; run_code).
      all: match goal with
           | |- context [deleteMin_fuel ?f ?x] =>
               recurse IH f x;
               [first [left; reflexivity|right; reflexivity]
               |intros l' E Hl' Hc' He; rewrite E; step]
           end.
      all: try specialize (Hc' eq_refl).
      all: rebalance; close_delete.
Qed.

Lemma deleteMin_spec t n :
  llrb t n -> isRed t = true \/ isRed (left t) = true ->
  exists t', deleteMin t = Ok t' /\ llrb t' n /\
    (isRed t = false -> isRed t' = false) /\
    elements t' = tl (elements t).
Proof. intros. apply deleteMin_fuel_spec; auto. Qed.


(** *** Deleting the maximum *)

Lemma removelast_mid (L : list T) v A x B :
  L ++ v :: removelast (A ++ x :: B) = removelast (L ++ v :: A ++ x :: B).
Proof.
  symmetry. rewrite (removelast_app L) by discriminate. f_equal.
  cbn [removelast]. destruct (A ++ x :: B) eqn:E; [|reflexivity].
  now destruct A.
Qed.

Ltac norm_last :=
  cbn [elements];
  repeat (rewrite <- app_assoc || rewrite <- app_comm_cons
          || rewrite removelast_mid).

Ltac deletable_goal :=
  first [solve [apply deletable_red; shape_goal]
        |solve [apply deletable_left; shape_goal]
        |solve [apply deletable_right; shape_goal]].

Ltac recurse_deletable IH fuel x :=
  let Hx := fresh "Hx" in
  let Hcnt := fresh "Hcnt" in
  eassert (Hx : deletable x _) by deletable_goal;
  assert (Hcnt : (count x < fuel)%nat) by count_lt;
  destruct (IH x _ Hcnt Hx) as (?r' & ?E & ?Hr' & ?Hc' & ?He');
  clear Hcnt.

Ltac close_delete_last :=
  split;
  [intros; first [easy | solve [auto]]
  |repeat (cbn [elements];
           match goal with H : elements _ = _ |- _ => rewrite H end);
   norm_last; reflexivity].

Lemma deleteMax_fuel_spec fuel : forall t n,
  (count t < fuel)%nat -> deletable t n ->
  exists t', deleteMax_fuel fuel t = Ok t' /\ llrb t' n /\
    (isRed t = false -> isRed t' = false) /\
    elements t' = removelast (elements t).
Proof.
  induction fuel as [|fuel IH]; intros t n Hfuel Ht; [lia|].
  destruct Ht as [t n Ht Hc|v l r s n Hc Ht|v l r s n Hl Hr Ht1 Ht2].
  - (* red root *)
    destruct t as [|v l r c s]; [discriminate|]. cbn [deleteMax_fuel].
    run_code. destruct r as [|rv ra rb rc rs]; run_code.
    + match goal with H : llrb l O |- _ => apply llrb_zero_black in H; [subst l|assumption] end.
      exists null. repeat split; constructor.
    + destruct (isRed ra) eqn:Hra; run_code.
      * recurse_deletable IH fuel (mkNode rv ra rb false rs).
        rewrite E. step. specialize (Hc' eq_refl). rebalance. close_delete_last.
      * unfold moveRedRight. run_code. repeat (split_color; run_code).
        all: match goal with
             | |- context [deleteMax_fuel ?f ?x] => recurse_deletable IH f x
             end.
        all: rewrite E; step; try specialize (Hc' eq_refl).
        all: rebalance; close_delete_last.
  - (* black root, red left child *)
    cbn [deleteMax_fuel]. destruct l as [|lv la lb lc ls]; [discriminate|].
    run_code.
    recurse_deletable IH fuel (mkNode v lb r true (size lb + size r + 1)).
    rewrite E. step. rebalance. close_delete_last.
  - (* black root, red right child *)
    cbn [deleteMax_fuel]. destruct r as [|rv ra rb rc rs]; [discriminate|].
    run_code.
    recurse_deletable IH fuel (mkNode rv ra rb true rs).
    rewrite E. step. rebalance. close_delete_last.
Qed.

Lemma deletable_root t n :
  llrb t n -> isRed t = true \/ isRed (left t) = true -> deletable t n.
Proof.
  intros Ht [H|H]; [now apply deletable_red|].
  destruct t as [|v l r [] s]; [discriminate| |].
  - cbn [left] in H. shapes. rewrite H in *. discriminate.
  - now apply deletable_left.
Qed.

Lemma deleteMax_spec t n :
  deletable t n ->
  exists t', deleteMax t = Ok t' /\ llrb t' n /\
    (isRed t = false -> isRed t' = false) /\
    elements t' = removelast (elements t).
Proof. intros. apply deleteMax_fuel_spec; auto. Qed.

(** *** Deleting a value *)

Lemma min_spec v l r c s :
  exists mv ml mr mc ms,
    min (mkNode v l r c s) = Ok (mkNode mv ml mr mc ms) /\
    elements (mkNode v l r c s) = mv :: tl (elements (mkNode v l r c s)).
Proof.
  revert v r c s. induction l as [|lv la IH lb _ lc ls]; intros v r c s.
  - cbn. now exists v, null, r, c, s.
  - destruct (IH lv lb lc ls) as (mv & ml & mr & mc & ms & E & Hel).
    exists mv, ml, mr, mc, ms. split; [exact E|].
    change (elements (mkNode v (mkNode lv la lb lc ls) r c s))
      with (elements (mkNode lv la lb lc ls) ++ v :: elements r).
    rewrite Hel. reflexivity.
Qed.

Section Remove.
Context (compareFn : CompareFn T) (Hlaw : lawful compareFn).

Lemma del_list_app_left x (L R : list T) :
  present compareFn x L ->
  del_list compareFn x (L ++ R) = del_list compareFn x L ++ R.
Proof.
  induction L as [|a L IH]; intros H; [now apply present_nil in H|].
  cbn [app del_list]. destruct (Z.eqb_spec (compareFn x a) 0); [reflexivity|].
  apply present_cons in H. destruct H as [H|H]; [contradiction|].
  now rewrite IH.
Qed.

Lemma del_list_app_right x (L R : list T) :
  ~ present compareFn x L ->
  del_list compareFn x (L ++ R) = L ++ del_list compareFn x R.
Proof.
  induction L as [|a L IH]; intros H; [reflexivity|].
  rewrite present_cons in H.
  cbn [app del_list]. destruct (Z.eqb_spec (compareFn x a) 0); [tauto|].
  rewrite IH by tauto. reflexivity.
Qed.

Ltac sorted_facts H :=
  cbn [elements] in H;
  repeat (rewrite (sorted_mid _ Hlaw) in H || rewrite Forall_app in H
          || rewrite Forall_cons_iff in H).

Ltac sorted_goal :=
  cbn [elements];
  repeat (rewrite (sorted_mid _ Hlaw) || rewrite Forall_app
          || rewrite Forall_cons_iff);
  tauto.

Ltac present_goal :=
  cbn [elements] in *;
  repeat (rewrite present_app in * || rewrite present_cons in *
          || rewrite present_nil_iff in * );
  tauto.

Lemma del_list_here x (L : list T) v R mv :
  ~ present compareFn x L -> compareFn x v = 0 -> R = mv :: tl R ->
  L ++ mv :: tl R = del_list compareFn x (L ++ v :: R).
Proof.
  intros NP E HR. rewrite del_list_app_right by assumption.
  cbn [del_list]. rewrite (proj2 (Z.eqb_eq _ _) E). now rewrite <- HR.
Qed.

Lemma del_list_after x (A : list T) a R :
  ~ present compareFn x (A ++ [a]) ->
  A ++ a :: del_list compareFn x R = del_list compareFn x (A ++ a :: R).
Proof.
  intros NP. replace (A ++ a :: R) with ((A ++ [a]) ++ R)
    by (now rewrite <- app_assoc).
  rewrite del_list_app_right by assumption. now rewrite <- app_assoc.
Qed.

Ltac goes_right_goal :=
  cbn [goes_right]; intros;
  first [congruence | apply Z.ltb_ge; lia | shapes; congruence].

Ltac recurse_remove IH fuel x a Hs :=
  let Hx := fresh "Hx" in
  let Hcnt := fresh "Hcnt" in
  let Hsx := fresh "Hsx" in
  let Hpx := fresh "Hpx" in
  let Hgx := fresh "Hgx" in
  eassert (Hx : deletable a _) by deletable_goal;
  assert (Hcnt : (count a < fuel)%nat) by count_lt;
  assert (Hsx : sorted compareFn (elements a))
    by (clear - Hs Hlaw; sorted_facts Hs; sorted_goal);
  assert (Hpx : present compareFn x (elements a)) by present_goal;
  assert (Hgx : goes_right compareFn x a) by goes_right_goal;
  destruct (IH a _ Hcnt Hx Hsx Hpx Hgx) as (?r' & ?E & ?Hr' & ?Hc' & ?He');
  clear Hcnt.

Ltac close_remove_left :=
  split;
  [intros; first [easy | solve [auto]]
  |repeat (cbn [elements];
           match goal with H : elements _ = _ |- _ => rewrite H end);
   rewrite <- del_list_app_left by assumption;
   f_equal; cbn [elements]; norm_app; reflexivity].

Ltac close_remove_right :=
  split;
  [intros; first [easy | solve [auto]]
  |repeat (cbn [elements];
           match goal with H : elements _ = _ |- _ => rewrite H end);
   rewrite del_list_after by present_goal;
   f_equal; cbn [elements]; norm_app; reflexivity].

(** The value to remove is at the root: its successor takes its place. *)
Ltac remove_here :=
  match goal with
  | |- context [min (mkNode ?rv ?ra ?rb ?rc ?rs)] =>
      let Em := fresh "Em" in
      let Hmin := fresh "Hmin" in
      let Hr := fresh "Hr" in
      let Ed := fresh "Ed" in
      let Hr'' := fresh "Hr''" in
      let Hc'' := fresh "Hc''" in
      let Hel'' := fresh "Hel''" in
      destruct (min_spec rv ra rb rc rs) as (?mv & ?ml & ?mr & ?mc & ?ms & Em & Hmin);
      rewrite Em; step;
      eassert (Hr : llrb (mkNode rv ra rb rc rs) _) by shape_goal;
      destruct (deleteMin_spec _ _ Hr
                  ltac:(first [left; reflexivity | right; assumption]))
        as (?r'' & Ed & Hr'' & Hc'' & Hel'');
      rewrite Ed; step; try specialize (Hc'' eq_refl)
  end.

Ltac close_remove_here :=
  split;
  [intros; first [easy | solve [auto]]
  |repeat (cbn [elements];
           match goal with H : elements ?t = _ |- _ => is_var t; rewrite H end);
   cbn [elements] in *; apply del_list_here; [present_goal|assumption|assumption]].

Ltac decide_eq :=
  match goal with
  | |- context [compareFn ?x ?a =? 0] =>
      destruct (Z.eqb_spec (compareFn x a) 0);
      [try solve [exfalso; present_goal]|]
  end.

Ltac remove_tail IH Hs :=
  first
    [remove_here; rebalance; close_remove_here
    |match goal with
     | |- context [remove_fuel ?f ?a _ ?y] => recurse_remove IH f y a Hs
     end;
     match goal with E : remove_fuel _ _ _ _ = Ok _ |- _ => rewrite E end;
     step;
     try match goal with Hc' : ?a = ?a -> _ |- _ => specialize (Hc' eq_refl) end;
     rebalance; close_remove_right].

Lemma remove_fuel_spec x fuel : forall t n,
  (count t < fuel)%nat -> deletable t n ->
  sorted compareFn (elements t) -> present compareFn x (elements t) ->
  goes_right compareFn x t ->
  exists t', remove_fuel fuel t compareFn x = Ok t' /\ llrb t' n /\
    (isRed t = false -> isRed t' = false) /\
    elements t' = del_list compareFn x (elements t).
Proof.
  induction fuel as [|fuel IH]; intros t n Hfuel Ht Hs Hp Hg; [lia|].
  destruct t as [|v l r c s]; [now apply present_nil in Hp|].
  cbn [remove_fuel].
  destruct (Z.ltb_spec (compareFn x v) 0) as [Hlt|Hge].
  - (* descend to the left *)
    assert (PL : present compareFn x (elements l)).
    { cbn [elements] in Hp, Hs. apply present_app in Hp.
      destruct Hp as [Hp|Hp]; [exact Hp|]. exfalso.
      apply (sorted_mid _ Hlaw) in Hs. destruct Hs as (_ & _ & _ & Hs).
      apply (not_present_above compareFn x (v :: elements r)); [|exact Hp].
      constructor; [exact Hlt|].
      apply (Forall_lt_trans _ Hlaw) with v; [lia|exact Hs]. }
    destruct l as [|lv la lb lc ls]; [now apply present_nil in PL|].
    assert (Ht' : llrb (mkNode v (mkNode lv la lb lc ls) r c s) n /\
                  (c = true \/ lc = true)).
    { inversion Ht; subst; unfold RED, BLACK in *.
      - rewrite isRed_mkNode in *. auto.
      - rewrite isRed_mkNode in *. auto.
      - cbn [goes_right] in Hg. specialize (Hg ltac:(assumption)).
        apply Z.ltb_ge in Hg. lia. }
    clear Ht Hg. destruct Ht' as [Ht Hc].
    destruct lc.
    + (* red left child *)
      destruct c; [shapes|]. run_code.
      recurse_remove IH fuel x (mkNode lv la lb true ls) Hs.
      rewrite E. step. rebalance. close_remove_left.
    + destruct c; [|destruct Hc; discriminate]. run_code.
      destruct (isRed la) eqn:Hla; run_code.
      * recurse_remove IH fuel x (mkNode lv la lb false ls) Hs.
        rewrite E. step. specialize (Hc' eq_refl). rebalance. close_remove_left.
      * unfold moveRedLeft. run_code. repeat (split_color; run_code).
        all: match goal with
             | |- context [remove_fuel ?f ?a _ ?y] => recurse_remove IH f y a Hs
             end.
        all: rewrite E; step; try specialize (Hc' eq_refl).
        all: rebalance; close_remove_left.
  - (* the value is at the root or to its right *)
    assert (NP : ~ present compareFn x (elements l)).
    { cbn [elements] in Hs. apply (sorted_mid _ Hlaw) in Hs.
      destruct Hs as (_ & _ & Hs & _).
      apply (not_present_below _ Hlaw x v); [exact Hs|lia]. }
    assert (PR : present compareFn x (v :: elements r)).
    { cbn [elements] in Hp. apply present_app in Hp. tauto. }
    clear Hg. inversion Ht as [t0 n0 Ht0 Hc|v' l' r' s' n0 Hc Ht0|v' l' r' s' n0 Hl Hr Ht1 Ht2];
      subst; clear Ht; unfold RED, BLACK in *.
    + (* red root *)
      rewrite isRed_mkNode in Hc. subst c. run_code.
      destruct r as [|rv ra rb rc rs]; run_code.
      * match goal with H : llrb l O |- _ => apply llrb_zero_black in H; [subst l|assumption] end.
        apply present_cons in PR. destruct PR as [PR|PR]; [|now apply present_nil in PR].
        rewrite (proj2 (Z.eqb_eq _ _) PR). step.
        exists null. split; [reflexivity|]. split; [constructor|].
        split; [discriminate|]. cbn. now rewrite (proj2 (Z.eqb_eq _ _) PR).
      * destruct (isRed ra) eqn:Hra; run_code.
        -- decide_eq; remove_tail IH Hs.
        -- unfold moveRedRight. run_code. repeat (split_color; run_code).
           all: decide_eq. all: remove_tail IH Hs.
    + (* black root, red left child *)
      destruct l as [|lv la lb lc ls]; [discriminate|].
      rewrite isRed_mkNode in Hc. subst lc. run_code.
      decide_eq. remove_tail IH Hs.
    + (* black root, red right child *)
      destruct r as [|rv ra rb rc rs]; [discriminate|].
      rewrite isRed_mkNode in Hr. subst rc. run_code.
      decide_eq; remove_tail IH Hs.
Qed.

Lemma remove_spec x t n :
  deletable t n ->
  sorted compareFn (elements t) -> present compareFn x (elements t) ->
  goes_right compareFn x t ->
  exists t', remove t compareFn x = Ok t' /\ llrb t' n /\
    (isRed t = false -> isRed t' = false) /\
    elements t' = del_list compareFn x (elements t).
Proof. intros. apply remove_fuel_spec; auto. Qed.

(** *** [remove] of a value that is not in the subtree *)

Ltac recurse_absent IH fuel x a Hs :=
  let Hx := fresh "Hx" in
  let Hcnt := fresh "Hcnt" in
  let Hsx := fresh "Hsx" in
  let Hpx := fresh "Hpx" in
  let Hgx := fresh "Hgx" in
  eassert (Hx : deletable a _) by deletable_goal;
  assert (Hcnt : (count a < fuel)%nat) by count_lt;
  assert (Hsx : sorted compareFn (elements a))
    by (clear - Hs Hlaw; sorted_facts Hs; sorted_goal);
  assert (Hpx : ~ present compareFn x (elements a)) by present_goal;
  assert (Hgx : goes_right compareFn x a) by goes_right_goal;
  rewrite (IH a _ Hcnt Hx Hsx Hpx Hgx); reflexivity.

Ltac absent_eq :=
  match goal with
  | |- context [compareFn ?x ?a =? 0] =>
      destruct (Z.eqb_spec (compareFn x a) 0); [exfalso; present_goal|]
  end.

Ltac absent_tail IH Hs :=
  step;
  match goal with
  | |- context [remove_fuel ?f ?a _ ?y] => recurse_absent IH f y a Hs
  end.

(** The descent ends at an absent child, where the assertion on that child
    fails. *)
Lemma remove_fuel_absent x fuel : forall t n,
  (count t < fuel)%nat -> deletable t n ->
  sorted compareFn (elements t) -> ~ present compareFn x (elements t) ->
  goes_right compareFn x t ->
  remove_fuel fuel t compareFn x = Throw AssertionError.
Proof.
  induction fuel as [|fuel IH]; intros t n Hfuel Ht Hs Hp Hg; [lia|].
  destruct t as [|v l r c s]; [inversion Ht; subst; shapes|].
  cbn [remove_fuel].
  destruct (Z.ltb_spec (compareFn x v) 0) as [Hlt|Hge].
  - destruct l as [|lv la lb lc ls]; [reflexivity|].
    assert (Ht' : llrb (mkNode v (mkNode lv la lb lc ls) r c s) n /\
                  (c = true \/ lc = true)).
    { inversion Ht; subst; unfold RED, BLACK in *.
      - rewrite isRed_mkNode in *. auto.
      - rewrite isRed_mkNode in *. auto.
      - cbn [goes_right] in Hg. specialize (Hg ltac:(assumption)).
        apply Z.ltb_ge in Hg. lia. }
    clear Ht Hg. destruct Ht' as [Ht Hc].
    destruct lc.
    + destruct c; [shapes|]. run_code.
      recurse_absent IH fuel x (mkNode lv la lb true ls) Hs.
    + destruct c; [|destruct Hc; discriminate]. run_code.
      destruct (isRed la) eqn:Hla; run_code.
      * recurse_absent IH fuel x (mkNode lv la lb false ls) Hs.
      * unfold moveRedLeft. run_code. repeat (split_color; run_code).
        all: match goal with
             | |- context [remove_fuel ?f ?a _ ?y] => recurse_absent IH f y a Hs
             end.
  - clear Hg. inversion Ht as [t0 n0 Ht0 Hc|v' l' r' s' n0 Hc Ht0|v' l' r' s' n0 Hl Hr Ht1 Ht2];
      subst; clear Ht; unfold RED, BLACK in *.
    + rewrite isRed_mkNode in Hc. subst c. run_code.
      destruct r as [|rv ra rb rc rs]; run_code.
      * absent_eq. reflexivity.
      * destruct (isRed ra) eqn:Hra; run_code.
        -- absent_eq. absent_tail IH Hs.
        -- unfold moveRedRight. run_code. repeat (split_color; run_code).
           all: absent_eq. all: absent_tail IH Hs.
    + destruct l as [|lv la lb lc ls]; [discriminate|].
      rewrite isRed_mkNode in Hc. subst lc. run_code.
      absent_eq. absent_tail IH Hs.
    + destruct r as [|rv ra rb rc rs]; [discriminate|].
      rewrite isRed_mkNode in Hr. subst rc. run_code.
      absent_eq. absent_tail IH Hs.
Qed.

Lemma remove_absent x t n :
  deletable t n ->
  sorted compareFn (elements t) -> ~ present compareFn x (elements t) ->
  goes_right compareFn x t ->
  remove t compareFn x = Throw AssertionError.
Proof. intros. eapply remove_fuel_absent; eauto. Qed.

End Remove.

End Shape.
End SetFacts.


(** * The sorted set: the class *)

Module SetClass.
Import SortedSet SetSpec SetFacts.

Section Invariants.
Context {T : Type} (compareFn : CompareFn T) (Hlaw : lawful compareFn).
Implicit Types (t l r : Node T).

Lemma bstOrder_sorted t : bstOrder compareFn t <-> sorted compareFn (elements t).
Proof.
  induction t as [|v l IHl r IHr c s]; cbn [bstOrder elements].
  - cbn. tauto.
  - rewrite (sorted_mid _ Hlaw), IHl, IHr.
    assert (E : Forall (fun x => compareFn x v > 0) (elements r) <->
                Forall (lt compareFn v) (elements r)).
    { split; apply Forall_impl; intros a Ha; unfold lt in *;
        apply (cmp_gt_lt _ Hlaw); assumption || lia. }
    rewrite E. unfold lt. tauto.
Qed.

Lemma blackDepths_nonempty t : blackDepths t <> [].
Proof.
  induction t as [|v l IHl r IHr c s]; cbn; [discriminate|].
  destruct (blackDepths l); [contradiction|]. discriminate.
Qed.

Lemma llrb_invariants t n :
  llrb t n ->
  noRedRight t /\ noRedRed t /\ Forall (fun d => d = n) (blackDepths t).
Proof.
  induction 1 as [|v l r s n Hl Hr H1 IH1 H2 IH2|v l r s n Hr H1 IH1 H2 IH2];
    cbn [noRedRight noRedRed blackDepths].
  - repeat split. repeat constructor.
  - destruct IH1 as (? & ? & ?), IH2 as (? & ? & ?). repeat split; auto.
    unfold RED. rewrite map_id. apply Forall_app. auto.
  - destruct IH1 as (? & ? & F1), IH2 as (? & ? & F2). repeat split; auto.
    + discriminate.
    + unfold BLACK. apply Forall_map. apply Forall_app.
      split; [revert F1|revert F2]; apply Forall_impl; intros; subst; reflexivity.
Qed.

Lemma invariants_llrb t n :
  noRedRight t -> noRedRed t -> Forall (fun d => d = n) (blackDepths t) ->
  llrb t n.
Proof.
  revert n. induction t as [|v l IHl r IHr c s]; intros n;
    cbn [noRedRight noRedRed blackDepths].
  - intros _ _ H. inversion H; subst. constructor.
  - intros (Hr & Hrl & Hrr) (Hc & Hnl & Hnr) H. destruct c.
    + rewrite map_id in H. apply Forall_app in H. destruct H.
      apply llrb_red; auto.
    + apply Forall_map in H. apply Forall_app in H. destruct H as [F1 F2].
      destruct n as [|n].
      * exfalso. pose proof (blackDepths_nonempty l) as Hne.
        destruct (blackDepths l); [contradiction|]. inversion F1; discriminate.
      * apply llrb_black; auto.
        -- apply IHl; auto. revert F1. apply Forall_impl. intros; lia.
        -- apply IHr; auto. revert F2. apply Forall_impl. intros; lia.
Qed.

(** The invariants 1 to 5, in the form the proofs use. *)
Lemma wellFormed_iff t :
  wellFormed compareFn t <->
  sorted compareFn (elements t) /\ (exists n, llrb t n) /\ isRed t = false.
Proof.
  split.
  - intros [H1 H2 H3 [n H4] H5]. split; [now apply bstOrder_sorted|].
    split; [|exact H5]. exists n. now apply invariants_llrb.
  - intros (H1 & [n H2] & H3). apply llrb_invariants in H2.
    destruct H2 as (? & ? & ?). split; auto.
    + now apply bstOrder_sorted.
    + now exists n.
Qed.

Lemma setColor_black t n :
  llrb t n -> isNode t = true ->
  exists t' m, setColor t BLACK = Ok t' /\ llrb t' m /\ isRed t' = false /\
    elements t' = elements t.
Proof.
  intros H Hn. destruct H as [|v l r s n Hl Hr H1 H2|v l r s n Hr H1 H2];
    [discriminate| |]; cbn [setColor].
  - exists (mkNode v l r BLACK s), (S n). repeat split. now constructor.
  - exists (mkNode v l r BLACK s), (S n). repeat split. now constructor.
Qed.

Lemma deletable_llrb t n :
  deletable t n -> isRed (right t) = false ->
  llrb t n /\ (isRed t = true \/ isRed (left t) = true).
Proof.
  intros H Hr. destruct H as [t n H Hc|v l r s n Hc H|v l r s n Hl Hc H1 H2].
  - auto.
  - cbn [left]. auto.
  - cbn [right] in Hr. congruence.
Qed.

(** The part shared by the three deleting methods. *)
Lemma deleting_spec (helper : Node T -> res (Node T)) (f : list T -> list T)
    root n :
  (forall t m, deletable t m -> isRed (right t) = false ->
     elements t = elements root ->
     exists t', helper t = Ok t' /\ llrb t' m /\ elements t' = f (elements root)) ->
  llrb root n -> isRed root = false -> isNode root = true ->
  exists t', deleting root helper = Ok t' /\ (exists m, llrb t' m) /\
    isRed t' = false /\ elements t' = f (elements root).
Proof.
  intros Hh Hroot Hc Hn. destruct root as [|v l r c s]; [discriminate|].
  rewrite isRed_mkNode in Hc. subst c. inversion Hroot; subst.
  unfold deleting.
  match goal with H : isRed r = false |- _ => rewrite H end. cbn [negb].
  rewrite Bool.andb_true_r.
  match goal with
  | |- context [helper ?t] =>
      assert (Hd : exists m, deletable t m /\ isRed (right t) = false /\
                             elements t = elements (mkNode v l r false s))
  end.
  { destruct (isRed l) eqn:Hl; cbn [negb].
    - exists (S n0). split; [|split; [assumption|reflexivity]].
      now apply deletable_left.
    - exists n0. split; [|split; [assumption|reflexivity]].
      apply deletable_red; [|reflexivity]. now apply llrb_red. }
  destruct Hd as (m & Hd & Hr & He).
  destruct (Hh _ _ Hd Hr He) as (t' & E & Ht' & Hel). rewrite E. cbn [bind].
  destruct t' as [|v' l' r' c' s'].
  - exists null. cbn. repeat split; [eexists; constructor|assumption].
  - destruct (setColor_black _ _ Ht' eq_refl) as (t'' & m' & E' & Ht'' & Hc'' & He'').
    cbn [isNode]. rewrite E'. exists t''. repeat split; eauto. congruence.
Qed.

End Invariants.

(** ** The methods on a valid set *)

Section Methods.
Context {T : Type}.
Implicit Types (this : SortedSet T).

Ltac simpl_state :=
  unfold values in *; cbn [setRoot _root _compareFn] in *.

Lemma valid_iff this :
  lawful (_compareFn this) ->
  valid this <->
  sorted (_compareFn this) (values this) /\ (exists n, llrb (_root this) n) /\
  isRed (_root this) = false.
Proof. intros Hlaw. now apply wellFormed_iff. Qed.

Lemma new_valid (compareFn : CompareFn T) : valid (new compareFn).
Proof.
  split; cbn; auto.
  - exists O. repeat constructor.
  - reflexivity.
Qed.

Lemma clear_valid this : valid (clear this).
Proof. apply new_valid. Qed.

Lemma add_spec this v :
  lawful (_compareFn this) -> valid this ->
  exists this', add this v = Returns tt this' /\ valid this' /\
    _compareFn this' = _compareFn this /\
    values this' = ins_list (_compareFn this) v (values this).
Proof.
  intros Hlaw Hv. apply (valid_iff _ Hlaw) in Hv.
  destruct Hv as (Hs & [n Hn] & Hc). destruct this as [root cmp].
  unfold add, finish. simpl_state.
  destruct (insert_shape cmp v root n Hn) as (t' & E & Ht' & Hnode).
  rewrite Hc in Ht'. rewrite E. cbn [bind].
  destruct (setColor_black _ _ Ht' Hnode) as (t'' & m & E' & Ht'' & Hc'' & He'').
  rewrite E'. cbn [bind].
  exists (setRoot (mkSortedSet root cmp) t''). split; [reflexivity|].
  assert (Hel : elements t'' = ins_list cmp v (elements root)).
  { rewrite He''. now apply insert_elements. }
  split; [|split; [reflexivity|exact Hel]].
  apply valid_iff; [exact Hlaw|]. simpl_state. rewrite Hel. split; [now apply sorted_ins_list|]. eauto.
Qed.

Lemma delete_spec this v :
  lawful (_compareFn this) -> valid this ->
  (contains this v = false /\ delete this v = Returns false this) \/
  (contains this v = true /\
   exists this', delete this v = Returns true this' /\ valid this' /\
     _compareFn this' = _compareFn this /\
     values this' = del_list (_compareFn this) v (values this)).
Proof.
  intros Hlaw Hv. apply (valid_iff _ Hlaw) in Hv.
  destruct Hv as (Hs & [n Hn] & Hc). destruct this as [root cmp].
  unfold delete, contains, finish in *. simpl_state.
  destruct (has root cmp v) eqn:Hhas; [right|left; auto].
  split; [reflexivity|]. cbn [negb].
  assert (Hp : present cmp v (elements root)) by now apply has_present.
  assert (Hnode : isNode root = true).
  { destruct root; [|reflexivity]. now apply present_nil in Hp. }
  destruct (deleting_spec (fun root => remove root cmp v) (del_list cmp v) root n)
    as (t' & E & [m Ht'] & Hc' & Hel); auto.
  { intros t k Hd Hr He. 
    destruct (remove_spec cmp Hlaw v t k Hd) as (t' & E & Ht' & _ & Hel).
    - now rewrite He.
    - now rewrite He.
    - destruct t; cbn; [auto|]. cbn [right] in Hr. congruence.
    - exists t'. rewrite <- He. auto. }
  rewrite E. cbn [bind].
  exists (setRoot (mkSortedSet root cmp) t'). split; [reflexivity|].
  split; [|split; [reflexivity|exact Hel]].
  apply valid_iff; [exact Hlaw|]. simpl_state. rewrite Hel. split; [now apply sorted_del_list|]. eauto.
Qed.

Lemma deleteMinOf_spec this :
  lawful (_compareFn this) -> valid this ->
  (isEmpty this = true /\
   deleteMinOf this = Throws (NoSuchElementError emptyMessage) this) \/
  (isEmpty this = false /\
   exists this', deleteMinOf this = Returns tt this' /\ valid this' /\
     _compareFn this' = _compareFn this /\ values this' = tl (values this)).
Proof.
  intros Hlaw Hv. apply (valid_iff _ Hlaw) in Hv.
  destruct Hv as (Hs & [n Hn] & Hc). destruct this as [root cmp].
  unfold deleteMinOf, isEmpty, finish in *. simpl_state.
  destruct (isNode root) eqn:Hnode; cbn [negb]; [right|left; auto].
  split; [reflexivity|].
  destruct (deleting_spec deleteMin (@tl T) root n)
    as (t' & E & [m Ht'] & Hc' & Hel); auto.
  { intros t k Hd Hr He. destruct (deletable_llrb _ _ Hd Hr) as [Hk Hpre].
    destruct (deleteMin_spec t k Hk Hpre) as (t' & E & Ht' & _ & Hel).
    exists t'. rewrite <- He. auto. }
  rewrite E. cbn [bind].
  exists (setRoot (mkSortedSet root cmp) t'). split; [reflexivity|].
  split; [|split; [reflexivity|exact Hel]].
  apply valid_iff; [exact Hlaw|]. simpl_state. rewrite Hel. split; [now apply sorted_tl|]. eauto.
Qed.

Lemma deleteMaxOf_spec this :
  lawful (_compareFn this) -> valid this ->
  (isEmpty this = true /\
   deleteMaxOf this = Throws (NoSuchElementError emptyMessage) this) \/
  (isEmpty this = false /\
   exists this', deleteMaxOf this = Returns tt this' /\ valid this' /\
     _compareFn this' = _compareFn this /\
     values this' = removelast (values this)).
Proof.
  intros Hlaw Hv. apply (valid_iff _ Hlaw) in Hv.
  destruct Hv as (Hs & [n Hn] & Hc). destruct this as [root cmp].
  unfold deleteMaxOf, isEmpty, finish in *. simpl_state.
  destruct (isNode root) eqn:Hnode; cbn [negb]; [right|left; auto].
  split; [reflexivity|].
  destruct (deleting_spec deleteMax (@removelast T) root n)
    as (t' & E & [m Ht'] & Hc' & Hel); auto.
  { intros t k Hd Hr He.
    destruct (deleteMax_spec t k Hd) as (t' & E & Ht' & _ & Hel).
    exists t'. rewrite <- He. auto. }
  rewrite E. cbn [bind].
  exists (setRoot (mkSortedSet root cmp) t'). split; [reflexivity|].
  split; [|split; [reflexivity|exact Hel]].
  apply valid_iff; [exact Hlaw|]. simpl_state. rewrite Hel. split; [now apply sorted_removelast|]. eauto.
Qed.

Lemma min_node (t : Node T) :
  isNode t = true -> exists mv ml mr mc ms, min t = Ok (mkNode mv ml mr mc ms).
Proof.
  destruct t as [|v l r c s]; [discriminate|]. intros _.
  destruct (min_spec v l r c s) as (mv & ml & mr & mc & ms & E & _). eauto 6.
Qed.

Lemma max_node (t : Node T) :
  isNode t = true -> exists mv ml mr mc ms, max t = Ok (mkNode mv ml mr mc ms).
Proof.
  induction t as [|v l _ r IH c s]; [discriminate|]. intros _.
  cbn [max]. destruct r as [|rv rl rr rc rs]; cbn [isNode]; [eauto 6|].
  now apply IH.
Qed.

(** Every public method, called on a valid set, returns or throws
    [NoSuchElementError], and leaves a valid set with the same comparator. *)
Lemma call_valid this m :
  lawful (_compareFn this) -> valid this ->
  wentWell (call this m) /\
  forall r this', (call this m = Returns r this' \/
                   exists e, call this m = Throws e this') ->
    valid this' /\ _compareFn this' = _compareFn this.
Proof.
  intros Hlaw Hv. destruct m; cbn [call].
  - destruct (add_spec this value Hlaw Hv) as (this1 & E & Hv1 & Hc1 & _).
    rewrite E. cbn. split; [exact I|].
    intros r this' [H|[e H]]; inversion H; subst; auto.
  - destruct (delete_spec this value Hlaw Hv) as [[_ E]|[_ (this1 & E & Hv1 & Hc1 & _)]];
      rewrite E; cbn; (split; [exact I|]);
      intros r this' [H|[e H]]; inversion H; subst; auto.
  - destruct (deleteMinOf_spec this Hlaw Hv) as [[_ E]|[_ (this1 & E & Hv1 & Hc1 & _)]];
      rewrite E; cbn; (split; [exact I|]);
      intros r this' [H|[e H]]; inversion H; subst; auto.
  - destruct (deleteMaxOf_spec this Hlaw Hv) as [[_ E]|[_ (this1 & E & Hv1 & Hc1 & _)]];
      rewrite E; cbn; (split; [exact I|]);
      intros r this' [H|[e H]]; inversion H; subst; auto.
  - cbn. split; [exact I|].
    intros r this' [H|[e H]]; inversion H; subst. split; [apply clear_valid|reflexivity].
  - cbn. split; [exact I|]. intros r this' [H|[e H]]; inversion H; subst; auto.
  - cbn. split; [exact I|]. intros r this' [H|[e H]]; inversion H; subst; auto.
  - cbn. split; [exact I|]. intros r this' [H|[e H]]; inversion H; subst; auto.
  - unfold minOf, isEmpty. destruct (isNode (_root this)) eqn:Hn; cbn [negb].
    + destruct (min_node _ Hn) as (mv & ml & mr & mc & ms & E). rewrite E. cbn.
      split; [exact I|]. intros r this' [H|[e H]]; inversion H; subst; auto.
    + cbn. split; [exact I|]. intros r this' [H|[e H]]; inversion H; subst; auto.
  - unfold maxOf, isEmpty. destruct (isNode (_root this)) eqn:Hn; cbn [negb].
    + destruct (max_node _ Hn) as (mv & ml & mr & mc & ms & E). rewrite E. cbn.
      split; [exact I|]. intros r this' [H|[e H]]; inversion H; subst; auto.
    + cbn. split; [exact I|]. intros r this' [H|[e H]]; inversion H; subst; auto.
  - unfold floorOf. destruct (isEmpty this); cbn.
    + split; [exact I|]. intros r this' [H|[e H]]; inversion H; subst; auto.
    + destruct (floor (_root this) (_compareFn this) value); cbn;
        (split; [exact I|]); intros r this' [H|[e H]]; inversion H; subst; auto.
  - unfold ceilingOf. destruct (isEmpty this); cbn.
    + split; [exact I|]. intros r this' [H|[e H]]; inversion H; subst; auto.
    + destruct (ceiling (_root this) (_compareFn this) value); cbn;
        (split; [exact I|]); intros r this' [H|[e H]]; inversion H; subst; auto.
  - cbn. split; [exact I|]. intros r this' [H|[e H]]; inversion H; subst; auto.
Qed.

Lemma outcomes_wentWell this calls :
  lawful (_compareFn this) -> valid this ->
  Forall wentWell (outcomes this calls).
Proof.
  revert this. induction calls as [|m calls IH]; intros this Hlaw Hv; [constructor|].
  cbn [outcomes]. destruct (call_valid this m Hlaw Hv) as [Hw Hnext].
  constructor; [exact Hw|].
  destruct (call this m) as [r this'|e this'|e]; [| |constructor].
  - destruct (Hnext r this') as [Hv' Hc']; [now left|].
    apply IH; [now rewrite Hc'|exact Hv'].
  - destruct (Hnext RVoid this') as [Hv' Hc']; [right; eauto|].
    apply IH; [now rewrite Hc'|exact Hv'].
Qed.

Lemma run_valid this calls :
  lawful (_compareFn this) -> valid this ->
  exists this', run this calls = Some this' /\ valid this' /\
    _compareFn this' = _compareFn this.
Proof.
  revert this. induction calls as [|m calls IH]; intros this Hlaw Hv;
    [exists this; split; [reflexivity|split; [assumption|reflexivity]]|].
  cbn [run]. destruct (call_valid this m Hlaw Hv) as [Hw Hnext].
  destruct (call this m) as [r this1|e this1|e]; [| |contradiction].
  - destruct (Hnext r this1) as [Hv' Hc']; [now left|].
    destruct (IH this1) as (this' & E & Hv'' & Hc''); [now rewrite Hc'|exact Hv'|].
    exists this'. split; [exact E|split; [exact Hv''|congruence]].
  - destruct (Hnext RVoid this1) as [Hv' Hc']; [right; eauto|].
    destruct (IH this1) as (this' & E & Hv'' & Hc''); [now rewrite Hc'|exact Hv'|].
    exists this'. split; [exact E|split; [exact Hv''|congruence]].
Qed.

Lemma reachable_valid (compareFn : CompareFn T) this :
  lawful compareFn -> reachable compareFn this ->
  valid this /\ _compareFn this = compareFn.
Proof.
  intros Hlaw [calls E].
  destruct (run_valid (new compareFn) calls Hlaw (new_valid compareFn))
    as (this' & E' & Hv & Hc).
  rewrite E in E'. inversion E'; subst. auto.
Qed.

End Methods.
End SetClass.


(** * The sorted set: properties of the specification *)

Module SetProperties.
Import SortedSet SetSpec SetFacts SetClass.

Section Properties.
Context {T : Type}.
Implicit Types (this : SortedSet T).

(** Invariants 1 to 5 hold after every sequence of public calls. *)
Lemma reachable_wellFormed (compareFn : CompareFn T) this :
  lawful compareFn -> reachable compareFn this ->
  wellFormed compareFn (_root this).
Proof.
  intros Hlaw Hr. destruct (reachable_valid compareFn this Hlaw Hr) as [Hv Hc].
  unfold valid in Hv. now rewrite Hc in Hv.
Qed.

Lemma insert_present (compareFn : CompareFn T) x t n :
  llrb t n -> has t compareFn x = true -> insert t compareFn x = Ok t.
Proof.
  intros H. induction H as [|v l r s n Hl Hr H1 IH1 H2 IH2|v l r s n Hr H1 IH1 H2 IH2];
    [discriminate| |]; cbn [has insert]; intros Hh.
  - assert (Hb : llrb (mkNode v l r RED s) n) by now constructor.
    destruct (compareFn x v <? 0); [|destruct (compareFn x v >? 0)].
    + rewrite (IH1 Hh). cbn [bind]. now apply balance_llrb with n.
    + rewrite (IH2 Hh). cbn [bind]. now apply balance_llrb with n.
    + now apply balance_llrb with n.
  - assert (Hb : llrb (mkNode v l r BLACK s) (S n)) by now constructor.
    destruct (compareFn x v <? 0); [|destruct (compareFn x v >? 0)].
    + rewrite (IH1 Hh). cbn [bind]. now apply balance_llrb with (S n).
    + rewrite (IH2 Hh). cbn [bind]. now apply balance_llrb with (S n).
    + now apply balance_llrb with (S n).
Qed.

Lemma add_present this v :
  lawful (_compareFn this) -> valid this -> contains this v = true ->
  add this v = Returns tt this.
Proof.
  intros Hlaw Hv Hc. apply (valid_iff _ Hlaw) in Hv.
  destruct Hv as (_ & [n Hn] & Hb). destruct this as [root cmp].
  unfold add, contains, finish in *. cbn [_root _compareFn] in *.
  rewrite (insert_present cmp v root n Hn Hc). cbn [bind].
  destruct root as [|rv l r c s]; [discriminate|].
  rewrite isRed_mkNode in Hb. subst c. reflexivity.
Qed.

Lemma length_del_list (compareFn : CompareFn T) x l :
  present compareFn x l -> S (length (del_list compareFn x l)) = length l.
Proof.
  induction l as [|a l IH]; intros H; [now apply present_nil in H|].
  cbn [del_list]. destruct (Z.eqb_spec (compareFn x a) 0); [reflexivity|].
  apply present_cons in H. destruct H as [H|H]; [contradiction|].
  cbn [length]. now rewrite IH.
Qed.

(** What [delete] does to membership and to the number of values. *)
Lemma delete_membership this v :
  lawful (_compareFn this) -> valid this ->
  (contains this v = true ->
   exists this', delete this v = Returns true this' /\ valid this' /\
     contains this' v = false /\
     S (length (values this')) = length (values this)) /\
  (contains this v = false -> delete this v = Returns false this).
Proof.
  intros Hlaw Hv.
  destruct (delete_spec this v Hlaw Hv) as [[Hc E]|[Hc (this' & E & Hv' & Hcmp & Hel)]].
  - split; [congruence|auto].
  - split; [|congruence]. intros _. exists this'. split; [exact E|].
    split; [exact Hv'|].
    pose proof Hv as Hv0. apply (valid_iff _ Hlaw) in Hv0. destruct Hv0 as (Hs & _).
    assert (Hlaw' : lawful (_compareFn this')) by now rewrite Hcmp.
    pose proof Hv' as Hv1. apply (valid_iff _ Hlaw') in Hv1. destruct Hv1 as (Hs' & _).
    unfold contains in *. split.
    + destruct (has (_root this') (_compareFn this') v) eqn:Hh; [|reflexivity].
      apply (has_present _ Hlaw') in Hh; [|exact Hs'].
      unfold values in *. rewrite Hel, Hcmp in Hh.
      apply (present_del_list _ Hlaw) in Hh; [|exact Hs].
      destruct Hh as [Hne _]. now rewrite (cmp_refl _ Hlaw) in Hne.
    + rewrite Hel. apply length_del_list.
      apply (has_present _ Hlaw); assumption.
Qed.

End Properties.

(** ** C6 *)

(** C6.  On every sequence of public calls made on a new sorted set, no
    call lets an [AssertionError] (or any exception other than the
    [NoSuchElementError] of the public contract) escape: the assertions of
    [deleteMin], [deleteMax], [remove], [rotateLeft], [rotateRight],
    [flipColors], [moveRedLeft] and [moveRedRight] never fail. *)
Theorem assertions_never_fail {T} (compareFn : CompareFn T)
    (calls : list (method T)) :
  lawful compareFn -> Forall wentWell (outcomes (new compareFn) calls).
Proof.
  intros Hlaw. apply outcomes_wentWell; [exact Hlaw|apply new_valid].
Qed.

Lemma assertions_never_fail_witness :
  lawful numCompare /\
  Forall wentWell
    (outcomes (new numCompare)
       [Add 8; Add 5; Add 1; Add 4; Delete 5; DeleteMin; DeleteMax; Min]).
Proof.
  split; [exact numCompare_lawful|].
  apply (assertions_never_fail numCompare); exact numCompare_lawful.
Defined.

(** ** C9 *)

(** C9.  Adding a value that the set already contains leaves the set as it
    is: the same tree, hence the same [size()], the same members and the
    same in-order sequence.  Hence adding a value twice is the same as adding
    it once. *)
Theorem add_idempotent {T} (this : SortedSet T) (v : T) :
  lawful (_compareFn this) -> valid this ->
  (contains this v = true -> add this v = Returns tt this) /\
  (forall this1, add this v = Returns tt this1 ->
     add this1 v = Returns tt this1).
Proof.
  intros Hlaw Hv. split; [now apply add_present|].
  intros this1 E.
  destruct (add_spec this v Hlaw Hv) as (this' & E' & Hv' & Hc' & Hel).
  rewrite E in E'. inversion E'; subst this'. clear E'.
  assert (Hlaw1 : lawful (_compareFn this1)) by now rewrite Hc'.
  apply add_present; [exact Hlaw1|exact Hv'|].
  unfold contains. apply (has_present _ Hlaw1).
  - now apply (valid_iff _ Hlaw1) in Hv'.
  - unfold values in Hel. rewrite Hel, Hc'. apply (present_ins_list _ Hlaw).
    left. now apply cmp_refl.
Qed.

Lemma add_idempotent_witness :
  let this := mkSortedSet (mkNode 2 (mkNode 1 null null RED 1) null BLACK 1) numCompare in
  lawful (_compareFn this) /\ valid this /\
  (contains this 1 = true -> add this 1 = Returns tt this) /\
  (forall this1, add this 1 = Returns tt this1 -> add this1 1 = Returns tt this1).
Proof.
  intros this.
  assert (Hl : lawful (_compareFn this)) by exact numCompare_lawful.
  assert (Hv : valid this).
  { apply (valid_iff this Hl). cbn. split.
    - repeat constructor.
    - split; [|reflexivity]. exists 1%nat. repeat constructor. }
  split; [exact Hl|]. split; [exact Hv|].
  exact (add_idempotent this 1 Hl Hv).
Defined.

(** ** C1, C3, C4: the size field *)

(** C1.  After [add(2); add(1)] on a new set the tree has two nodes and the
    size field of its root is 1: invariant 6 does not hold (invariants 1 to 5
    do), and [size()] returns 1. *)
Theorem size_invariant_broken :
  run (new numCompare) [Add 2; Add 1] = Some twoValues /\
  wellFormed numCompare (_root twoValues) /\
  ~ sizesOk (_root twoValues) /\
  sizeOf twoValues = 1 /\ length (values twoValues) = 2%nat.
Proof.
  split; [reflexivity|]. split.
  - apply reachable_wellFormed; [exact numCompare_lawful|].
    now exists [Add 2; Add 1].
  - split; [|split; reflexivity]. cbn. lia.
Qed.

(** C3.  [balance], called by [insert] on the root 2 whose new left child is
    the red leaf 1, performs none of its three steps and returns the root
    with the size field it had: 1, for a subtree of two nodes. *)
Theorem balance_keeps_size :
  let root := mkNode 2 (mkNode 1 null null RED 1) null BLACK 1 in
  insert (mkNode 2 null null BLACK 1) numCompare 1 = balance root /\
  balance root = Ok root /\
  size root <> size (left root) + size (right root) + 1.
Proof. cbn. repeat split. lia. Qed.

(** C4.  On the set built by [add(2); add(1)], [delete(1)] returns [true]
    and removes 1, and [size()] is 1 before and after the call. *)
Theorem delete_keeps_size :
  exists this',
    delete twoValues 1 = Returns true this' /\
    contains twoValues 1 = true /\ contains this' 1 = false /\
    sizeOf twoValues = 1 /\ sizeOf this' = 1.
Proof. eexists. cbn. repeat split. Qed.

End SetProperties.


(** * The sorted map: its tree simulates the tree of a sorted set *)

Module MapSim.
Import SortedMap MapSpec.

Section Sim.
Context {K V E : Type} (g : K -> option V -> E).
Implicit Types (m l r : Node K V) (s : SortedSet.Node E).


Lemma sim_isRed m s : sim g m s -> SortedSet.isRed s = isRed m.
Proof. now destruct 1. Qed.

Lemma sim_isNode m s : sim g m s -> SortedSet.isNode s = isNode m.
Proof. now destruct 1. Qed.

Lemma sim_left m s : sim g m s -> sim g (left m) (SortedSet.left s).
Proof. destruct 1; cbn; [constructor|assumption]. Qed.

Lemma sim_right m s : sim g m s -> sim g (right m) (SortedSet.right s).
Proof. destruct 1; cbn; [constructor|assumption]. Qed.

Lemma sim_count m s : sim g m s -> SortedSet.count s = count m.
Proof. induction 1; cbn; auto. Qed.


Lemma simRes_bind a b (k1 : Node K V -> res (Node K V))
    (k2 : SortedSet.Node E -> res (SortedSet.Node E)) :
  simRes g a b -> (forall m s, sim g m s -> simRes g (k1 m) (k2 s)) ->
  simRes g (bind a k1) (bind b k2).
Proof. destruct 1; cbn; [auto|constructor]. Qed.

Lemma map_isRed_mkNode k v l r c sz : isRed (mkNode k v l r c sz) = c.
Proof. destruct c; reflexivity. Qed.

(** Both sides of a simulation goal, one step further. *)
Ltac sim_crush :=
  repeat
    (cbn [bind ok isNode left right andb orb negb Bool.eqb
          SortedSet.isNode SortedSet.left SortedSet.right
          rotateLeft rotateRight flipColors
          SortedSet.rotateLeft SortedSet.rotateRight SortedSet.flipColors] in *;
     unfold RED, BLACK in *;
     rewrite ?map_isRed_mkNode in *;
     autorewrite with node in *;
     change (isRed (@null K V)) with false in *;
     try match goal with
         | |- simRes _ (Ok _) (Ok _) => constructor
         | |- simRes _ (Throw _) (Throw _) => constructor
         | |- sim _ (mkNode _ _ _ _ _ _) (SortedSet.mkNode _ _ _ _ _) =>
             constructor; try assumption
         | |- sim _ null SortedSet.null => constructor
         | H : sim _ ?m _ |- context [match ?m with null => _ | _ => _ end] =>
             is_var m; destruct H
         | H : sim _ ?m _ |- context [isRed ?m] => is_var m; destruct H
         | H : sim _ ?m _ |- context [isNode ?m] => is_var m; destruct H
         | |- context [match ?c with true => _ | false => _ end] =>
             is_var c; destruct c
         | |- context [ok ?c] => is_var c; destruct c
         | |- context [Bool.eqb ?c _] => is_var c; destruct c
         | |- context [negb ?c] => is_var c; destruct c
         | |- context [andb ?c _] => is_var c; destruct c
         end).


Lemma sim_rotateRight m s :
  sim g m s -> simRes g (rotateRight m) (SortedSet.rotateRight s).
Proof. intros H. destruct H; sim_crush. Qed.

Lemma sim_flipColors m s :
  sim g m s -> simRes g (flipColors m) (SortedSet.flipColors s).
Proof. intros H. destruct H; sim_crush. Qed.


Lemma sim_moveRedRight m s :
  sim g m s -> simRes g (moveRedRight m) (SortedSet.moveRedRight s).
Proof.
  intros H. unfold moveRedRight, SortedSet.moveRedRight.
  rewrite (sim_isRed _ _ H).
  rewrite (sim_isNode _ _ (sim_right _ _ H)), (sim_isRed _ _ (sim_right _ _ H)).
  rewrite (sim_isRed _ _ (sim_left _ _ (sim_right _ _ H))).
  rewrite (sim_isNode _ _ (sim_left _ _ H)).
  destruct (ok (isRed m)); cbn [bind]; [|constructor].
  destruct (ok _); cbn [bind]; [|constructor].
  destruct (ok _); cbn [bind]; [|constructor].
  apply simRes_bind; [now apply sim_flipColors|].
  clear. intros m s H.
  rewrite (sim_isRed _ _ (sim_left _ _ (sim_left _ _ H))).
  destruct (isRed (left (left m))); [|now constructor].
  apply simRes_bind; [now apply sim_rotateRight|].
  intros. now apply sim_flipColors.
Qed.

Lemma sim_balance m s :
  sim g m s -> simRes g (balance m) (SortedSet.balance s).
Proof.
  intros H. unfold balance, SortedSet.balance, recomputeSize.
  destruct H; sim_crush.
Qed.


Lemma sim_ok (c : bool) a b :
  (c = true -> simRes g a b) -> simRes g (ok c ;;; a) (ok c ;;; b).
Proof. destruct c; cbn; [auto|constructor]. Qed.



Lemma sim_deleteMax_fuel fuel : forall m s,
  sim g m s -> simRes g (deleteMax_fuel fuel m) (SortedSet.deleteMax_fuel fuel s).
Proof.
  induction fuel as [|fuel IH]; intros m s H;
    cbn [deleteMax_fuel SortedSet.deleteMax_fuel]; [constructor|].
  destruct H as [|k v l r c sz l' r' sz' Hl Hr]; [constructor|].
  rewrite map_isRed_mkNode, SetFacts.isRed_mkNode.
  rewrite (sim_isRed _ _ Hl), (sim_isRed _ _ Hr).
  apply sim_ok. intros _.
  apply simRes_bind.
  - destruct (isRed l); [apply sim_rotateRight|constructor]; now constructor.
  - intros m1 s1 H1.
    rewrite (sim_isNode _ _ (sim_right _ _ H1)), (sim_isRed _ _ (sim_right _ _ H1)).
    rewrite (sim_isRed _ _ (sim_left _ _ (sim_right _ _ H1))).
    destruct (negb (isNode (right m1))); [repeat constructor|].
    apply simRes_bind.
    + destruct (_ && _); [now apply sim_moveRedRight|now constructor].
    + intros m2 s2 H2. destruct H2 as [|k2 v2 l2 r2 c2 sz2 l2' r2' sz2' Hl2 Hr2];
        [constructor|].
      apply simRes_bind; [now apply IH|].
      intros. apply sim_balance. now constructor.
Qed.

Lemma sim_deleteMax m s :
  sim g m s -> simRes g (deleteMax m) (SortedSet.deleteMax s).
Proof.
  intros H. unfold deleteMax, SortedSet.deleteMax. rewrite (sim_count _ _ H).
  now apply sim_deleteMax_fuel.
Qed.

Section Keyed.
Context (compareFn : CompareFn K) (compareE : CompareFn E).
Context (key : K) (x : E).
Hypothesis Hx : forall k v, compareE x (g k v) = compareFn key k.

Lemma sim_has m s :
  sim g m s -> SortedSet.has s compareE x = has m compareFn key.
Proof.
  induction 1 as [|k v l r c sz l' r' sz' Hl IHl Hr IHr]; cbn; [reflexivity|].
  now rewrite Hx, IHl, IHr.
Qed.




End Keyed.

End Sim.
End MapSim.


(** * The sorted map: lists of entries *)

Module MapLists.
Import MapSpec.

Section Entries.
Context {K V : Type} (compareFn : CompareFn K) (Hlaw : lawful compareFn).
Implicit Types (l : list (K * option V)).

Lemma entryCompare_lawful : lawful (@entryCompare K V compareFn).
Proof.
  split; unfold entryCompare; intros.
  - apply (cmp_flip _ Hlaw).
  - now apply (cmp_le_trans _ Hlaw) with (fst b).
Qed.

Lemma assoc_above key l :
  Forall (fun e => compareFn key (fst e) < 0) l -> assoc compareFn key l = None.
Proof.
  induction l as [|[k v] l IH]; intros H; [reflexivity|].
  inversion H; subst. cbn in *.
  destruct (Z.eqb_spec (compareFn key k) 0); [lia|auto].
Qed.

Lemma assoc_below key l :
  Forall (fun e => compareFn key (fst e) > 0) l -> assoc compareFn key l = None.
Proof.
  induction l as [|[k v] l IH]; intros H; [reflexivity|].
  inversion H; subst. cbn in *.
  destruct (Z.eqb_spec (compareFn key k) 0); [lia|auto].
Qed.

Lemma assoc_app key l1 l2 :
  assoc compareFn key (l1 ++ l2) =
  match assoc compareFn key l1 with
  | Some v => Some v
  | None => assoc compareFn key l2
  end.
Proof.
  induction l1 as [|[k v] l1 IH]; [reflexivity|].
  cbn. destruct (compareFn key k =? 0); [reflexivity|exact IH].
Qed.

(** The lookup in a sorted list goes where the search in the tree goes. *)
Lemma assoc_mid key l1 k v l2 :
  sorted (@entryCompare K V compareFn) (l1 ++ (k, v) :: l2) ->
  assoc compareFn key (l1 ++ (k, v) :: l2) =
  if compareFn key k <? 0 then assoc compareFn key l1
  else if compareFn key k >? 0 then assoc compareFn key l2
  else Some v.
Proof.
  intros Hs. apply (sorted_mid _ entryCompare_lawful) in Hs.
  destruct Hs as (_ & _ & H1 & H2). rewrite assoc_app. cbn [assoc].
  destruct (Z.ltb_spec (compareFn key k) 0) as [Hlt|Hge].
  - destruct (assoc compareFn key l1); [reflexivity|].
    destruct (Z.eqb_spec (compareFn key k) 0); [lia|].
    apply assoc_above. revert H2. apply Forall_impl. intros [k' v'].
    unfold lt, entryCompare. cbn. intros. apply (lt_trans _ Hlaw) with k; assumption.
  - rewrite assoc_below.
    + destruct (Z.gtb_spec (compareFn key k) 0);
        destruct (Z.eqb_spec (compareFn key k) 0); try lia; reflexivity.
    + revert H1. apply Forall_impl. intros [k' v'].
      unfold lt, entryCompare. cbn. intros.
      apply (ge_lt_trans _ Hlaw key k k'); [lia|assumption].
Qed.

Lemma sorted_keys l : sorted (@entryCompare K V compareFn) l <-> sorted compareFn (map fst l).
Proof.
  induction l as [|e l IH]; cbn; [tauto|].
  rewrite IH, Forall_map. unfold lt, entryCompare. tauto.
Qed.



(** *** [set] on a list *)






(** *** [delete] on a list *)



End Entries.
End MapLists.


(** * The sorted map: trees *)

Module MapFacts.
Import SortedMap MapSpec MapSim MapLists.

Section Trees.
Context {K V : Type}.
Implicit Types (m l r : Node K V).







(** *** Size fields *)












Lemma min_sizes m n : sizesOk m -> min m = Ok n -> sizesOk n.
Proof.
  induction m as [|k v l IHl r IHr c s]; [discriminate|]. intros Hm H.
  cbn [min] in H. destruct (isNode l); [|now inversion H; subst].
  apply IHl; [|exact H]. cbn in Hm. tauto.
Qed.



End Trees.

(** ** Lookup, insertion and deletion *)

Section Keyed.
Context {K V : Type} (compareFn : CompareFn K) (Hlaw : lawful compareFn).
Implicit Types (m l r : Node K V).

Lemma get_assoc key m :
  sorted (entryCompare compareFn) (entries m) ->
  get m compareFn key =
  match assoc compareFn key (entries m) with
  | Some v => Ok v
  | None => Throw (NoSuchElementError String.EmptyString)
  end.
Proof.
  induction m as [|k v l IHl r IHr c s]; intros Hs; [reflexivity|].
  cbn [get entries] in *. rewrite (assoc_mid _ Hlaw) by assumption.
  apply (sorted_mid _ (entryCompare_lawful _ Hlaw)) in Hs.
  destruct Hs as (Hsl & Hsr & _ & _).
  destruct (compareFn key k <? 0); [auto|].
  destruct (compareFn key k >? 0); auto.
Qed.

Lemma has_assoc key m :
  sorted (entryCompare compareFn) (entries m) ->
  has m compareFn key =
  match assoc compareFn key (entries m) with
  | Some _ => true
  | None => false
  end.
Proof.
  induction m as [|k v l IHl r IHr c s]; intros Hs; [reflexivity|].
  cbn [has entries] in *. rewrite (assoc_mid _ Hlaw) by assumption.
  apply (sorted_mid _ (entryCompare_lawful _ Hlaw)) in Hs.
  destruct Hs as (Hsl & Hsr & _ & _).
  destruct (compareFn key k <? 0); [auto|].
  destruct (compareFn key k >? 0); auto.
Qed.







End Keyed.
End MapFacts.


(** * The sorted map: the class *)

Module MapClass.
Import SortedMap MapSpec MapSim MapLists MapFacts.

Section Methods.
Context {K V : Type}.
Implicit Types (this : SortedMap K V).

Ltac simpl_state := cbn [setRoot _root _compareFn] in *.





End Methods.
End MapClass.


(** * The sorted map: properties of the specification *)

Module MapProperties.
Import SortedMap MapSpec MapSim MapLists MapFacts MapClass.

Section Semantics.
Context {K V : Type} (compareFn : CompareFn K) (Hlaw : lawful compareFn).
Implicit Types (this : SortedMap K V).




End Semantics.

(** ** C2 *)



(** ** C10 *)

(** C10.  After [set(k, undefined)] on a new map, [has(k)] is [true] and
    [get(k)] returns [undefined]: what [get] returns does not tell whether
    the key is present. *)
Theorem has_not_from_get {K V} (compareFn : CompareFn K) (k : K) :
  lawful compareFn ->
  exists this : SortedMap K V,
    set (new compareFn) k undefined = Returns tt this /\
    contains this k = true /\ lookup this k = undefined /\
    lookup (new compareFn) k = (undefined : option V) /\
    contains (@new K V compareFn) k = false.
Proof.
  intros Hlaw. eexists. split; [reflexivity|].
  unfold contains, lookup. cbn. rewrite (cmp_refl _ Hlaw). cbn. auto.
Qed.

Lemma has_not_from_get_witness :
  lawful numCompare /\
  exists this : SortedMap Z Z,
    set (new numCompare) 3 undefined = Returns tt this /\
    contains this 3 = true /\ lookup this 3 = undefined /\
    lookup (new numCompare) 3 = (undefined : option Z) /\
    contains (@new Z Z numCompare) 3 = false.
Proof.
  split; [exact numCompare_lawful|].
  exact (has_not_from_get numCompare 3 numCompare_lawful).
Defined.

End MapProperties.


(** * Queries: order statistics and iteration *)

Module Queries.

(** ** Reasoning on a lawful comparator *)

Section Order.
Context {T : Type} (compareFn : CompareFn T) (Hlaw : lawful compareFn).

Lemma cmp_ge_le a b : compareFn a b >= 0 <-> compareFn b a <= 0.
Proof.
  pose proof (cmp_flip _ Hlaw a b).
  destruct (compareFn a b), (compareFn b a); simpl in *; lia.
Qed.

Lemma lt_irrefl a : ~ compareFn a a < 0.
Proof. rewrite (cmp_refl _ Hlaw). lia. Qed.

Lemma sorted_In_eq a b l :
  sorted compareFn l -> In a l -> In b l -> compareFn a b = 0 -> a = b.
Proof.
  induction l as [|c l IH]; [contradiction|].
  intros [Hc Hs] [Ha|Ha] [Hb|Hb] E; subst.
  - reflexivity.
  - rewrite Forall_forall in Hc. specialize (Hc b Hb). unfold lt in Hc. lia.
  - rewrite Forall_forall in Hc. specialize (Hc a Ha). unfold lt in Hc.
    apply (cmp_eq_sym _ Hlaw) in E. lia.
  - now apply IH.
Qed.

End Order.

(** Adds a fact to the context unless it is there already. *)
Ltac have H :=
  let P := type of H in
  lazymatch goal with
  | _ : P |- _ => fail
  | _ => pose proof H
  end.

(** Closes the facts of the context on the comparator [c] under its laws,
    then looks for the goal or for a contradiction. *)
Ltac order c Hlaw :=
  unfold lt in *;
  repeat match goal with
  | H : c ?a ?b > 0 |- _ => apply (cmp_gt_lt c Hlaw) in H
  | H : c ?a ?b >= 0 |- _ => apply (cmp_ge_le c Hlaw) in H
  | H : 0 <= c ?a ?b |- _ => apply Z.le_ge in H
  | H : 0 < c ?a ?b |- _ => apply Z.lt_gt in H
  | H : c ?a ?b = 0 |- _ => have (cmp_eq_sym c Hlaw _ _ H)
  | H : c ?a ?b = 0 |- _ => have (Z.eq_le_incl _ _ H)
  | H : c ?a ?b < 0 |- _ => have (Z.lt_le_incl _ _ H)
  | H1 : c ?a ?b < 0, H2 : c ?b ?d < 0 |- _ => have (lt_trans c Hlaw _ _ _ H1 H2)
  | H1 : c ?a ?b <= 0, H2 : c ?b ?d < 0 |- _ =>
      have (le_lt_trans c Hlaw _ _ _ H1 H2)
  | H1 : c ?a ?b < 0, H2 : c ?b ?d <= 0 |- _ =>
      have (lt_le_trans c Hlaw _ _ _ H1 H2)
  | H1 : c ?a ?b <= 0, H2 : c ?b ?d <= 0 |- _ =>
      have (cmp_le_trans c Hlaw _ _ _ H1 H2)
  end;
  try match goal with
  | H : c ?a ?a < 0 |- _ => exfalso; exact (lt_irrefl c Hlaw _ H)
  end;
  try match goal with
  | |- c ?a ?b > 0 => apply (cmp_gt_lt c Hlaw)
  | |- c ?a ?b >= 0 => apply (cmp_ge_le c Hlaw)
  end;
  first [assumption | apply (cmp_refl c Hlaw) | rewrite (cmp_refl c Hlaw); lia
        | lia].

Ltac members :=
  repeat match goal with
  | H : Forall _ _ |- _ => rewrite Forall_forall in H
  | H : In _ (_ ++ _) |- _ => apply in_app_or in H; destruct H as [H|H]
  | H : In _ (_ :: _) |- _ => destruct H as [H|H]; [subst|]
  | H : In _ [] |- _ => destruct H
  | H : In _ (MapSpec.keys SortedMap.null) |- _ => destruct H
  end.

Ltac facts :=
  repeat match goal with
  | H : forall y, In y ?l -> _, Hy : In ?x ?l |- _ =>
      let P := type of (H x Hy) in
      lazymatch goal with
      | _ : P |- _ => fail
      | _ => pose proof (H x Hy)
      end
  end;
  repeat match goal with
  | H : ?P -> _, HP : ?P |- _ =>
      match type of P with Prop => specialize (H HP) end
  end.

(** ** The sorted set *)

Section SetQueries.
Import SortedSet SetSpec.
Context {T : Type} (compareFn : CompareFn T) (Hlaw : lawful compareFn).
Implicit Types (t : Node T).

Lemma min_least t :
  isNode t = true -> bstOrder compareFn t ->
  exists mv ml mr mc ms,
    min t = Ok (mkNode mv ml mr mc ms) /\ least compareFn mv (elements t).
Proof.
  induction t as [|v l IHl r _ c s]; [discriminate|].
  intros _ (Hl & Hr & Bl & Br). cbn [min].
  destruct (isNode l) eqn:El.
  - destruct (IHl eq_refl Bl) as (mv & ml & mr & mc & ms & E & Hin & Hle).
    exists mv, ml, mr, mc, ms. split; [exact E|]. cbn [elements]. split.
    + apply in_or_app. now left.
    + intros y Hy. members; facts; order compareFn Hlaw.
  - destruct l; [|discriminate]. exists v, null, r, c, s.
    split; [reflexivity|]. cbn [elements app]. split; [now left|].
    intros y Hy. members; facts; order compareFn Hlaw.
Qed.

Lemma max_greatest t :
  isNode t = true -> bstOrder compareFn t ->
  exists mv ml mr mc ms,
    max t = Ok (mkNode mv ml mr mc ms) /\ greatest compareFn mv (elements t).
Proof.
  induction t as [|v l _ r IHr c s]; [discriminate|].
  intros _ (Hl & Hr & Bl & Br). cbn [max].
  destruct (isNode r) eqn:Er.
  - destruct (IHr eq_refl Br) as (mv & ml & mr & mc & ms & E & Hin & Hle).
    exists mv, ml, mr, mc, ms. split; [exact E|]. cbn [elements]. split.
    + apply in_or_app. right. now right.
    + intros y Hy. members; facts; order compareFn Hlaw.
  - destruct r; [|discriminate]. exists v, l, null, c, s.
    split; [reflexivity|]. cbn [elements]. split; [apply in_elt|].
    intros y Hy. members; facts; order compareFn Hlaw.
Qed.

Lemma floor_spec t x :
  bstOrder compareFn t ->
  match floor t compareFn x with
  | null => forall y, In y (elements t) -> compareFn y x > 0
  | mkNode m _ _ _ _ => isFloor compareFn x m (elements t)
  end.
Proof.
  induction t as [|v l IHl r IHr c s]; cbn [floor elements bstOrder].
  - intros _ y [].
  - intros (Hl & Hr & Bl & Br). specialize (IHl Bl). specialize (IHr Br).
    destruct (Z.eqb_spec (compareFn x v) 0) as [E|E].
    + split; [apply in_elt|]. split; [order compareFn Hlaw|].
      intros y Hy Hyx. members; facts; order compareFn Hlaw.
    + destruct (Z.ltb_spec (compareFn x v) 0) as [L|L].
      * destruct (floor l compareFn x) as [|m ml mr mc ms].
        -- intros y Hy. members; facts; order compareFn Hlaw.
        -- destruct IHl as (Hin & Hmx & Hle). split; [apply in_or_app; now left|].
           split; [exact Hmx|].
           intros y Hy Hyx. members; facts; order compareFn Hlaw.
      * assert (G : compareFn x v > 0) by lia.
        destruct (floor r compareFn x) as [|m ml mr mc ms]; cbn [orElse isNode].
        -- split; [apply in_elt|]. split; [order compareFn Hlaw|].
           intros y Hy Hyx. members; facts; order compareFn Hlaw.
        -- destruct IHr as (Hin & Hmx & Hle).
           split; [apply in_or_app; right; now right|].
           split; [exact Hmx|].
           intros y Hy Hyx. members; facts; order compareFn Hlaw.
Qed.

Lemma ceiling_spec t x :
  bstOrder compareFn t ->
  match ceiling t compareFn x with
  | null => forall y, In y (elements t) -> compareFn y x < 0
  | mkNode m _ _ _ _ => isCeiling compareFn x m (elements t)
  end.
Proof.
  induction t as [|v l IHl r IHr c s]; cbn [ceiling elements bstOrder].
  - intros _ y [].
  - intros (Hl & Hr & Bl & Br). specialize (IHl Bl). specialize (IHr Br).
    destruct (Z.eqb_spec (compareFn x v) 0) as [E|E].
    + split; [apply in_elt|]. split; [order compareFn Hlaw|].
      intros y Hy Hyx. members; facts; order compareFn Hlaw.
    + destruct (Z.gtb_spec (compareFn x v) 0) as [G|G].
      * destruct (ceiling r compareFn x) as [|m ml mr mc ms].
        -- intros y Hy. members; facts; order compareFn Hlaw.
        -- destruct IHr as (Hin & Hmx & Hle).
           split; [apply in_or_app; right; now right|].
           split; [exact Hmx|].
           intros y Hy Hyx. members; facts; order compareFn Hlaw.
      * assert (L : compareFn x v < 0) by lia.
        destruct (ceiling l compareFn x) as [|m ml mr mc ms]; cbn [orElse isNode].
        -- split; [apply in_elt|]. split; [order compareFn Hlaw|].
           intros y Hy Hyx. members; facts; order compareFn Hlaw.
        -- destruct IHl as (Hin & Hmx & Hle). split; [apply in_or_app; now left|].
           split; [exact Hmx|].
           intros y Hy Hyx. members; facts; order compareFn Hlaw.
Qed.

(** The answers of the class. *)
Lemma set_order_statistics (this : SortedSet T) x :
  _compareFn this = compareFn -> bstOrder compareFn (_root this) ->
  isEmpty this = false ->
  orderStatistics compareFn (values this) this
    (minOf this) (maxOf this) (floorOf this x) (ceilingOf this x) x
    "Value is too small"%string.
Proof.
  intros Hc Hb He. unfold minOf, maxOf, floorOf, ceilingOf, values.
  rewrite He, Hc. unfold isEmpty in He. apply negb_false_iff in He.
  pose proof (proj1 (SetClass.bstOrder_sorted _ Hlaw _) Hb) as Hs.
  pose proof (floor_spec _ x Hb) as Hf. pose proof (ceiling_spec _ x Hb) as Hg.
  split; [|split; [|split; [|split]]].
  - destruct (min_least _ He Hb) as (mv & ml & mr & mc & ms & E & H).
    exists mv. rewrite E. split; [reflexivity|exact H].
  - destruct (max_greatest _ He Hb) as (mv & ml & mr & mc & ms & E & H).
    exists mv. rewrite E. split; [reflexivity|exact H].
  - destruct (floor (_root this) compareFn x); [right|left]; eauto.
  - destruct (ceiling (_root this) compareFn x); [right|left]; eauto.
  - intros y Hy E. split.
    + destruct (floor (_root this) compareFn x) as [|m ml mr mc ms].
      * specialize (Hf y Hy). order compareFn Hlaw.
      * destruct Hf as (Hin & Hmx & Hle). f_equal.
        apply (sorted_In_eq _ Hlaw m y _ Hs Hin Hy).
        apply (cmp_le_antisym _ Hlaw); [|apply Hle; [exact Hy|]];
          order compareFn Hlaw.
    + destruct (ceiling (_root this) compareFn x) as [|m ml mr mc ms].
      * specialize (Hg y Hy). order compareFn Hlaw.
      * destruct Hg as (Hin & Hmx & Hle). f_equal.
        apply (sorted_In_eq _ Hlaw m y _ Hs Hin Hy).
        apply (cmp_le_antisym _ Hlaw); [apply Hle; [exact Hy|]|];
          order compareFn Hlaw.
Qed.

End SetQueries.

(** ** The sorted map *)

Section MapQueries.
Import SortedMap MapSpec.
Context {K V : Type} (compareFn : CompareFn K) (Hlaw : lawful compareFn).
Implicit Types (t : Node K V).

Lemma keys_node k v (l r : Node K V) c s :
  keys (mkNode k v l r c s) = keys l ++ k :: keys r.
Proof. unfold keys. cbn [entries]. now rewrite map_app. Qed.

Lemma map_bstOrder_sorted t :
  bstOrder compareFn t <-> sorted compareFn (keys t).
Proof.
  induction t as [|k v l IHl r IHr c s]; cbn [bstOrder].
  - cbn. tauto.
  - rewrite keys_node, (sorted_mid _ Hlaw), IHl, IHr.
    assert (E : Forall (fun x => compareFn x k > 0) (keys r) <->
                Forall (lt compareFn k) (keys r)).
    { split; apply Forall_impl; intros a Ha; unfold lt in *;
        apply (cmp_gt_lt _ Hlaw); assumption || lia. }
    rewrite E. unfold lt. tauto.
Qed.

Lemma map_min_least t :
  isNode t = true -> bstOrder compareFn t ->
  exists mk mv ml mr mc ms,
    min t = Ok (mkNode mk mv ml mr mc ms) /\ least compareFn mk (keys t).
Proof.
  induction t as [|k v l IHl r _ c s]; [discriminate|].
  intros _ (Hl & Hr & Bl & Br). cbn [min]. rewrite keys_node.
  destruct (isNode l) eqn:El.
  - destruct (IHl eq_refl Bl) as (mk & mv & ml & mr & mc & ms & E & Hin & Hle).
    exists mk, mv, ml, mr, mc, ms. split; [exact E|]. split.
    + apply in_or_app. now left.
    + intros y Hy. members; facts; order compareFn Hlaw.
  - destruct l; [|discriminate]. exists k, v, null, r, c, s.
    split; [reflexivity|]. cbn [keys entries map app]. split; [now left|].
    intros y Hy. members; facts; order compareFn Hlaw.
Qed.

Lemma map_max_greatest t :
  isNode t = true -> bstOrder compareFn t ->
  exists mk mv ml mr mc ms,
    max t = Ok (mkNode mk mv ml mr mc ms) /\ greatest compareFn mk (keys t).
Proof.
  induction t as [|k v l _ r IHr c s]; [discriminate|].
  intros _ (Hl & Hr & Bl & Br). cbn [max]. rewrite keys_node.
  destruct (isNode r) eqn:Er.
  - destruct (IHr eq_refl Br) as (mk & mv & ml & mr & mc & ms & E & Hin & Hle).
    exists mk, mv, ml, mr, mc, ms. split; [exact E|]. split.
    + apply in_or_app. right. now right.
    + intros y Hy. members; facts; order compareFn Hlaw.
  - destruct r; [|discriminate]. exists k, v, l, null, c, s.
    split; [reflexivity|]. split; [apply in_elt|].
    intros y Hy. members; facts; order compareFn Hlaw.
Qed.

Lemma map_floor_spec t x :
  bstOrder compareFn t ->
  match floor t compareFn x with
  | null => forall y, In y (keys t) -> compareFn y x > 0
  | mkNode m _ _ _ _ _ => isFloor compareFn x m (keys t)
  end.
Proof.
  induction t as [|k v l IHl r IHr c s]; cbn [floor bstOrder].
  - intros _ y [].
  - rewrite keys_node.
    intros (Hl & Hr & Bl & Br). specialize (IHl Bl). specialize (IHr Br).
    destruct (Z.eqb_spec (compareFn x k) 0) as [E|E].
    + split; [apply in_elt|]. split; [order compareFn Hlaw|].
      intros y Hy Hyx. members; facts; order compareFn Hlaw.
    + destruct (Z.ltb_spec (compareFn x k) 0) as [L|L].
      * destruct (floor l compareFn x) as [|m mv ml mr mc ms].
        -- intros y Hy. members; facts; order compareFn Hlaw.
        -- destruct IHl as (Hin & Hmx & Hle). split; [apply in_or_app; now left|].
           split; [exact Hmx|].
           intros y Hy Hyx. members; facts; order compareFn Hlaw.
      * assert (G : compareFn x k > 0) by lia.
        destruct (floor r compareFn x) as [|m mv ml mr mc ms]; cbn [orElse isNode].
        -- split; [apply in_elt|]. split; [order compareFn Hlaw|].
           intros y Hy Hyx. members; facts; order compareFn Hlaw.
        -- destruct IHr as (Hin & Hmx & Hle).
           split; [apply in_or_app; right; now right|].
           split; [exact Hmx|].
           intros y Hy Hyx. members; facts; order compareFn Hlaw.
Qed.

Lemma map_ceiling_spec t x :
  bstOrder compareFn t ->
  match ceiling t compareFn x with
  | null => forall y, In y (keys t) -> compareFn y x < 0
  | mkNode m _ _ _ _ _ => isCeiling compareFn x m (keys t)
  end.
Proof.
  induction t as [|k v l IHl r IHr c s]; cbn [ceiling bstOrder].
  - intros _ y [].
  - rewrite keys_node.
    intros (Hl & Hr & Bl & Br). specialize (IHl Bl). specialize (IHr Br).
    destruct (Z.eqb_spec (compareFn x k) 0) as [E|E].
    + split; [apply in_elt|]. split; [order compareFn Hlaw|].
      intros y Hy Hyx. members; facts; order compareFn Hlaw.
    + destruct (Z.gtb_spec (compareFn x k) 0) as [G|G].
      * destruct (ceiling r compareFn x) as [|m mv ml mr mc ms].
        -- intros y Hy. members; facts; order compareFn Hlaw.
        -- destruct IHr as (Hin & Hmx & Hle).
           split; [apply in_or_app; right; now right|].
           split; [exact Hmx|].
           intros y Hy Hyx. members; facts; order compareFn Hlaw.
      * assert (L : compareFn x k < 0) by lia.
        destruct (ceiling l compareFn x) as [|m mv ml mr mc ms]; cbn [orElse isNode].
        -- split; [apply in_elt|]. split; [order compareFn Hlaw|].
           intros y Hy Hyx. members; facts; order compareFn Hlaw.
        -- destruct IHl as (Hin & Hmx & Hle). split; [apply in_or_app; now left|].
           split; [exact Hmx|].
           intros y Hy Hyx. members; facts; order compareFn Hlaw.
Qed.

(** The answers of the class. *)
Lemma map_order_statistics (this : SortedMap K V) x :
  _compareFn this = compareFn -> bstOrder compareFn (_root this) ->
  isEmpty this = false ->
  orderStatistics compareFn (keys (_root this)) this
    (minOf this) (maxOf this) (floorOf this x) (ceilingOf this x) x
    "Key is too small"%string.
Proof.
  intros Hc Hb He. unfold minOf, maxOf, floorOf, ceilingOf.
  rewrite He, Hc. unfold isEmpty in He. apply negb_false_iff in He.
  pose proof (proj1 (map_bstOrder_sorted _) Hb) as Hs.
  pose proof (map_floor_spec _ x Hb) as Hf.
  pose proof (map_ceiling_spec _ x Hb) as Hg.
  split; [|split; [|split; [|split]]].
  - destruct (map_min_least _ He Hb) as (mk & mv & ml & mr & mc & ms & E & H).
    exists mk. rewrite E. split; [reflexivity|exact H].
  - destruct (map_max_greatest _ He Hb) as (mk & mv & ml & mr & mc & ms & E & H).
    exists mk. rewrite E. split; [reflexivity|exact H].
  - destruct (floor (_root this) compareFn x); [right|left]; eauto.
  - destruct (ceiling (_root this) compareFn x); [right|left]; eauto.
  - intros y Hy E. split.
    + destruct (floor (_root this) compareFn x) as [|m mv ml mr mc ms].
      * specialize (Hf y Hy). order compareFn Hlaw.
      * destruct Hf as (Hin & Hmx & Hle). f_equal.
        apply (sorted_In_eq _ Hlaw m y _ Hs Hin Hy).
        apply (cmp_le_antisym _ Hlaw); [|apply Hle; [exact Hy|]];
          order compareFn Hlaw.
    + destruct (ceiling (_root this) compareFn x) as [|m mv ml mr mc ms].
      * specialize (Hg y Hy). order compareFn Hlaw.
      * destruct Hg as (Hin & Hmx & Hle). f_equal.
        apply (sorted_In_eq _ Hlaw m y _ Hs Hin Hy).
        apply (cmp_le_antisym _ Hlaw); [apply Hle; [exact Hy|]|];
          order compareFn Hlaw.
Qed.

Lemma dfs_entries t acc : dfs t acc = acc ++ entries t.
Proof.
  revert acc. induction t as [|k v l IHl r IHr c s]; intros acc; cbn [dfs entries].
  - now rewrite app_nil_r.
  - rewrite IHr, IHl. rewrite <- !app_assoc. reflexivity.
Qed.

Lemma createSnapshot_entries t : createSnapshot t = entries t.
Proof.
  unfold createSnapshot. destruct t; [reflexivity|]. cbn [isNode].
  now rewrite dfs_entries.
Qed.

End MapQueries.

(** ** Iteration *)

Section Iteration.
Context {S A : Type} (next : Generator A -> S -> option A * Generator A).
Context (array : S -> list A).
Hypothesis next_resume : forall g this, next g this = resume g (array this).

(** Once the generator has started, what it yields does not depend on the
    states the container goes through. *)
Lemma drain_yielding states : forall rest,
  drain next (Yielding rest) states = firstn (length states) rest.
Proof.
  induction states as [|this states IH]; intros rest; [reflexivity|].
  cbn [drain length]. rewrite next_resume. cbn [resume].
  destruct rest as [|x rest]; [reflexivity|]. cbn [firstn]. now rewrite IH.
Qed.

Lemma drain_suspended this later :
  drain next Suspended (this :: later) = firstn (Datatypes.S (length later)) (array this).
Proof.
  cbn [drain]. rewrite next_resume. cbn [resume].
  destruct (array this) as [|x rest]; [reflexivity|].
  cbn [firstn]. now rewrite drain_yielding.
Qed.

End Iteration.

(** ** C5 *)

(** C5.  On a set and on a map that are not empty and whose trees are in
    BST order: [min()] returns a stored element that no stored element is
    less than, [max()] one that no stored element is greater than;
    [floor(x)] returns the greatest stored element not greater than [x], and
    throws when every stored element is greater than [x]; [ceiling(x)]
    returns the least stored element not less than [x], and throws when
    every stored element is less than [x]; when a stored element compares
    equal to [x], both return that element.  No call changes the
    container. *)
Theorem order_statistics {T K V} (aSet : SortedSet.SortedSet T)
    (aMap : SortedMap.SortedMap K V) (value : T) (key : K) :
  lawful (SortedSet._compareFn aSet) ->
  SetSpec.bstOrder (SortedSet._compareFn aSet) (SortedSet._root aSet) ->
  SortedSet.isEmpty aSet = false ->
  lawful (SortedMap._compareFn aMap) ->
  MapSpec.bstOrder (SortedMap._compareFn aMap) (SortedMap._root aMap) ->
  SortedMap.isEmpty aMap = false ->
  orderStatistics (SortedSet._compareFn aSet) (SetSpec.values aSet) aSet
    (SortedSet.minOf aSet) (SortedSet.maxOf aSet)
    (SortedSet.floorOf aSet value) (SortedSet.ceilingOf aSet value) value
    "Value is too small"%string /\
  orderStatistics (SortedMap._compareFn aMap)
    (MapSpec.keys (SortedMap._root aMap)) aMap
    (SortedMap.minOf aMap) (SortedMap.maxOf aMap)
    (SortedMap.floorOf aMap key) (SortedMap.ceilingOf aMap key) key
    "Key is too small"%string.
Proof.
  intros HlT HbT HeT HlK HbK HeK. split.
  - now apply set_order_statistics.
  - now apply map_order_statistics.
Qed.

Lemma order_statistics_witness :
  orderStatistics numCompare [1; 2] SetSpec.twoValues
    (SortedSet.minOf SetSpec.twoValues) (SortedSet.maxOf SetSpec.twoValues)
    (SortedSet.floorOf SetSpec.twoValues 3)
    (SortedSet.ceilingOf SetSpec.twoValues 3) 3 "Value is too small"%string /\
  orderStatistics numCompare [1; 2] MapSpec.twoEntries
    (SortedMap.minOf MapSpec.twoEntries) (SortedMap.maxOf MapSpec.twoEntries)
    (SortedMap.floorOf MapSpec.twoEntries 0)
    (SortedMap.ceilingOf MapSpec.twoEntries 0) 0 "Key is too small"%string.
Proof.
  apply (order_statistics SetSpec.twoValues MapSpec.twoEntries 3 0).
  - exact numCompare_lawful.
  - cbn. unfold numCompare. repeat constructor.
  - reflexivity.
  - exact numCompare_lawful.
  - cbn. unfold numCompare. repeat constructor.
  - reflexivity.
Defined.

(** ** C8 *)

(** C8.  [createSnapshot] returns the in-order sequence of the tree, which
    is strictly increasing when the tree is in BST order.  The iterator of a
    container takes this snapshot when it is first resumed and yields its
    elements one per call, whatever states the container goes through
    between the calls: after [n] more calls it has yielded the first
    [n + 1] elements of the snapshot of the state it was first resumed in. *)
Theorem snapshot_in_order {T K V} (aSet : SortedSet.SortedSet T)
    (laterSets : list (SortedSet.SortedSet T))
    (aMap : SortedMap.SortedMap K V)
    (laterMaps : list (SortedMap.SortedMap K V)) :
  lawful (SortedSet._compareFn aSet) ->
  SetSpec.bstOrder (SortedSet._compareFn aSet) (SortedSet._root aSet) ->
  lawful (SortedMap._compareFn aMap) ->
  MapSpec.bstOrder (SortedMap._compareFn aMap) (SortedMap._root aMap) ->
  (SortedSet.createSnapshot (SortedSet._root aSet)
     = SetSpec.elements (SortedSet._root aSet) /\
   sorted (SortedSet._compareFn aSet)
     (SortedSet.createSnapshot (SortedSet._root aSet)) /\
   drain SortedSet.next Suspended (aSet :: laterSets)
     = firstn (Datatypes.S (length laterSets))
         (SortedSet.createSnapshot (SortedSet._root aSet))) /\
  (SortedMap.createSnapshot (SortedMap._root aMap)
     = MapSpec.entries (SortedMap._root aMap) /\
   sorted (SortedMap._compareFn aMap)
     (map fst (SortedMap.createSnapshot (SortedMap._root aMap))) /\
   drain SortedMap.next Suspended (aMap :: laterMaps)
     = firstn (Datatypes.S (length laterMaps))
         (SortedMap.createSnapshot (SortedMap._root aMap))).
Proof.
  intros HlT HbT HlK HbK. split; (split; [|split]).
  - apply SetFacts.createSnapshot_elements.
  - rewrite SetFacts.createSnapshot_elements.
    now apply (SetClass.bstOrder_sorted _ HlT).
  - now apply (drain_suspended SortedSet.next
                 (fun this => SortedSet.createSnapshot (SortedSet._root this))).
  - apply createSnapshot_entries.
  - rewrite createSnapshot_entries.
    now apply (map_bstOrder_sorted _ HlK).
  - now apply (drain_suspended SortedMap.next
                 (fun this => SortedMap.createSnapshot (SortedMap._root this))).
Qed.

Lemma snapshot_in_order_witness :
  (SortedSet.createSnapshot (SortedSet._root SetSpec.twoValues) = [1; 2] /\
   sorted numCompare (SortedSet.createSnapshot (SortedSet._root SetSpec.twoValues)) /\
   drain SortedSet.next Suspended
     [SetSpec.twoValues; SortedSet.clear SetSpec.twoValues;
      SortedSet.new numCompare]
   = [1; 2]) /\
  (SortedMap.createSnapshot (SortedMap._root MapSpec.twoEntries)
     = [(1, Some 10); (2, Some 20)] /\
   sorted numCompare
     (map fst (SortedMap.createSnapshot (SortedMap._root MapSpec.twoEntries))) /\
   drain SortedMap.next Suspended
     [MapSpec.twoEntries; SortedMap.clear MapSpec.twoEntries]
   = [(1, Some 10); (2, Some 20)]).
Proof.
  apply (snapshot_in_order SetSpec.twoValues
           [SortedSet.clear SetSpec.twoValues; SortedSet.new numCompare]
           MapSpec.twoEntries [SortedMap.clear MapSpec.twoEntries]).
  - exact numCompare_lawful.
  - cbn. unfold numCompare. repeat constructor.
  - exact numCompare_lawful.
  - cbn. unfold numCompare. repeat constructor.
Defined.

(** ** C7 *)

(** C7.  On a new set and on a new map, [min()], [max()], [deleteMin()],
    [deleteMax()], [floor(x)] and [ceiling(x)] throw the
    [NoSuchElementError] of the empty container, whatever [x] is, and leave
    the container as it was. *)
Theorem empty_container_throws {T K V} (compareT : CompareFn T)
    (compareK : CompareFn K) (value : T) (key : K) :
  (let this := SortedSet.new compareT in
   let empty := NoSuchElementError "Sorted set is empty"%string in
   SortedSet.minOf this = Throws empty this /\
   SortedSet.maxOf this = Throws empty this /\
   SortedSet.deleteMinOf this = Throws empty this /\
   SortedSet.deleteMaxOf this = Throws empty this /\
   SortedSet.floorOf this value = Throws empty this /\
   SortedSet.ceilingOf this value = Throws empty this) /\
  (let this := @SortedMap.new K V compareK in
   let empty := NoSuchElementError "Sorted map is empty"%string in
   SortedMap.minOf this = Throws empty this /\
   SortedMap.maxOf this = Throws empty this /\
   SortedMap.deleteMinOf this = Throws empty this /\
   SortedMap.deleteMaxOf this = Throws empty this /\
   SortedMap.floorOf this key = Throws empty this /\
   SortedMap.ceilingOf this key = Throws empty this).
Proof. cbn. repeat split. Qed.

End Queries.


(** * The sorted set: what its methods do to its elements *)

Module SetBehaviour.
Import SortedSet SetSpec SetModel SetFacts SetClass.

Section Lists.
Context {T : Type} (compareFn : CompareFn T) (Hlaw : lawful compareFn).

Lemma length_ins_list x l :
  sorted compareFn l ->
  (present compareFn x l -> length (ins_list compareFn x l) = length l) /\
  (~ present compareFn x l ->
   length (ins_list compareFn x l) = S (length l)).
Proof.
  induction l as [|a l IH]; cbn [ins_list sorted].
  - intros _. split; [intros H; now apply present_nil in H|reflexivity].
  - intros [Ha Hs]. specialize (IH Hs). rewrite (present_cons compareFn).
    destruct (Z.ltb_spec (compareFn x a) 0) as [L|L].
    + split; [|reflexivity]. intros [E|P]; [lia|].
      exfalso. revert P. apply not_present_above.
      apply (Forall_lt_trans _ Hlaw x a); [lia|exact Ha].
    + destruct (Z.gtb_spec (compareFn x a) 0) as [G|G]; cbn [length].
      * split; intros H.
        -- f_equal. apply IH. destruct H as [E|P]; [lia|exact P].
        -- f_equal. apply IH. tauto.
      * split; [reflexivity|]. intros H. exfalso. apply H. left. lia.
Qed.

Lemma replay_sorted l (m : method T) :
  sorted compareFn l -> sorted compareFn (replay compareFn l m).
Proof.
  intros Hs. destruct m; cbn [replay]; try assumption.
  - now apply (sorted_ins_list _ Hlaw).
  - now apply sorted_del_list.
  - now apply sorted_tl.
  - now apply sorted_removelast.
  - exact I.
Qed.

End Lists.

Section Methods.
Context {T : Type}.
Implicit Types (this : SortedSet T) (t : Node T).

(** [has] of the class decides whether a value of the in-order sequence
    compares equal. *)
Lemma contains_present this w :
  lawful (_compareFn this) -> valid this ->
  contains this w = true <-> present (_compareFn this) w (values this).
Proof.
  intros Hlaw Hv. apply (valid_iff _ Hlaw) in Hv. destruct Hv as (Hs & _).
  unfold contains, values. now apply has_present.
Qed.

Lemma contains_same this this' w :
  lawful (_compareFn this) -> valid this -> valid this' ->
  _compareFn this' = _compareFn this ->
  (present (_compareFn this) w (values this') <->
   present (_compareFn this) w (values this)) ->
  contains this' w = contains this w.
Proof.
  intros Hlaw Hv Hv' Hc H.
  assert (Hlaw' : lawful (_compareFn this')) by now rewrite Hc.
  pose proof (contains_present this w Hlaw Hv) as H1.
  pose proof (contains_present this' w Hlaw' Hv') as H2. rewrite Hc in H2.
  destruct (contains this w), (contains this' w); try reflexivity;
    intuition congruence.
Qed.

Lemma max_last t :
  isNode t = true ->
  exists mv ml mr mc ms front,
    max t = Ok (mkNode mv ml mr mc ms) /\ elements t = front ++ [mv].
Proof.
  induction t as [|v l _ r IHr c s]; [discriminate|]. intros _.
  cbn [max elements]. destruct (isNode r) eqn:Er.
  - destruct (IHr eq_refl) as (mv & ml & mr & mc & ms & front & E & Hel).
    exists mv, ml, mr, mc, ms, (elements l ++ v :: front).
    split; [exact E|]. rewrite Hel, <- app_assoc. reflexivity.
  - destruct r; [|discriminate].
    exists v, l, null, c, s, (elements l). split; reflexivity.
Qed.

(** A call leaves the in-order sequence that [replay] gives. *)
Lemma call_replay this m :
  lawful (_compareFn this) -> valid this ->
  forall r this', (call this m = Returns r this' \/
                   exists e, call this m = Throws e this') ->
    values this' = replay (_compareFn this) (values this) m.
Proof.
  intros Hlaw Hv. destruct m; cbn [call replay].
  - destruct (add_spec this value Hlaw Hv) as (this1 & E & _ & _ & Hel).
    rewrite E. cbn. intros r this' [H|[e H]]; inversion H; subst; exact Hel.
  - destruct (delete_spec this value Hlaw Hv)
      as [[Hc E]|[Hc (this1 & E & _ & _ & Hel)]]; rewrite E; cbn;
      intros r this' [H|[e H]]; inversion H; subst; [|exact Hel].
    symmetry. apply del_list_absent. intros P.
    apply (contains_present _ _ Hlaw Hv) in P. congruence.
  - destruct (deleteMinOf_spec this Hlaw Hv)
      as [[He E]|[He (this1 & E & _ & _ & Hel)]]; rewrite E; cbn;
      intros r this' [H|[e H]]; inversion H; subst; [|exact Hel].
    unfold isEmpty, values in *. now destruct (_root this').
  - destruct (deleteMaxOf_spec this Hlaw Hv)
      as [[He E]|[He (this1 & E & _ & _ & Hel)]]; rewrite E; cbn;
      intros r this' [H|[e H]]; inversion H; subst; [|exact Hel].
    unfold isEmpty, values in *. now destruct (_root this').
  - intros r this' [H|[e H]]; inversion H; subst. reflexivity.
  - intros r this' [H|[e H]]; inversion H; subst. reflexivity.
  - intros r this' [H|[e H]]; inversion H; subst. reflexivity.
  - intros r this' [H|[e H]]; inversion H; subst. reflexivity.
  - unfold minOf. destruct (isEmpty this);
      [|destruct (node <- min (_root this);; getValue node)]; cbn;
      intros r this' [H|[e' H]]; inversion H; subst; reflexivity.
  - unfold maxOf. destruct (isEmpty this);
      [|destruct (node <- max (_root this);; getValue node)]; cbn;
      intros r this' [H|[e' H]]; inversion H; subst; reflexivity.
  - unfold floorOf. destruct (isEmpty this);
      [|destruct (floor (_root this) (_compareFn this) value)]; cbn;
      intros r this' [H|[e' H]]; inversion H; subst; reflexivity.
  - unfold ceilingOf. destruct (isEmpty this);
      [|destruct (ceiling (_root this) (_compareFn this) value)]; cbn;
      intros r this' [H|[e' H]]; inversion H; subst; reflexivity.
  - intros r this' [H|[e H]]; inversion H; subst. reflexivity.
Qed.

Lemma run_replay calls : forall this,
  lawful (_compareFn this) -> valid this ->
  exists this', run this calls = Some this' /\ valid this' /\
    _compareFn this' = _compareFn this /\
    values this' = fold_left (replay (_compareFn this)) calls (values this).
Proof.
  induction calls as [|m calls IH]; intros this Hlaw Hv.
  - exists this. split; [reflexivity|]. split; [exact Hv|]. split; reflexivity.
  - destruct (call_valid this m Hlaw Hv) as [Hw Hnext].
    pose proof (call_replay this m Hlaw Hv) as Hrep.
    cbn [run fold_left]. destruct (call this m) as [r this1|e this1|e] eqn:E.
    + destruct (Hnext r this1 (or_introl eq_refl)) as [Hv1 Hc1].
      assert (Hlaw1 : lawful (_compareFn this1)) by now rewrite Hc1.
      destruct (IH this1 Hlaw1 Hv1) as (this' & Er & Hv' & Hc' & Hel).
      exists this'. rewrite Hc1 in *.
      rewrite (Hrep r this1 (or_introl eq_refl)) in Hel. auto.
    + destruct (Hnext RVoid this1 (or_intror (ex_intro _ e eq_refl))) as [Hv1 Hc1].
      assert (Hlaw1 : lawful (_compareFn this1)) by now rewrite Hc1.
      destruct (IH this1 Hlaw1 Hv1) as (this' & Er & Hv' & Hc' & Hel).
      exists this'. rewrite Hc1 in *.
      rewrite (Hrep RVoid this1 (or_intror (ex_intro _ e eq_refl))) in Hel. auto.
    + destruct Hw.
Qed.

Lemma iterate_values this : iterate this = values this.
Proof. apply createSnapshot_elements. Qed.

Lemma twoValues_valid : valid twoValues.
Proof.
  apply (valid_iff twoValues numCompare_lawful). cbn. split.
  - repeat constructor.
  - split; [|reflexivity]. exists 1%nat. repeat constructor.
Qed.

Lemma del_ins_list (compareFn : CompareFn T) x l :
  lawful compareFn -> sorted compareFn l -> ~ present compareFn x l ->
  del_list compareFn x (ins_list compareFn x l) = l.
Proof.
  intros Hlaw. induction l as [|a l IH]; cbn [ins_list del_list sorted].
  - intros _ _. now rewrite (cmp_refl _ Hlaw).
  - intros [Ha Hs] Hn. rewrite (present_cons compareFn) in Hn.
    destruct (Z.ltb_spec (compareFn x a) 0) as [L|L].
    + cbn [del_list]. now rewrite (cmp_refl _ Hlaw).
    + destruct (Z.gtb_spec (compareFn x a) 0) as [G|G]; [|exfalso; apply Hn; left; lia].
      cbn [del_list]. destruct (Z.eqb_spec (compareFn x a) 0); [lia|].
      f_equal. apply IH; tauto.
Qed.

End Methods.

(** ** Height *)

Section Height.
Context {T : Type}.
Implicit Types (t : Node T).

(** A subtree of black height [n] has a height of at most [2 n], one more
    when its root is red, and at least [2 ^ n - 1] nodes. *)
Lemma llrb_height t n :
  llrb t n ->
  (height t <= 2 * n + (if isRed t then 1 else 0))%nat /\
  (2 ^ n <= count t + 1)%nat.
Proof.
  induction 1 as [|v l r s n Hl Hr H1 [IH1 IC1] H2 [IH2 IC2]
                  |v l r s n Hr H1 [IH1 IC1] H2 [IH2 IC2]];
    cbn [height count]; rewrite ?isRed_mkNode, ?isRed_null; cbn [Bool.eqb RED BLACK].
  - cbn. lia.
  - rewrite Hl in IH1. rewrite Hr in IH2. lia.
  - rewrite Hr in IH2. rewrite Nat.pow_succ_r'.
    destruct (isRed l); lia.
Qed.

End Height.

Section Extremes.

Lemma deleteMinOf_min {T : Type} (this : SortedSet T) :
  lawful (_compareFn this) -> valid this -> isEmpty this = false ->
  exists m this',
    minOf this = Returns m this /\ deleteMinOf this = Returns tt this' /\
    valid this' /\ iterate this = m :: iterate this' /\
    contains this' m = false /\
    (forall w, _compareFn this w m <> 0 -> contains this' w = contains this w) /\
    _compareFn this' = _compareFn this.
Proof.
  intros Hlaw Hv He.
  destruct (deleteMinOf_spec this Hlaw Hv)
    as [[He' _]|[_ (this' & E & Hv' & Hc & Hel)]]; [congruence|].
  assert (Hlaw' : lawful (_compareFn this')) by now rewrite Hc.
  pose proof (proj1 (valid_iff _ Hlaw) Hv) as (Hs & _).
  unfold minOf. rewrite He. unfold isEmpty in He. apply negb_false_iff in He.
  unfold values in *.
  destruct (_root this) as [|v l r c s] eqn:Hroot; [discriminate|].
  destruct (min_spec v l r c s) as (mv & ml & mr & mc & ms & Em & Hm).
  rewrite Em. cbn [bind getValue]. rewrite <- Hel in Hm. rewrite Hm in Hs.
  exists mv, this'. split; [reflexivity|]. split; [exact E|].
  split; [exact Hv'|]. split; [|split; [|split; [|exact Hc]]].
  - rewrite !iterate_values. unfold values. now rewrite Hroot.
  - destruct (contains this' mv) eqn:Hc'; [|reflexivity]. exfalso.
    apply (contains_present _ _ Hlaw' Hv') in Hc'. rewrite Hc in Hc'.
    revert Hc'. apply not_present_above. apply Hs.
  - intros w Hw. apply (contains_same this this' w Hlaw Hv Hv' Hc).
    unfold values at 2. rewrite Hroot, Hm, (present_cons (_compareFn this)).
    unfold values. tauto.
Qed.

Lemma deleteMaxOf_max {T : Type} (this : SortedSet T) :
  lawful (_compareFn this) -> valid this -> isEmpty this = false ->
  exists m this',
    maxOf this = Returns m this /\ deleteMaxOf this = Returns tt this' /\
    valid this' /\ iterate this = iterate this' ++ [m] /\
    contains this' m = false /\
    (forall w, _compareFn this w m <> 0 -> contains this' w = contains this w) /\
    _compareFn this' = _compareFn this.
Proof.
  intros Hlaw Hv He.
  destruct (deleteMaxOf_spec this Hlaw Hv)
    as [[He' _]|[_ (this' & E & Hv' & Hc & Hel)]]; [congruence|].
  assert (Hlaw' : lawful (_compareFn this')) by now rewrite Hc.
  pose proof (proj1 (valid_iff _ Hlaw) Hv) as (Hs & _).
  unfold maxOf. rewrite He. unfold isEmpty in He. apply negb_false_iff in He.
  destruct (max_last _ He) as (mv & ml & mr & mc & ms & front & Em & Hm).
  rewrite Em. cbn [bind getValue].
  unfold values in *. rewrite Hm in Hel, Hs. rewrite removelast_last in Hel.
  apply sorted_app in Hs. destruct Hs as (_ & _ & Hs).
  exists mv, this'. split; [reflexivity|]. split; [exact E|].
  split; [exact Hv'|]. split; [|split; [|split; [|exact Hc]]].
  - rewrite !iterate_values. unfold values. now rewrite Hm, Hel.
  - destruct (contains this' mv) eqn:Hc'; [|reflexivity]. exfalso.
    apply (contains_present _ _ Hlaw' Hv') in Hc'. rewrite Hc in Hc'.
    unfold values in Hc'. rewrite Hel in Hc'. revert Hc'.
    apply (not_present_below _ Hlaw mv mv).
    + eapply Forall_impl; [|exact Hs]. intros a Ha. now inversion Ha.
    + rewrite (cmp_refl _ Hlaw). lia.
  - intros w Hw. apply (contains_same this this' w Hlaw Hv Hv' Hc).
    unfold values. rewrite Hm, Hel, (present_app (_compareFn this)),
      (present_cons (_compareFn this)), (present_nil_iff (_compareFn this)).
    tauto.
Qed.

Lemma empty_values {T : Type} (this : SortedSet T) :
  isEmpty this = true -> values this = [].
Proof. unfold isEmpty, values. now destruct (_root this). Qed.

Lemma takeMins_values {T : Type} n : forall this : SortedSet T,
  lawful (_compareFn this) -> valid this ->
  takeMins n this = firstn n (values this).
Proof.
  induction n as [|n IH]; intros this Hlaw Hv; [reflexivity|].
  cbn [takeMins]. destruct (isEmpty this) eqn:He.
  - rewrite (empty_values this He). unfold minOf. now rewrite He.
  - destruct (deleteMinOf_min this Hlaw Hv He)
      as (m & this' & Em & Ed & Hv' & Hit & _ & _ & Hc).
    rewrite Em, Ed. rewrite !iterate_values in Hit. rewrite Hit.
    cbn [firstn]. f_equal. apply IH; [now rewrite Hc|exact Hv'].
Qed.

Lemma firstn_rev_last {A : Type} n (l : list A) a :
  firstn (S n) (rev (l ++ [a])) = a :: firstn n (rev l).
Proof. now rewrite rev_app_distr. Qed.

Lemma takeMaxs_values {T : Type} n : forall this : SortedSet T,
  lawful (_compareFn this) -> valid this ->
  takeMaxs n this = firstn n (rev (values this)).
Proof.
  induction n as [|n IH]; intros this Hlaw Hv; [reflexivity|].
  cbn [takeMaxs]. destruct (isEmpty this) eqn:He.
  - rewrite (empty_values this He). unfold maxOf. now rewrite He.
  - destruct (deleteMaxOf_max this Hlaw Hv He)
      as (m & this' & Em & Ed & Hv' & Hit & _ & _ & Hc).
    rewrite Em, Ed. rewrite !iterate_values in Hit. rewrite Hit.
    rewrite firstn_rev_last. f_equal. apply IH; [now rewrite Hc|exact Hv'].
Qed.

Lemma ins_list_comm {T : Type} (compareFn : CompareFn T) a b l :
  lawful compareFn -> sorted compareFn l -> compareFn a b <> 0 ->
  ins_list compareFn a (ins_list compareFn b l)
  = ins_list compareFn b (ins_list compareFn a l).
Proof.
  intros Hlaw Hs Hab.
  assert (Hba : compareFn b a <> 0)
    by (intros E; apply Hab; now apply (cmp_eq_sym _ Hlaw)).
  induction l as [|c l IH]; cbn [ins_list].
  - destruct (Z.ltb_spec (compareFn a b) 0), (Z.gtb_spec (compareFn a b) 0),
      (Z.ltb_spec (compareFn b a) 0), (Z.gtb_spec (compareFn b a) 0);
      try reflexivity; try lia; exfalso; Queries.order compareFn Hlaw.
  - destruct Hs as [Hc Hs]. specialize (IH Hs).
    destruct (Z.ltb_spec (compareFn a c) 0), (Z.gtb_spec (compareFn a c) 0),
      (Z.ltb_spec (compareFn b c) 0), (Z.gtb_spec (compareFn b c) 0);
      try lia; cbn [ins_list];
      repeat match goal with
      | |- context [?x <? 0] => destruct (Z.ltb_spec x 0)
      | |- context [?x >? 0] => destruct (Z.gtb_spec x 0)
      end;
      try reflexivity; try lia; try (now rewrite IH);
      exfalso; Queries.order compareFn Hlaw.
Qed.

End Extremes.

(** ** Invariants *)

(** X1.  Every sequence of public calls on a new set runs to its end, and the
    tree it leaves is in BST order, has no red right child, no red node with
    a red left child, the same number of black nodes on every path, and a
    black root. *)
Theorem set_keeps_invariants {T} (compareFn : CompareFn T)
    (calls : list (method T)) :
  lawful compareFn ->
  exists this, run (new compareFn) calls = Some this /\
    bstOrder compareFn (_root this) /\ noRedRight (_root this) /\
    noRedRed (_root this) /\ blackBalanced (_root this) /\
    rootBlack (_root this).
Proof.
  intros Hlaw.
  destruct (run_valid (new compareFn) calls Hlaw (new_valid compareFn))
    as (this & E & Hv & Hc).
  exists this. split; [exact E|]. unfold valid in Hv. rewrite Hc in Hv.
  destruct Hv. auto.
Qed.

Lemma set_keeps_invariants_witness :
  exists this,
    run (new numCompare) [Add 8; Add 5; Add 1; Delete 5; DeleteMax; Add 4]
    = Some this /\
    bstOrder numCompare (_root this) /\ noRedRight (_root this) /\
    noRedRed (_root this) /\ blackBalanced (_root this) /\
    rootBlack (_root this).
Proof.
  apply (set_keeps_invariants numCompare). exact numCompare_lawful.
Defined.

(** ** The set as a sorted list *)

(** X2.  After any sequence of public calls on a new set, iteration yields the
    sorted list obtained by replaying the calls on the empty list, and
    [has(v)] tells whether that list has a value that compares equal to
    [v]. *)
Theorem set_refines_sorted_list {T} (compareFn : CompareFn T)
    (calls : list (method T)) :
  lawful compareFn ->
  exists this, run (new compareFn) calls = Some this /\
    iterate this = fold_left (replay compareFn) calls [] /\
    sorted compareFn (iterate this) /\
    forall v, contains this v = true <->
              present compareFn v (fold_left (replay compareFn) calls []).
Proof.
  intros Hlaw.
  destruct (run_replay calls (new compareFn) Hlaw (new_valid compareFn))
    as (this & E & Hv & Hc & Hel).
  cbn [new _compareFn] in Hc, Hel. change (values (new compareFn)) with (@nil T) in Hel.
  assert (Hlaw' : lawful (_compareFn this)) by now rewrite Hc.
  exists this. split; [exact E|]. rewrite iterate_values.
  split; [exact Hel|]. split.
  - apply (valid_iff _ Hlaw') in Hv. rewrite Hc in Hv. tauto.
  - intros v. rewrite <- Hel, <- Hc. now apply contains_present.
Qed.

Lemma set_refines_sorted_list_witness :
  exists this,
    run (new numCompare) [Add 8; Add 5; Add 8; DeleteMin; Add 1; Delete 7]
    = Some this /\
    iterate this
    = fold_left (replay numCompare)
        [Add 8; Add 5; Add 8; DeleteMin; Add 1; Delete 7] [] /\
    sorted numCompare (iterate this) /\
    forall v, contains this v = true <->
              present numCompare v
                (fold_left (replay numCompare)
                   [Add 8; Add 5; Add 8; DeleteMin; Add 1; Delete 7] []).
Proof.
  apply (set_refines_sorted_list numCompare). exact numCompare_lawful.
Defined.

(** ** [add] *)

(** X3.  [add(v)] on a set that keeps invariants 1 to 5 returns, keeps them, and
    afterwards [has(v)] is [true]; [has(w)] is as before for every [w] that
    does not compare equal to [v]; the number of values has grown by one if
    [has(v)] was [false], and not at all if it was [true]. *)
Theorem add_then_has {T} (this : SortedSet T) (v : T) :
  lawful (_compareFn this) -> valid this ->
  exists this', add this v = Returns tt this' /\ valid this' /\
    contains this' v = true /\
    (forall w, _compareFn this w v <> 0 -> contains this' w = contains this w) /\
    length (iterate this')
    = if contains this v then length (iterate this)
      else S (length (iterate this)).
Proof.
  intros Hlaw Hv.
  destruct (add_spec this v Hlaw Hv) as (this' & E & Hv' & Hc & Hel).
  assert (Hlaw' : lawful (_compareFn this')) by now rewrite Hc.
  exists this'. split; [exact E|]. split; [exact Hv'|]. split; [|split].
  - apply (contains_present _ _ Hlaw' Hv'). rewrite Hc, Hel.
    apply (present_ins_list _ Hlaw). left. apply (cmp_refl _ Hlaw).
  - intros w Hw. apply (contains_same this this' w Hlaw Hv Hv' Hc).
    rewrite Hel, (present_ins_list _ Hlaw). tauto.
  - rewrite !iterate_values, Hel.
    pose proof (proj1 (valid_iff _ Hlaw) Hv) as (Hs & _).
    destruct (length_ins_list _ Hlaw v _ Hs) as [Hp Hn].
    pose proof (contains_present this v Hlaw Hv) as Hcp.
    destruct (contains this v).
    + apply Hp. now apply Hcp.
    + apply Hn. intros P. apply Hcp in P. discriminate.
Qed.

Lemma add_then_has_witness :
  exists this', add twoValues 3 = Returns tt this' /\ valid this' /\
    contains this' 3 = true /\
    (forall w, numCompare w 3 <> 0 -> contains this' w = contains twoValues w) /\
    length (iterate this')
    = if contains twoValues 3 then length (iterate twoValues)
      else S (length (iterate twoValues)).
Proof.
  apply (add_then_has twoValues 3).
  - exact numCompare_lawful.
  - exact twoValues_valid.
Defined.

(** ** [delete] *)

(** X4.  [delete(v)] on a set that keeps invariants 1 to 5 returns what [has(v)]
    returned before the call, keeps the invariants, and afterwards [has(v)]
    is [false]; [has(w)] is as before for every [w] that does not compare
    equal to [v]; the number of values has dropped by one if [has(v)] was
    [true], and not at all if it was [false]. *)
Theorem delete_then_has {T} (this : SortedSet T) (v : T) :
  lawful (_compareFn this) -> valid this ->
  exists this', delete this v = Returns (contains this v) this' /\
    valid this' /\ contains this' v = false /\
    (forall w, _compareFn this w v <> 0 -> contains this' w = contains this w) /\
    length (iterate this)
    = if contains this v then S (length (iterate this'))
      else length (iterate this').
Proof.
  intros Hlaw Hv.
  destruct (delete_spec this v Hlaw Hv)
    as [[Hc E]|[Hc (this' & E & Hv' & Hcmp & Hel)]]; rewrite Hc.
  - exists this. split; [exact E|]. split; [exact Hv|]. auto.
  - assert (Hlaw' : lawful (_compareFn this')) by now rewrite Hcmp.
    pose proof (proj1 (valid_iff _ Hlaw) Hv) as (Hs & _).
    exists this'. split; [exact E|]. split; [exact Hv'|]. split; [|split].
    + destruct (contains this' v) eqn:Hc'; [|reflexivity]. exfalso.
      apply (contains_present _ _ Hlaw' Hv') in Hc'. rewrite Hcmp, Hel in Hc'.
      apply (present_del_list _ Hlaw) in Hc'; [|exact Hs].
      destruct Hc' as [Hne _]. apply Hne. apply (cmp_refl _ Hlaw).
    + intros w Hw. apply (contains_same this this' w Hlaw Hv Hv' Hcmp).
      rewrite Hel, (present_del_list _ Hlaw) by exact Hs. tauto.
    + rewrite !iterate_values, Hel. symmetry.
      apply SetProperties.length_del_list.
      now apply (contains_present _ _ Hlaw Hv).
Qed.

Lemma delete_then_has_witness :
  exists this', delete twoValues 1 = Returns (contains twoValues 1) this' /\
    valid this' /\ contains this' 1 = false /\
    (forall w, numCompare w 1 <> 0 -> contains this' w = contains twoValues w) /\
    length (iterate twoValues)
    = if contains twoValues 1 then S (length (iterate this'))
      else length (iterate this').
Proof.
  apply (delete_then_has twoValues 1).
  - exact numCompare_lawful.
  - exact twoValues_valid.
Defined.

(** X5.  [add(v)] of a value the set does not have, followed by [delete(v)],
    leaves a set with the values it had, in the same order. *)
Theorem add_delete_round_trip {T} (this : SortedSet T) (v : T) :
  lawful (_compareFn this) -> valid this -> contains this v = false ->
  exists this1 this2,
    add this v = Returns tt this1 /\ delete this1 v = Returns true this2 /\
    valid this2 /\ iterate this2 = iterate this.
Proof.
  intros Hlaw Hv Hc.
  destruct (add_spec this v Hlaw Hv) as (this1 & E1 & Hv1 & Hc1 & Hel1).
  assert (Hlaw1 : lawful (_compareFn this1)) by now rewrite Hc1.
  assert (Hin : contains this1 v = true).
  { apply (contains_present _ _ Hlaw1 Hv1). rewrite Hc1, Hel1.
    apply (present_ins_list _ Hlaw). left. apply (cmp_refl _ Hlaw). }
  destruct (delete_spec this1 v Hlaw1 Hv1)
    as [[Hc' _]|[_ (this2 & E2 & Hv2 & Hc2 & Hel2)]]; [congruence|].
  exists this1, this2. split; [exact E1|]. split; [exact E2|].
  split; [exact Hv2|]. rewrite !iterate_values, Hel2, Hc1, Hel1.
  pose proof (proj1 (valid_iff _ Hlaw) Hv) as (Hs & _).
  apply del_ins_list; [exact Hlaw|exact Hs|].
  intros P. apply (contains_present _ _ Hlaw Hv) in P. congruence.
Qed.

Lemma add_delete_round_trip_witness :
  exists this1 this2,
    add twoValues 0 = Returns tt this1 /\ delete this1 0 = Returns true this2 /\
    valid this2 /\ iterate this2 = iterate twoValues.
Proof.
  apply (add_delete_round_trip twoValues 0).
  - exact numCompare_lawful.
  - exact twoValues_valid.
  - reflexivity.
Defined.

(** ** [deleteMin] and [deleteMax] *)

(** X6.  On a set that keeps invariants 1 to 5 and is not empty, [deleteMin()]
    removes the value that [min()] returns and no other: it returns, keeps
    the invariants, iteration before the call yields that value followed by
    what iteration yields after it, [has] of that value has become [false]
    and [has(w)] is as before for every other [w]. *)
Theorem deleteMin_removes_min {T} (this : SortedSet T) :
  lawful (_compareFn this) -> valid this -> isEmpty this = false ->
  exists m this',
    minOf this = Returns m this /\ deleteMinOf this = Returns tt this' /\
    valid this' /\ iterate this = m :: iterate this' /\
    contains this' m = false /\
    (forall w, _compareFn this w m <> 0 -> contains this' w = contains this w).
Proof.
  intros Hlaw Hv He.
  destruct (deleteMinOf_min this Hlaw Hv He) as (m & this' & H).
  exists m, this'. tauto.
Qed.

Lemma deleteMin_removes_min_witness :
  exists m this',
    minOf twoValues = Returns m twoValues /\
    deleteMinOf twoValues = Returns tt this' /\
    valid this' /\ iterate twoValues = m :: iterate this' /\
    contains this' m = false /\
    (forall w, numCompare w m <> 0 -> contains this' w = contains twoValues w).
Proof.
  apply (deleteMin_removes_min twoValues).
  - exact numCompare_lawful.
  - exact twoValues_valid.
  - reflexivity.
Defined.

(** X7.  On a set that keeps invariants 1 to 5 and is not empty, [deleteMax()]
    removes the value that [max()] returns and no other: iteration before
    the call yields what iteration yields after it, followed by that
    value. *)
Theorem deleteMax_removes_max {T} (this : SortedSet T) :
  lawful (_compareFn this) -> valid this -> isEmpty this = false ->
  exists m this',
    maxOf this = Returns m this /\ deleteMaxOf this = Returns tt this' /\
    valid this' /\ iterate this = iterate this' ++ [m] /\
    contains this' m = false /\
    (forall w, _compareFn this w m <> 0 -> contains this' w = contains this w).
Proof.
  intros Hlaw Hv He.
  destruct (deleteMaxOf_max this Hlaw Hv He) as (m & this' & H).
  exists m, this'. tauto.
Qed.

Lemma deleteMax_removes_max_witness :
  exists m this',
    maxOf twoValues = Returns m twoValues /\
    deleteMaxOf twoValues = Returns tt this' /\
    valid this' /\ iterate twoValues = iterate this' ++ [m] /\
    contains this' m = false /\
    (forall w, numCompare w m <> 0 -> contains this' w = contains twoValues w).
Proof.
  apply (deleteMax_removes_max twoValues).
  - exact numCompare_lawful.
  - exact twoValues_valid.
  - reflexivity.
Defined.

(** ** Queries and iteration *)

(** X8.  On a tree in BST order, [has(v)] tells whether iteration yields a value
    that compares equal to [v].  On every tree, [isEmpty()] tells whether
    iteration yields nothing, [min()] returns the first value that iteration
    yields and [max()] the last. *)
Theorem queries_read_iteration {T} (this : SortedSet T) (v : T) :
  lawful (_compareFn this) -> bstOrder (_compareFn this) (_root this) ->
  (contains this v = true <->
   exists w, In w (iterate this) /\ _compareFn this v w = 0) /\
  (isEmpty this = true <-> iterate this = []) /\
  (forall m rest, iterate this = m :: rest -> minOf this = Returns m this) /\
  (forall front m, iterate this = front ++ [m] ->
     maxOf this = Returns m this).
Proof.
  intros Hlaw Hb. rewrite iterate_values. unfold values.
  split; [|split; [|split]].
  - unfold contains. rewrite (has_present _ Hlaw).
    + unfold present. now rewrite Exists_exists.
    + now apply (bstOrder_sorted _ Hlaw).
  - unfold isEmpty. destruct (_root this) as [|x l r c s]; cbn.
    + tauto.
    + split; [discriminate|]. intros H. now destruct (elements l).
  - intros m rest H. unfold minOf, isEmpty.
    destruct (_root this) as [|x l r c s]; [discriminate|].
    destruct (min_spec x l r c s) as (mv & ml & mr & mc & ms & Em & Hm).
    cbn [isNode negb]. rewrite Em. cbn [bind getValue].
    rewrite Hm in H. now inversion H.
  - intros front m H. unfold maxOf, isEmpty.
    destruct (_root this) as [|x l r c s] eqn:Hroot; [now destruct front|].
    destruct (max_last (mkNode x l r c s) eq_refl)
      as (mv & ml & mr & mc & ms & front' & Em & Hm).
    cbn [isNode negb]. rewrite Em. cbn [bind getValue].
    rewrite Hm in H. apply app_inj_tail in H. now destruct H as [_ ->].
Qed.

Lemma queries_read_iteration_witness :
  (contains twoValues 2 = true <->
   exists w, In w (iterate twoValues) /\ numCompare 2 w = 0) /\
  (isEmpty twoValues = true <-> iterate twoValues = []) /\
  (forall m rest, iterate twoValues = m :: rest ->
     minOf twoValues = Returns m twoValues) /\
  (forall front m, iterate twoValues = front ++ [m] ->
     maxOf twoValues = Returns m twoValues).
Proof.
  apply (queries_read_iteration twoValues 2).
  - exact numCompare_lawful.
  - cbn. unfold numCompare. repeat constructor.
Defined.

(** ** Height of the tree *)

(** X9.  After any sequence of public calls on a new set, the height [h] of the
    tree and the number [n] of values satisfy [2 ^ h <= (n + 1) ^ 2], that
    is [h <= 2 log2 (n + 1)]: a search visits a number of nodes that is
    logarithmic in the number of values. *)
Theorem height_is_logarithmic {T} (compareFn : CompareFn T)
    (calls : list (method T)) :
  lawful compareFn ->
  exists this, run (new compareFn) calls = Some this /\
    (2 ^ height (_root this) <= (length (iterate this) + 1) ^ 2)%nat.
Proof.
  intros Hlaw.
  destruct (run_valid (new compareFn) calls Hlaw (new_valid compareFn))
    as (this & E & Hv & Hc).
  exists this. split; [exact E|].
  assert (Hlaw' : lawful (_compareFn this)) by now rewrite Hc.
  apply (valid_iff _ Hlaw') in Hv. destruct Hv as (_ & [n Hn] & Hb).
  destruct (llrb_height _ _ Hn) as [Hh Hcount]. rewrite Hb in Hh.
  rewrite iterate_values. unfold values. rewrite <- count_elements.
  apply Nat.le_trans with (2 ^ (2 * n))%nat.
  - apply Nat.pow_le_mono_r; lia.
  - rewrite Nat.pow_mul_r. replace (2 ^ 2)%nat with 4%nat by reflexivity.
    replace 4%nat with (2 ^ 2)%nat by reflexivity.
    rewrite <- Nat.pow_mul_r, Nat.mul_comm, Nat.pow_mul_r.
    apply Nat.pow_le_mono_l. exact Hcount.
Qed.

Lemma height_is_logarithmic_witness :
  exists this,
    run (new numCompare) [Add 1; Add 2; Add 3; Add 4; Add 5; Add 6; Add 7]
    = Some this /\
    (2 ^ height (_root this) <= (length (iterate this) + 1) ^ 2)%nat.
Proof.
  apply (height_is_logarithmic numCompare). exact numCompare_lawful.
Defined.

(** ** The rebalancing steps *)

(** X10.  A rotation, a color flip, [moveRedLeft], [moveRedRight] and [balance],
    when they return, return a subtree with the same in-order sequence and
    the same number of nodes. *)
Theorem rebalancing_keeps_order {T} (t t' : Node T) :
  rotateLeft t = Ok t' \/ rotateRight t = Ok t' \/ flipColors t = Ok t' \/
  moveRedLeft t = Ok t' \/ moveRedRight t = Ok t' \/ balance t = Ok t' ->
  createSnapshot t' = createSnapshot t /\ count t' = count t.
Proof.
  intros H. rewrite !createSnapshot_elements, !count_elements.
  assert (E : elements t' = elements t).
  { destruct H as [H|[H|[H|[H|[H|H]]]]].
    - now apply rotateLeft_elements.
    - now apply rotateRight_elements.
    - now apply flipColors_elements.
    - now apply moveRedLeft_elements.
    - now apply moveRedRight_elements.
    - now apply balance_elements. }
  now rewrite E.
Qed.

Lemma rebalancing_keeps_order_witness :
  let t := mkNode 1 null (mkNode 2 null null RED 1) BLACK 1 in
  let t' := mkNode 2 (mkNode 1 null null RED 1) null BLACK 1 in
  createSnapshot t' = createSnapshot t /\ count t' = count t.
Proof.
  intros t t'. apply (rebalancing_keeps_order t t').
  right. right. right. right. right. reflexivity.
Defined.

(** X11.  [rotateRight] undoes [rotateLeft] and [rotateLeft] undoes
    [rotateRight], when the size field of the child that the first rotation
    lifts is the sum of those of its children plus one; [flipColors] undoes
    itself. *)
Theorem rebalancing_steps_undo {T} (t t' : Node T) :
  (rotateLeft t = Ok t' -> sizeOk (right t) -> rotateRight t' = Ok t) /\
  (rotateRight t = Ok t' -> sizeOk (left t) -> rotateLeft t' = Ok t) /\
  (flipColors t = Ok t' -> flipColors t' = Ok t).
Proof.
  unfold sizeOk. split; [|split].
  - destruct t as [|v l [|rv rl rr rc rs] c s]; cbn; try discriminate.
    rewrite isRed_mkNode. destruct rc; cbn; [|discriminate].
    intros H Hs. injection H as <-. cbn in Hs. cbn.
    rewrite isRed_mkNode. cbn. now rewrite Hs.
  - destruct t as [|v [|lv ll lr lc ls] r c s]; cbn; try discriminate.
    rewrite isRed_mkNode. destruct lc; cbn; [|discriminate].
    intros H Hs. injection H as <-. cbn in Hs. cbn.
    rewrite isRed_mkNode. cbn. now rewrite Hs.
  - destruct t as [|v [|lv ll lr lc ls] [|rv rl rr rc rs] c s]; cbn;
      try discriminate.
    rewrite !isRed_mkNode. destruct lc, rc, c; cbn; try discriminate;
      intros H; inversion H; subst; clear H; cbn; rewrite !isRed_mkNode;
      reflexivity.
Qed.

Lemma rebalancing_steps_undo_witness :
  let t := mkNode 1 null (mkNode 2 null null RED 1) BLACK 2 in
  let t' := mkNode 2 (mkNode 1 null null RED 1) null BLACK 2 in
  rotateLeft t = Ok t' /\ rotateRight t' = Ok t.
Proof.
  intros t t'. split; [reflexivity|].
  apply (proj1 (rebalancing_steps_undo t t')); reflexivity.
Defined.

(** ** Emptying a set from one end *)

(** X16.  On a set that keeps invariants 1 to 5, a caller who calls [min()] and
    then [deleteMin()], [n] times, collects the first [n] values that
    iteration yields, in that order; with [max()] and [deleteMax()], the
    last [n] values, the greatest first. *)
Theorem taking_extremes_sorts {T} (this : SortedSet T) (n : nat) :
  lawful (_compareFn this) -> valid this ->
  takeMins n this = firstn n (iterate this) /\
  takeMaxs n this = firstn n (rev (iterate this)).
Proof.
  intros Hlaw Hv. rewrite iterate_values. split.
  - now apply takeMins_values.
  - now apply takeMaxs_values.
Qed.

Lemma taking_extremes_sorts_witness :
  takeMins 2 twoValues = firstn 2 (iterate twoValues) /\
  takeMaxs 2 twoValues = firstn 2 (rev (iterate twoValues)).
Proof.
  apply (taking_extremes_sorts twoValues 2).
  - exact numCompare_lawful.
  - exact twoValues_valid.
Defined.

(** ** Order of the calls *)

(** X18.  On a set that keeps invariants 1 to 5, adding two values that do not
    compare equal gives the same values, in the same order, whichever is
    added first. *)
Theorem adds_commute {T} (this : SortedSet T) (a b : T) :
  lawful (_compareFn this) -> valid this -> _compareFn this a b <> 0 ->
  exists this1 this2,
    run this [Add a; Add b] = Some this1 /\
    run this [Add b; Add a] = Some this2 /\
    iterate this1 = iterate this2.
Proof.
  intros Hlaw Hv Hab.
  destruct (run_replay [Add a; Add b] this Hlaw Hv) as (this1 & E1 & _ & _ & H1).
  destruct (run_replay [Add b; Add a] this Hlaw Hv) as (this2 & E2 & _ & _ & H2).
  exists this1, this2. split; [exact E1|]. split; [exact E2|].
  rewrite !iterate_values, H1, H2. cbn [fold_left replay].
  pose proof (proj1 (valid_iff _ Hlaw) Hv) as (Hs & _).
  symmetry. apply ins_list_comm; assumption.
Qed.

Lemma adds_commute_witness :
  exists this1 this2,
    run twoValues [Add 5; Add 0] = Some this1 /\
    run twoValues [Add 0; Add 5] = Some this2 /\
    iterate this1 = iterate this2.
Proof.
  apply (adds_commute twoValues 5 0).
  - exact numCompare_lawful.
  - exact twoValues_valid.
  - discriminate.
Defined.

(** X19.  On a non-empty set that keeps invariants 1 to 5, [deleteMin()] leaves
    the values that [delete(min())] leaves, and [deleteMax()] those that
    [delete(max())] leaves. *)
Theorem deleting_an_extreme_is_delete {T} (this : SortedSet T) :
  lawful (_compareFn this) -> valid this -> isEmpty this = false ->
  (exists m this1 this2,
     minOf this = Returns m this /\ deleteMinOf this = Returns tt this1 /\
     delete this m = Returns true this2 /\ iterate this1 = iterate this2) /\
  (exists m this1 this2,
     maxOf this = Returns m this /\ deleteMaxOf this = Returns tt this1 /\
     delete this m = Returns true this2 /\ iterate this1 = iterate this2).
Proof.
  intros Hlaw Hv He.
  pose proof (proj1 (valid_iff _ Hlaw) Hv) as (Hs & _).
  split.
  - destruct (deleteMinOf_min this Hlaw Hv He)
      as (m & this1 & Em & Ed & Hv1 & Hit & Hc1 & _ & Hc).
    rewrite !iterate_values in Hit.
    destruct (delete_spec this m Hlaw Hv)
      as [[Hn _]|[_ (this2 & E2 & _ & _ & Hel)]].
    + exfalso. assert (P : contains this m = true); [|congruence].
      apply (contains_present _ _ Hlaw Hv). rewrite Hit.
      apply (present_cons (_compareFn this)). left. apply (cmp_refl _ Hlaw).
    + exists m, this1, this2. repeat (split; [assumption|]).
      rewrite !iterate_values, Hel, Hit. cbn [del_list].
      now rewrite (cmp_refl _ Hlaw).
  - destruct (deleteMaxOf_max this Hlaw Hv He)
      as (m & this1 & Em & Ed & Hv1 & Hit & Hc1 & _ & Hc).
    rewrite !iterate_values in Hit.
    assert (Hlaw1 : lawful (_compareFn this1)) by now rewrite Hc.
    destruct (delete_spec this m Hlaw Hv)
      as [[Hn _]|[_ (this2 & E2 & _ & _ & Hel)]].
    + exfalso. assert (P : contains this m = true); [|congruence].
      apply (contains_present _ _ Hlaw Hv). rewrite Hit.
      apply (present_app (_compareFn this)). right.
      apply (present_cons (_compareFn this)). left. apply (cmp_refl _ Hlaw).
    + exists m, this1, this2. repeat (split; [assumption|]).
      rewrite !iterate_values, Hel, Hit.
      rewrite del_list_app_right.
      * cbn [del_list]. now rewrite (cmp_refl _ Hlaw), app_nil_r.
      * intros P. rewrite <- Hc in P.
        apply (contains_present _ _ Hlaw1 Hv1) in P. congruence.
Qed.

Lemma deleting_an_extreme_is_delete_witness :
  (exists m this1 this2,
     minOf twoValues = Returns m twoValues /\
     deleteMinOf twoValues = Returns tt this1 /\
     delete twoValues m = Returns true this2 /\
     iterate this1 = iterate this2) /\
  (exists m this1 this2,
     maxOf twoValues = Returns m twoValues /\
     deleteMaxOf twoValues = Returns tt this1 /\
     delete twoValues m = Returns true this2 /\
     iterate this1 = iterate this2).
Proof.
  apply (deleting_an_extreme_is_delete twoValues).
  - exact numCompare_lawful.
  - exact twoValues_valid.
  - reflexivity.
Defined.

End SetBehaviour.


(** * The sorted set: the size field of the root *)

Module SetSizes.
Import SortedSet SetSpec SetModel SetFacts SetClass.

Section Sizes.
Context {T : Type}.
Implicit Types (t l r : Node T).

(** Inversion of a computation that returned. *)
Ltac unwind :=
  repeat match goal with
  | H : Ok _ = Ok _ |- _ => injection H as <-
  | H : Throw _ = Ok _ |- _ => discriminate H
  | H : bind ?m _ = Ok _ |- _ => destruct m eqn:?; cbn [bind] in H
  | H : (if ?c then _ else _) = Ok _ |- _ => destruct c eqn:?
  | H : match ?t with null => _ | mkNode _ _ _ _ _ => _ end = Ok _ |- _ =>
      destruct t
  end.

(** Uses the lemma [L] on a helper call of the context. *)
Ltac via L :=
  match goal with
  | H : _ = Ok ?y |- _ =>
      let E := fresh "E" in
      pose proof (L _ _ H) as E; cbn [size] in E; clear H
  end.

Ltac done := cbn [size isNode] in *; solve [congruence | lia | auto].

(** The local root that a rotation or a color flip returns has the size
    field of the local root it was given. *)
Lemma rotateLeft_size t t' : rotateLeft t = Ok t' -> size t' = size t.
Proof. intros H. unfold rotateLeft in H. unwind. reflexivity. Qed.

Lemma rotateRight_size t t' : rotateRight t = Ok t' -> size t' = size t.
Proof. intros H. unfold rotateRight in H. unwind. reflexivity. Qed.

Lemma flipColors_size t t' : flipColors t = Ok t' -> size t' = size t.
Proof. intros H. unfold flipColors in H. unwind. reflexivity. Qed.

Ltac steps :=
  repeat first [via flipColors_size | via rotateRight_size
               | via rotateLeft_size].

Lemma moveRedLeft_size t t' : moveRedLeft t = Ok t' -> size t' = size t.
Proof. intros H. unfold moveRedLeft in H. unwind; steps; done. Qed.

Lemma moveRedRight_size t t' : moveRedRight t = Ok t' -> size t' = size t.
Proof. intros H. unfold moveRedRight in H. unwind; steps; done. Qed.

Lemma balance_size t t' : balance t = Ok t' -> size t' = size t.
Proof. intros H. unfold balance in H. unwind; steps; done. Qed.

Ltac helpers :=
  repeat first [via flipColors_size | via rotateRight_size
               | via rotateLeft_size | via moveRedLeft_size
               | via moveRedRight_size | via balance_size].

(** [insert] returns a node: a new one of size 1 for an absent root, and
    otherwise one with the size field of the root. *)
Lemma insert_size (compareFn : CompareFn T) x t t' :
  insert t compareFn x = Ok t' ->
  isNode t' = true /\ size t' = if isNode t then size t else 1.
Proof.
  destruct t as [|v l r c s]; intros H; cbn [insert] in H.
  - unwind. split; reflexivity.
  - assert (E : size t' = s) by (unwind; helpers; done).
    assert (exists n, balance n = Ok t' /\ isNode n = true) as (n & Hb & Hn)
      by (unwind; eexists; split; try eassumption; reflexivity).
    split; [|exact E]. unfold balance in Hb.
    destruct n; [discriminate|]. unwind;
      repeat match goal with
      | H : rotateLeft _ = Ok _ |- _ => unfold rotateLeft in H; unwind
      | H : rotateRight _ = Ok _ |- _ => unfold rotateRight in H; unwind
      | H : flipColors _ = Ok _ |- _ => unfold flipColors in H; unwind
      end; reflexivity.
Qed.

(** The deleting functions return an absent subtree, or a local root with
    the size field of the local root they were given. *)
Lemma deleteMin_fuel_size fuel : forall t t',
  deleteMin_fuel fuel t = Ok t' -> isNode t' = false \/ size t' = size t.
Proof.
  destruct fuel as [|fuel]; intros t t' H; cbn [deleteMin_fuel] in H;
    [discriminate|].
  unwind; helpers; first [left; reflexivity | right; done].
Qed.

Lemma deleteMax_fuel_size fuel : forall t t',
  deleteMax_fuel fuel t = Ok t' -> isNode t' = false \/ size t' = size t.
Proof.
  destruct fuel as [|fuel]; intros t t' H; cbn [deleteMax_fuel] in H;
    [discriminate|].
  unwind; helpers; first [left; reflexivity | right; done].
Qed.

Lemma remove_fuel_size (compareFn : CompareFn T) x fuel : forall t t',
  remove_fuel fuel t compareFn x = Ok t' ->
  isNode t' = false \/ size t' = size t.
Proof.
  destruct fuel as [|fuel]; intros t t' H; cbn [remove_fuel] in H;
    [discriminate|].
  unwind; helpers; first [left; reflexivity | right; done].
Qed.

Lemma deleting_size (helper : Node T -> res (Node T)) t t' :
  (forall a b, helper a = Ok b -> isNode b = false \/ size b = size a) ->
  deleting t helper = Ok t' -> isNode t' = false \/ size t' = size t.
Proof.
  intros Hh H. unfold deleting, setColor in H.
  destruct t as [|v l r c s]; [discriminate|].
  destruct (negb (isRed l) && negb (isRed r)); unwind;
    match goal with
    | H : helper _ = Ok _ |- _ => apply Hh in H; destruct H as [H|H]
    end; first [left; done | right; done].
Qed.

Lemma deleting_root (helper : Node T -> res (Node T)) t t' :
  (forall a b, helper a = Ok b -> isNode b = false \/ size b = size a) ->
  size t = (if isNode t then 1 else 0) ->
  deleting t helper = Ok t' -> size t' = if isNode t' then 1 else 0.
Proof.
  intros Hh Ht H.
  assert (Hn : isNode t = true) by (destruct t; [discriminate|reflexivity]).
  rewrite Hn in Ht.
  destruct (deleting_size helper t t' Hh H) as [E|E].
  - rewrite E. now destruct t'.
  - destruct t'; [reflexivity|]. cbn [isNode]. congruence.
Qed.

(** Every public call that returns or throws leaves a root whose size field
    is 1, or no root. *)
Lemma call_root_size (this : SortedSet T) m (o : result T) this' :
  sizeOf this = (if isEmpty this then 0 else 1) ->
  call this m = Returns o this' \/ (exists e, call this m = Throws e this') ->
  sizeOf this' = if isEmpty this' then 0 else 1.
Proof.
  intros P.
  assert (P' : size (_root this) = if isNode (_root this) then 1 else 0)
    by (unfold sizeOf, isEmpty in P; destruct (isNode (_root this)); exact P).
  pose (Inv := fun this0 : SortedSet T =>
                sizeOf this0 = if isEmpty this0 then 0 else 1).
  assert (Hnew : forall t, size t = (if isNode t then 1 else 0) ->
                           Inv (setRoot this t))
    by (intros t Ht; unfold Inv, sizeOf, isEmpty; cbn; rewrite Ht;
        now destruct (isNode t)).
  change (Inv this) in P.
  change (call this m = Returns o this' \/
          (exists e, call this m = Throws e this') -> Inv this').
  destruct m; cbn [call].
  - unfold add, finish, setColor.
    destruct (insert (_root this) (_compareFn this) value) as [t|e] eqn:E;
      cbn [bind returning]; [|intros [H|[e' H]]; discriminate].
    destruct (insert_size _ _ _ _ E) as [Hn Hs].
    destruct t as [|v l r c s]; [discriminate|]. cbn.
    intros [H|[e' H]]; inversion H; subst. apply Hnew. cbn. cbn in Hs.
    rewrite Hs. destruct (isNode (_root this)); [exact P'|reflexivity].
  - unfold delete, finish.
    destruct (negb (contains this value));
      [cbn; intros [H|[e' H]]; inversion H; subst; exact P|].
    destruct (deleting (_root this)
                (fun root => remove root (_compareFn this) value)) as [t|e] eqn:E;
      cbn [bind returning]; intros [H|[e' H]]; inversion H; subst.
    apply Hnew.
    exact (deleting_root _ _ _ (fun a b => remove_fuel_size _ _ _ a b) P' E).
  - unfold deleteMinOf, finish. destruct (isEmpty this);
      [cbn; intros [H|[e' H]]; inversion H; subst; exact P|].
    destruct (deleting (_root this) deleteMin) as [t|e] eqn:E;
      cbn [bind returning]; intros [H|[e' H]]; inversion H; subst.
    apply Hnew.
    exact (deleting_root _ _ _ (fun a b => deleteMin_fuel_size _ a b) P' E).
  - unfold deleteMaxOf, finish. destruct (isEmpty this);
      [cbn; intros [H|[e' H]]; inversion H; subst; exact P|].
    destruct (deleting (_root this) deleteMax) as [t|e] eqn:E;
      cbn [bind returning]; intros [H|[e' H]]; inversion H; subst.
    apply Hnew.
    exact (deleting_root _ _ _ (fun a b => deleteMax_fuel_size _ a b) P' E).
  - intros [H|[e H]]; inversion H; subst. reflexivity.
  - intros [H|[e H]]; inversion H; subst. exact P.
  - intros [H|[e H]]; inversion H; subst. exact P.
  - intros [H|[e H]]; inversion H; subst. exact P.
  - unfold minOf. destruct (isEmpty this);
      [|destruct (node <- min (_root this);; getValue node)]; cbn;
      intros [H|[e' H]]; inversion H; subst; exact P.
  - unfold maxOf. destruct (isEmpty this);
      [|destruct (node <- max (_root this);; getValue node)]; cbn;
      intros [H|[e' H]]; inversion H; subst; exact P.
  - unfold floorOf. destruct (isEmpty this);
      [|destruct (floor (_root this) (_compareFn this) value)]; cbn;
      intros [H|[e' H]]; inversion H; subst; exact P.
  - unfold ceilingOf. destruct (isEmpty this);
      [|destruct (ceiling (_root this) (_compareFn this) value)]; cbn;
      intros [H|[e' H]]; inversion H; subst; exact P.
  - intros [H|[e H]]; inversion H; subst. exact P.
Qed.

Lemma run_root_size calls : forall (this this' : SortedSet T),
  sizeOf this = (if isEmpty this then 0 else 1) ->
  run this calls = Some this' ->
  sizeOf this' = if isEmpty this' then 0 else 1.
Proof.
  induction calls as [|m calls IH]; intros this this' P H; cbn [run] in H.
  - now inversion H; subst.
  - destruct (call this m) as [o this1|e this1|e] eqn:E; [| |discriminate].
    + apply (IH this1); [|exact H].
      apply (call_root_size this m o this1 P). now left.
    + apply (IH this1); [|exact H].
      apply (call_root_size this m RVoid this1 P). right. now exists e.
Qed.

End Sizes.
(** ** What [size()] returns *)

(** X12.  After any sequence of public calls on a new set, [size()] returns [0] if
    the set is empty and [1] if it is not, however many values it has: a new
    node has size 1, a rotation hands the size field of the root to the new
    root, and nothing else writes the size field of the root. *)
Theorem size_is_zero_or_one {T} (compareFn : CompareFn T)
    (calls : list (method T)) :
  lawful compareFn ->
  exists this, run (new compareFn) calls = Some this /\
    sizeOf this = if isEmpty this then 0 else 1.
Proof.
  intros Hlaw.
  destruct (run_valid (new compareFn) calls Hlaw (new_valid compareFn))
    as (this & E & _).
  exists this. split; [exact E|].
  now apply (run_root_size calls (new compareFn) this).
Qed.

Lemma size_is_zero_or_one_witness :
  exists this,
    run (new numCompare) [Add 8; Add 5; Add 1; Add 4; Add 6; Delete 5] = Some this /\
    sizeOf this = if isEmpty this then 0 else 1.
Proof.
  apply (size_is_zero_or_one numCompare). exact numCompare_lawful.
Defined.

End SetSizes.


(** * The sorted map: lookups and iteration *)

Module MapLookup.
Import SortedMap MapSpec MapLists MapFacts.

Section Lookup.
Context {K V : Type} (compareFn : CompareFn K).
Implicit Types (t : Node K V) (l : list (K * option V)).

(** [get] and [has] descend the same way. *)
Lemma get_has t key :
  match get t compareFn key with
  | Ok _ => has t compareFn key = true
  | Throw e =>
      e = NoSuchElementError String.EmptyString /\ has t compareFn key = false
  end.
Proof.
  induction t as [|k v l IHl r IHr c s]; cbn [get has]; [now split|].
  destruct (compareFn key k <? 0); [exact IHl|].
  destruct (compareFn key k >? 0); [exact IHr|reflexivity].
Qed.

Lemma assoc_Some_In key v l :
  assoc compareFn key l = Some v ->
  exists k, In (k, v) l /\ compareFn key k = 0.
Proof.
  induction l as [|[k0 v0] l IH]; cbn [assoc]; [discriminate|].
  destruct (Z.eqb_spec (compareFn key k0) 0) as [E|E].
  - intros H. inversion H; subst. exists k0. split; [now left|exact E].
  - intros H. destruct (IH H) as (k & Hin & Hk). exists k. split; [now right|exact Hk].
Qed.

Lemma assoc_In (Hlaw : lawful compareFn) k v l :
  sorted (@entryCompare K V compareFn) l -> In (k, v) l ->
  assoc compareFn k l = Some v.
Proof.
  induction l as [|[k0 v0] l IH]; [contradiction|].
  intros [Ha Hs] [H|H]; cbn [assoc].
  - inversion H; subst. now rewrite (cmp_refl _ Hlaw).
  - rewrite Forall_forall in Ha. specialize (Ha _ H).
    unfold lt, entryCompare in Ha. cbn in Ha.
    apply (cmp_gt_lt _ Hlaw) in Ha.
    destruct (Z.eqb_spec (compareFn k k0) 0); [lia|]. now apply IH.
Qed.

Lemma map_min_first t :
  isNode t = true ->
  exists mk mv ml mr mc ms rest,
    min t = Ok (mkNode mk mv ml mr mc ms) /\ entries t = (mk, mv) :: rest.
Proof.
  induction t as [|k v l IHl r _ c s]; [discriminate|]. intros _.
  cbn [min entries]. destruct (isNode l) eqn:El.
  - destruct (IHl eq_refl) as (mk & mv & ml & mr & mc & ms & rest & E & Hel).
    exists mk, mv, ml, mr, mc, ms, (rest ++ (k, v) :: entries r).
    split; [exact E|]. now rewrite Hel.
  - destruct l; [|discriminate].
    exists k, v, null, r, c, s, (entries r). split; reflexivity.
Qed.

Lemma map_max_last t :
  isNode t = true ->
  exists mk mv ml mr mc ms front,
    max t = Ok (mkNode mk mv ml mr mc ms) /\ entries t = front ++ [(mk, mv)].
Proof.
  induction t as [|k v l _ r IHr c s]; [discriminate|]. intros _.
  cbn [max entries]. destruct (isNode r) eqn:Er.
  - destruct (IHr eq_refl) as (mk & mv & ml & mr & mc & ms & front & E & Hel).
    exists mk, mv, ml, mr, mc, ms, (entries l ++ (k, v) :: front).
    split; [exact E|]. rewrite Hel, <- app_assoc. reflexivity.
  - destruct r; [|discriminate].
    exists k, v, l, null, c, s, (entries l). split; reflexivity.
Qed.

End Lookup.

(** ** A missing key *)

(** X13.  On every map, [get] of [BST.ts] returns a value exactly when [has]
    returns [true], and otherwise throws a [NoSuchElementError] without a
    message, which [get] of the class turns into [undefined]. *)
Theorem get_throws_iff_absent {K V} (this : SortedMap K V) (key : K) :
  if contains this key
  then exists v, get (_root this) (_compareFn this) key = Ok v /\
                 lookup this key = v
  else get (_root this) (_compareFn this) key
       = Throw (NoSuchElementError String.EmptyString) /\
       lookup this key = undefined.
Proof.
  unfold contains, lookup.
  pose proof (get_has (_compareFn this) (_root this) key) as H.
  destruct (get (_root this) (_compareFn this) key) as [v|e].
  - rewrite H. now exists v.
  - destruct H as [-> ->]. now split.
Qed.

(** ** Reading and iterating *)

(** X14.  On a map whose tree is in BST order, every entry that iteration yields
    is found by [has] and [get], and every key that [has] finds is equal,
    for the comparator, to the key of an entry that iteration yields, whose
    value [get] returns.  [isEmpty()] tells whether iteration yields
    nothing, [min()] returns the key of the first entry that iteration
    yields and [max()] the key of the last. *)
Theorem map_queries_read_iteration {K V} (this : SortedMap K V) :
  lawful (_compareFn this) ->
  bstOrder (_compareFn this) (_root this) ->
  let yielded := createSnapshot (_root this) in
  (forall k v, In (k, v) yielded ->
     contains this k = true /\ lookup this k = v) /\
  (forall key, contains this key = true ->
     exists k v, In (k, v) yielded /\ _compareFn this key k = 0 /\
                 lookup this key = v) /\
  (isEmpty this = true <-> yielded = []) /\
  (forall k v rest, yielded = (k, v) :: rest -> minOf this = Returns k this) /\
  (forall front k v, yielded = front ++ [(k, v)] ->
     maxOf this = Returns k this).
Proof.
  intros Hlaw Hb yielded. unfold yielded. clear yielded.
  rewrite Queries.createSnapshot_entries.
  assert (Hs : sorted (entryCompare (_compareFn this)) (entries (_root this))).
  { apply (sorted_keys (_compareFn this)).
    now apply (Queries.map_bstOrder_sorted _ Hlaw). }
  unfold contains, lookup.
  split; [|split; [|split; [|split]]].
  - intros k v Hin.
    rewrite (has_assoc _ Hlaw), (get_assoc _ Hlaw) by exact Hs.
    now rewrite (assoc_In _ Hlaw k v _ Hs Hin).
  - intros key. rewrite (has_assoc _ Hlaw), (get_assoc _ Hlaw) by exact Hs.
    destruct (assoc (_compareFn this) key (entries (_root this))) as [v|] eqn:E;
      [|discriminate].
    intros _. destruct (assoc_Some_In _ _ _ _ E) as (k & Hin & Hk).
    now exists k, v.
  - unfold isEmpty. destruct (_root this) as [|k v l r c s]; cbn.
    + tauto.
    + split; [discriminate|]. intros H. now destruct (entries l).
  - intros k v rest H. unfold minOf, isEmpty.
    destruct (_root this) as [|k0 v0 l r c s]; [discriminate|].
    destruct (map_min_first (mkNode k0 v0 l r c s) eq_refl)
      as (mk & mv & ml & mr & mc & ms & rest' & Em & Hm).
    cbn [isNode negb]. rewrite Em. cbn [bind getKey].
    rewrite Hm in H. now inversion H.
  - intros front k v H. unfold maxOf, isEmpty.
    destruct (_root this) as [|k0 v0 l r c s]; [now destruct front|].
    destruct (map_max_last (mkNode k0 v0 l r c s) eq_refl)
      as (mk & mv & ml & mr & mc & ms & front' & Em & Hm).
    cbn [isNode negb]. rewrite Em. cbn [bind getKey].
    rewrite Hm in H. apply app_inj_tail in H. destruct H as [_ H].
    now inversion H.
Qed.

Lemma map_queries_read_iteration_witness :
  let yielded := createSnapshot (_root twoEntries) in
  (forall k v, In (k, v) yielded ->
     contains twoEntries k = true /\ lookup twoEntries k = v) /\
  (forall key, contains twoEntries key = true ->
     exists k v, In (k, v) yielded /\ numCompare key k = 0 /\
                 lookup twoEntries key = v) /\
  (isEmpty twoEntries = true <-> yielded = []) /\
  (forall k v rest, yielded = (k, v) :: rest ->
     minOf twoEntries = Returns k twoEntries) /\
  (forall front k v, yielded = front ++ [(k, v)] ->
     maxOf twoEntries = Returns k twoEntries).
Proof.
  apply (map_queries_read_iteration twoEntries).
  - exact numCompare_lawful.
  - cbn. unfold numCompare. repeat constructor.
Defined.

End MapLookup.


(** * The sorted set: [remove] of a value that is not there *)

Module SetRemove.
Import SortedSet SetSpec SetModel SetFacts SetClass.

Section Remove.
Context {T : Type} (compareFn : CompareFn T).
Implicit Types (t l r : Node T).

Ltac unwind :=
  repeat match goal with
  | H : Ok _ = Ok _ |- _ => injection H as <-
  | H : Throw _ = Ok _ |- _ => discriminate H
  | H : bind ?m _ = Ok _ |- _ => destruct m eqn:?; cbn [bind] in H
  | H : (if ?c then _ else _) = Ok _ |- _ => destruct c eqn:?
  | H : match ?t with null => _ | mkNode _ _ _ _ _ => _ end = Ok _ |- _ =>
      destruct t
  end.

(** The in-order sequences of the trees met on the way. *)
Ltac sequences :=
  repeat match goal with
  | H : rotateRight _ = Ok _ |- _ => apply rotateRight_elements in H
  | H : moveRedLeft _ = Ok _ |- _ => apply moveRedLeft_elements in H
  | H : moveRedRight _ = Ok _ |- _ => apply moveRedRight_elements in H
  | H : (_ =? 0) = true |- _ => apply Z.eqb_eq in H
  | H : (_ && _) = true |- _ => apply andb_prop in H; destruct H
  end;
  cbn [elements] in *;
  repeat match goal with
  | H : _ ++ _ :: _ = _ |- _ => rewrite <- H
  end;
  repeat (rewrite present_app || rewrite present_cons);
  tauto.

Lemma remove_fuel_found x fuel : forall t t',
  remove_fuel fuel t compareFn x = Ok t' -> present compareFn x (elements t).
Proof.
  induction fuel as [|fuel IH]; intros t t' H; cbn [remove_fuel] in H;
    [discriminate|].
  unwind;
    try match goal with
    | H : remove_fuel fuel _ _ _ = Ok _ |- _ => apply IH in H
    end;
    sequences.
Qed.

(** The part shared by the deleting methods, when the helper throws. *)
Lemma deleting_throws (helper : Node T -> res (Node T)) e root n :
  (forall t m, deletable t m -> isRed (right t) = false ->
     elements t = elements root -> helper t = Throw e) ->
  llrb root n -> isRed root = false -> isNode root = true ->
  deleting root helper = Throw e.
Proof.
  intros Hh Hroot Hc Hn. destruct root as [|v l r c s]; [discriminate|].
  rewrite isRed_mkNode in Hc. subst c. inversion Hroot; subst.
  unfold deleting.
  match goal with H : isRed r = false |- _ => rewrite H end. cbn [negb].
  rewrite Bool.andb_true_r.
  match goal with
  | |- context [helper ?t] =>
      assert (Hd : exists m, deletable t m /\ isRed (right t) = false /\
                             elements t = elements (mkNode v l r false s))
  end.
  { destruct (isRed l) eqn:Hl; cbn [negb].
    - exists (S n0). split; [|split; [assumption|reflexivity]].
      now apply deletable_left.
    - exists n0. split; [|split; [assumption|reflexivity]].
      apply deletable_red; [|reflexivity]. now apply llrb_red. }
  destruct Hd as (m & Hd & Hr & He).
  now rewrite (Hh _ _ Hd Hr He).
Qed.

End Remove.
(** X15.  [remove] returns only when a value of the subtree compares equal to its
    argument: called on a subtree that has no such value, it ends in an
    exception, whatever the shape of the subtree and the comparator. *)
Theorem remove_returns_only_if_present {T} (compareFn : CompareFn T) (x : T)
    (t t' : Node T) :
  remove t compareFn x = Ok t' ->
  exists w, In w (createSnapshot t) /\ compareFn x w = 0.
Proof.
  intros H. rewrite createSnapshot_elements.
  apply remove_fuel_found in H. unfold present in H.
  now rewrite Exists_exists in H.
Qed.

Lemma remove_returns_only_if_present_witness :
  exists w,
    In w (createSnapshot (mkNode 2 (mkNode 1 null null RED 1) null BLACK 1)) /\
    numCompare 1 w = 0.
Proof.
  apply (remove_returns_only_if_present numCompare 1
           (mkNode 2 (mkNode 1 null null RED 1) null BLACK 1)
           (mkNode 2 null null BLACK 1)).
  reflexivity.
Defined.

(** X20.  On a set that keeps invariants 1 to 5 and is not empty, the steps that
    [delete(x)] runs after its test of [has(x)] (color the root red when
    both its children are black, call [remove], color the new root black)
    end in an [AssertionError] when [has(x)] is [false]: the test is what
    keeps the assertions of [remove] from failing. *)
Theorem unchecked_remove_asserts {T} (this : SortedSet T) (x : T) :
  lawful (_compareFn this) -> valid this -> isEmpty this = false ->
  contains this x = false ->
  deleting (_root this) (fun root => remove root (_compareFn this) x)
  = Throw AssertionError.
Proof.
  intros Hlaw Hv He Hc.
  assert (Hp : ~ present (_compareFn this) x (values this)).
  { intros P. apply (SetBehaviour.contains_present _ _ Hlaw Hv) in P.
    congruence. }
  apply (valid_iff _ Hlaw) in Hv. destruct Hv as (Hs & [n Hn] & Hb).
  unfold isEmpty in He. apply negb_false_iff in He. unfold values in *.
  apply (deleting_throws _ _ _ n); auto.
  intros t k Hd Hr Hel.
  apply (remove_absent _ Hlaw x t k Hd).
  - now rewrite Hel.
  - now rewrite Hel.
  - destruct t; cbn; [auto|]. cbn [right] in Hr. congruence.
Qed.

Lemma unchecked_remove_asserts_witness :
  deleting (_root twoValues) (fun root => remove root numCompare 7)
  = Throw AssertionError.
Proof.
  apply (unchecked_remove_asserts twoValues 7).
  - exact numCompare_lawful.
  - exact SetBehaviour.twoValues_valid.
  - reflexivity.
  - reflexivity.
Defined.

End SetRemove.

(** * The sorted set: [floor] and [ceiling] of a member *)

Module SetBounds.
Import SortedSet SetSpec SetModel SetFacts SetClass.

(** X17.  On a set whose tree is in BST order, [has(x)] is [true] exactly when
    [floor(x)] and [ceiling(x)] return the same value. *)
Theorem floor_ceiling_meet_at_members {T} (this : SortedSet T) (x : T) :
  lawful (_compareFn this) -> bstOrder (_compareFn this) (_root this) ->
  contains this x = true <->
  exists m, floorOf this x = Returns m this /\
            ceilingOf this x = Returns m this.
Proof.
  intros Hlaw Hb.
  assert (Hs : sorted (_compareFn this) (values this))
    by now apply (bstOrder_sorted _ Hlaw).
  unfold contains. rewrite (has_present _ Hlaw) by exact Hs.
  unfold present. rewrite Exists_exists.
  destruct (isEmpty this) eqn:He.
  - pose proof (SetBehaviour.empty_values this He) as Hnil.
    unfold values in Hnil. rewrite Hnil.
    unfold floorOf. rewrite He.
    split; [intros (w & [] & _)|intros (m & H & _); discriminate].
  - destruct (Queries.set_order_statistics _ Hlaw this x eq_refl Hb He)
      as (_ & _ & Hf & Hc & Heq).
    unfold values in *. split.
    + intros (w & Hin & Hw). exists w. now apply Heq.
    + intros (m & Ef & Ec).
      destruct Hf as [(m1 & E1 & Hin & Hle & _)|[E1 _]]; [|congruence].
      destruct Hc as [(m2 & E2 & _ & Hge & _)|[E2 _]]; [|congruence].
      assert (m1 = m) by congruence. assert (m2 = m) by congruence. subst.
      exists m. split; [exact Hin|].
      apply (cmp_eq_sym _ Hlaw). apply (cmp_le_antisym _ Hlaw); [exact Hle|].
      now apply (Queries.cmp_ge_le _ Hlaw).
Qed.

Lemma floor_ceiling_meet_at_members_witness :
  contains twoValues 2 = true <->
  exists m, floorOf twoValues 2 = Returns m twoValues /\
            ceilingOf twoValues 2 = Returns m twoValues.
Proof.
  apply (floor_ceiling_meet_at_members twoValues 2).
  - exact numCompare_lawful.
  - cbn. unfold numCompare. repeat constructor.
Defined.

End SetBounds.
